(** * fiberassign: focal-plane hardware model and tile set

    A shallow embedding of [src/hardware.cpp] and [src/tiles.cpp], and the
    properties of the hardware model, the collision kernels, the sky
    projections and the tile index that follow from the code.

    Conventions of the embedding.
    - A C++ [double] is an exact real number ([R]); the functions of
      [<cmath>] are the mathematical functions they approximate.  The
      global [::abs] is the [int abs (int)] of the C library, the only
      [::abs] that [<cmath>], [<iostream>], [<algorithm>] and [<sstream>]
      declare under the GNU headers: a double passed to it is first
      converted to [int], that is rounded towards zero ([Libm.abs]).
    - An [int32_t] or [size_t] is an integer ([Z]) or a natural number.
      The two sums the code takes on [int32_t] values, [maxpetal + 1] and
      [7 + pt], are checked ([Int32.add]): a sum outside the 32-bit range
      is undefined in C++ and [None] here.
    - [std::map <int32_t, T>] is a [gmap Z T]; [m.at(k)] is the lookup
      [m !! k], whose [None] stands for the [std::out_of_range] the C++
      call throws; [m[k] = v] is [<[k:=v]> m].
    - [std::vector <T>] is a [list T]; reading [v[i]] is [v !! i], whose
      [None] stands for an access past the end.  Such an access is not
      checked by the code: it is undefined behaviour, not an exception, and
      nothing is stated about a call that makes one.
    - A function that throws, reads past the end, overflows or does not
      return is [option]-valued; [None] is every such abnormal outcome.
      The loop of [radial_dist2ang] carries a bound [fuel] on its turns and
      yields [None] when the bound is reached first.
    - A work-shared OpenMP loop is run in the order its iterations take
      effect, which the runtime chooses (module [Omp]).
    - [fiberassign::geom] is not part of the sources at hand: its points
      and shapes follow the specification, and [fbg::intersect] is a
      parameter of the collision functions.
    - Logging has no effect on any value and is left out. *)

From Stdlib Require Import Reals Lra Lia ZArith.
From stdpp Require Import base option list sorting strings gmap.


Local Open Scope R_scope.

(** The comparisons of doubles are decided by the order of the reals. *)
#[global] Instance Rlt_decision (x y : R) : Decision (x < y) := Rlt_dec x y.
#[global] Instance Rle_decision (x y : R) : Decision (x <= y) := Rle_dec x y.
#[global] Instance Rgt_decision (x y : R) : Decision (x > y) := Rgt_dec x y.
#[global] Instance Rge_decision (x y : R) : Decision (x >= y) := Rge_dec x y.

(** ** The functions of [<cmath>] on exact reals

    [::sqrt], [::sin], [::cos], [::asin], [::acos] and [fabs] are the
    Standard Library's [sqrt], [sin], [cos], [asin], [acos] and [Rabs];
    [::pow (x, 2)] is [x ^ 2] and [M_PI] is [PI]. *)

Module Libm.

(** [atan2 (y, x)]: the angle of the point [(x, y)], in (-PI, PI]. *)
Definition atan2 (y x : R) : R :=
  if Rlt_dec 0 x then atan (y / x)
  else if Rlt_dec x 0 then
    (if Rle_dec 0 y then atan (y / x) + PI else atan (y / x) - PI)
  else if Rlt_dec 0 y then PI / 2
  else if Rlt_dec y 0 then - (PI / 2)
  else 0.

(** Rounding towards zero, the quotient that [fmod] removes. *)
Definition trunc (x : R) : Z :=
  if Rle_dec 0 x then Int_part x else (- Int_part (- x))%Z.

(** [fmod (x, y)]: [x - n * y] with [n] the quotient [x / y] rounded towards
    zero. *)
Definition fmod (x y : R) : R := x - IZR (trunc (x / y)) * y.

(** [std::numeric_limits<float>::epsilon()], the gap between [1.0f] and the
    next single-precision value. *)
Definition float_epsilon : R := / 2 ^ 23.

(** [::abs (x)] on a double [x]: the call resolves to [int abs (int)], so
    [x] is converted to [int], which rounds it towards zero, and the result
    is the absolute value of that integer.  The conversion is defined for
    the doubles whose integer part is an [int]; the integer part is taken
    as it is here. *)
Definition abs (x : R) : Z := Z.abs (trunc x).

End Libm.

(** ** Arithmetic on [int32_t] *)

Module Int32.

Definition min : Z := (- 2 ^ 31)%Z.
Definition max : Z := (2 ^ 31 - 1)%Z.

(** [x + y] on two [int32_t]: the sum where it is an [int32_t] again; a sum
    outside the range is signed overflow, which is undefined. *)
Definition add (x y : Z) : option Z :=
  let sum := (x + y)%Z in
  if bool_decide (min ≤ sum ≤ max)%Z then Some sum else None.

End Int32.

(** ** Geometry primitives ([fiberassign::geom]) *)

Module Geom.

(** [fbg::dpair], a pair of doubles. *)
Definition dpair : Type := R * R.

(** Modelled from the spec: [fbg::sq] on a [dpair] is declared in the
    missing [geom.h]; the spec reads [sq (offset)] as the squared length
    [|offset|²] of the vector. *)
Definition sq (p : dpair) : R := p.1 * p.1 + p.2 * p.2.

(** Modelled from the spec: [fbg::sq] on a [double], from the missing
    [geom.h], the square of its argument ([(a+b)²], [(a−b)²]). *)
Definition sq_scalar (x : R) : R := x * x.

(** Modelled from the spec: [fbg::dist], from the missing [geom.h], the
    euclidean distance of two points. *)
Definition dist (p q : dpair) : R :=
  sqrt ((p.1 - q.1) * (p.1 - q.1) + (p.2 - q.2) * (p.2 - q.2)).

(** Modelled from the spec: [fbg::shape], from the missing [geom.h]: an
    ordered list of vertices, the reference point about which [rotation]
    turns the shape, and a circle (center, radius) used as a fast
    pre-filter. *)
Record shape : Type := mk_shape {
  axis : dpair;
  vertices : list dpair;
  circle_center : dpair;
  circle_radius : R
}.

Definition add_pair (v p : dpair) : dpair := (p.1 + v.1, p.2 + v.2).

Definition rotate_pair (cs p : dpair) : dpair :=
  (p.1 * cs.1 - p.2 * cs.2, p.1 * cs.2 + p.2 * cs.1).

(** Modelled from the spec: [shape::transl], from the missing [geom.cpp]:
    adds the vector to every vertex (and to the reference point and the
    circle, which move with the shape). *)
Definition transl (v : dpair) (s : shape) : shape :=
  {| axis := add_pair v (axis s);
     vertices := add_pair v <$> vertices s;
     circle_center := add_pair v (circle_center s);
     circle_radius := circle_radius s |}.

(** Modelled from the spec: [shape::rotation_origin], from the missing
    [geom.cpp]: applies the 2×2 rotation by (cos, sin) to every vertex. *)
Definition rotation_origin (cs : dpair) (s : shape) : shape :=
  {| axis := rotate_pair cs (axis s);
     vertices := rotate_pair cs <$> vertices s;
     circle_center := rotate_pair cs (circle_center s);
     circle_radius := circle_radius s |}.

(** Modelled from the spec: [shape::rotation], from the missing [geom.cpp]:
    rotates about the shape's current reference point. *)
Definition rotation (cs : dpair) (s : shape) : shape :=
  let pivot := axis s in
  transl pivot (rotation_origin cs (transl (- pivot.1, - pivot.2) s)).

(** The default-constructed shape of [std::vector <shape> (n)]. *)
Definition shape0 : shape :=
  {| axis := (0, 0); vertices := []; circle_center := (0, 0);
     circle_radius := 0 |}.

End Geom.

Import Geom.

(** ** OpenMP work sharing

    [#pragma omp parallel for schedule(static) num_threads(k)] over
    [0 <= t < n] hands each of the [k] threads one block of consecutive
    iterations; the threads run side by side.  An execution is the order
    [sched] in which the iterations take effect on the shared variables: it
    holds every iteration once and keeps the order inside each block. *)

Module Omp.

(** The block of thread [j]: the first [n mod k] threads take one iteration
    more than the others. *)
Definition block (n k j : nat) : list nat :=
  let q := (n / k)%nat in
  let r := (n mod k)%nat in
  if (j <? r)%nat then seq (j * (q + 1)) (q + 1)
  else seq (r * (q + 1) + (j - r) * q) q.

Definition static_blocks (n k : nat) : list (list nat) :=
  (λ j, block n k j) <$> seq 0 k.

(** [sched] is an execution of the loop of [n] iterations on [k] threads. *)
Definition execution (n k : nat) (sched : list nat) : Prop :=
  sched ≡ₚ concat (static_blocks n k) ∧
  ∀ b, b ∈ static_blocks n k → sublist b sched.

(** The number of threads the [_multi] kernels ask for:
    [run_threads = threads > 0 ? threads : max_threads], capped at
    [max_threads]. *)
Definition run_threads (threads max_threads : Z) : Z :=
  let run := if (0 <? threads)%Z then threads else max_threads in
  if (max_threads <? run)%Z then max_threads else run.

(** The loop itself: the iterations of [sched] act one after the other on
    the shared state; an iteration that throws ends the run. *)
Fixpoint parallel_for {S : Type} (body : nat → S → option S)
    (sched : list nat) (s : S) : option S :=
  match sched with
  | [] => Some s
  | t :: rest => s' ← body t s; parallel_for body rest s'
  end.

(** What the OpenMP runtime decides: the value of [omp_get_num_threads ()]
    and, for a loop of [n] iterations on [k] threads, its execution.  A
    build without OpenMP is the runtime with one thread that runs the
    iterations in order. *)
Record runtime : Type := mk_runtime {
  omp_get_num_threads : Z;
  schedule : nat → nat → list nat
}.

Definition conforming (rt : runtime) : Prop :=
  (1 <= omp_get_num_threads rt)%Z ∧
  ∀ n k : nat, (0 < k)%nat → execution n k (schedule rt n k).

Definition sequential : runtime :=
  {| omp_get_num_threads := 1;
     schedule := λ n k, concat (static_blocks n k) |}.


End Omp.

(** ** Radial distortion *)

(** [Hardware::radial_ang2dist]: the Horner loop over
    [p = {8.297e5, -1750., 1.394e4, 0.0}], unrolled. *)
Definition radial_ang2dist (theta_rad : R) : R :=
  fold_left (λ dist_mm p_i, theta_rad * dist_mm + p_i)
            [8.297e5; -1750; 1.394e4; 0] 0.

(** One turn of the [while] body of [radial_dist2ang]: from the current
    [theta_rad] to the new [(theta_rad, error)]. *)
Definition radial_dist2ang_body (dist_mm theta_rad : R) : R * R :=
  let delta_theta := 1e-4 in
  let inv_delta := 1 / delta_theta in
  let distcur := radial_ang2dist theta_rad in
  let distdelta := radial_ang2dist (theta_rad + delta_theta) in
  let error := distcur - dist_mm in
  let correction := error / (inv_delta * (distdelta - distcur)) in
  (theta_rad - correction, error).

(** [while (::abs (error) > 1e-7) { ... } return theta_rad;] with at most
    [fuel] turns of the body; [None] when the loop has not ended by then.
    The [int] that [::abs] returns is converted back to double for the
    comparison with [1e-7]. *)
Fixpoint radial_dist2ang_loop (fuel : nat) (dist_mm theta_rad error : R)
  : option R :=
  if Rgt_dec (IZR (Libm.abs error)) 1e-7 then
    match fuel with
    | O => None
    | S fuel' =>
        let '(theta_rad', error') := radial_dist2ang_body dist_mm theta_rad in
        radial_dist2ang_loop fuel' dist_mm theta_rad' error'
    end
  else Some theta_rad.

(** [Hardware::radial_dist2ang]: starting guess [0.01], [error = 1.0]. *)
Definition radial_dist2ang (fuel : nat) (dist_mm : R) : option R :=
  radial_dist2ang_loop fuel dist_mm 0.01 1.

(** ** Sky and focal-plane coordinates *)

(** [Hardware::radec2xy]. *)
Definition radec2xy (tilera tiledec tiletheta ra dec : R) : dpair :=
  let deg_to_rad := PI / 180 in
  let inc_rad := (90 - dec) * deg_to_rad in
  let ra_rad := ra * deg_to_rad in
  let tilera_rad := tilera * deg_to_rad in
  let tiledec_rad := tiledec * deg_to_rad in
  let tiletheta_rad := tiletheta * deg_to_rad in
  let sin_inc_rad := sin inc_rad in
  let x0 := sin_inc_rad * cos ra_rad in
  let y0 := sin_inc_rad * sin ra_rad in
  let z0 := cos inc_rad in
  let cos_tilera_rad := cos tilera_rad in
  let sin_tilera_rad := sin tilera_rad in
  let x1 := cos_tilera_rad * x0 + sin_tilera_rad * y0 in
  let y1 := - sin_tilera_rad * x0 + cos_tilera_rad * y0 in
  let z1 := z0 in
  let cos_tiledec_rad := cos tiledec_rad in
  let sin_tiledec_rad := sin tiledec_rad in
  let x := cos_tiledec_rad * x1 + sin_tiledec_rad * z1 in
  let y := y1 in
  let z := - sin_tiledec_rad * x1 + cos_tiledec_rad * z1 in
  let ra_ang_rad0 := Libm.atan2 y x in
  let ra_ang_rad :=
    if Rlt_dec ra_ang_rad0 0 then 2 * PI + ra_ang_rad0 else ra_ang_rad0 in
  let dec_ang_rad := (PI / 2) - acos (z / sqrt ((x * x) + (y * y) + (z * z))) in
  let radius_rad :=
    2 * asin (sqrt ((sin (dec_ang_rad / 2)) ^ 2 +
                    cos dec_ang_rad * (sin (ra_ang_rad / 2)) ^ 2)) in
  let q_rad := Libm.atan2 z (- y) in
  let radius_mm := radial_ang2dist radius_rad in
  let rotated := q_rad + tiletheta_rad in
  let x_focalplane := radius_mm * cos rotated in
  let y_focalplane := radius_mm * sin rotated in
  (x_focalplane, y_focalplane).






(** ** Positioner kinematics *)

(** [_check_angle_range]: the flag it returns and the value it leaves in
    the reference argument [ang]. *)
Definition _check_angle_range (ang ang_zero ang_min ang_max : R) : bool * R :=
  let twopi := 2 * PI in
  let abs_min := ang_zero + ang_min in
  let abs_max := ang_zero + ang_max in
  let ang := if Rlt_dec ang abs_min then ang + twopi else ang in
  let ang := if Rgt_dec ang abs_max then ang - twopi else ang in
  if bool_decide (ang < abs_min) || bool_decide (ang > abs_max) then (true, ang)
  else (false, ang).

(** [Hardware::move_positioner_thetaphi]: the flag and the two shapes as
    the call leaves them. *)
Definition move_positioner_thetaphi (shptheta shpphi : shape)
    (center : dpair) (theta phi : R)
    (theta_arm phi_arm theta_zero phi_zero
     theta_min phi_min theta_max phi_max : R) : bool * shape * shape :=
  let '(bad_phi, phi) := _check_angle_range phi phi_zero phi_min phi_max in
  let '(bad_theta, theta) :=
    _check_angle_range theta theta_zero theta_min theta_max in
  if bad_phi || bad_theta then (true, shptheta, shpphi)
  else
    let ctheta := cos theta in
    let stheta := sin theta in
    let cphi := cos phi in
    let sphi := sin phi in
    let cstheta := (ctheta, stheta) in
    let csphi := (cphi, sphi) in
    let shpphi := transl (theta_arm, 0) shpphi in
    let shptheta := rotation_origin cstheta shptheta in
    let shpphi := rotation_origin cstheta shpphi in
    let shpphi := rotation csphi shpphi in
    let shpphi := transl center shpphi in
    let shptheta := transl center shptheta in
    (false, shptheta, shpphi).

(** [Hardware::xy_to_thetaphi]: the flag and the values left in the
    reference arguments [theta] and [phi]. *)
Definition xy_to_thetaphi (center position : dpair)
    (theta_arm phi_arm theta_zero phi_zero
     theta_min phi_min theta_max phi_max : R) : bool * R * R :=
  let offset := (position.1 - center.1, position.2 - center.2) in
  let sq_theta_arm := theta_arm * theta_arm in
  let sq_phi_arm := phi_arm * phi_arm in
  let sq_offset := sq offset in
  let sq_total_arm := sq_scalar (theta_arm + phi_arm) in
  let sq_diff_arm := sq_scalar (theta_arm - phi_arm) in
  let phi := PI in
  let theta := 0 in
  let check (theta phi : R) : bool * R * R :=
    let '(bad_phi, phi) := _check_angle_range phi phi_zero phi_min phi_max in
    let '(bad_theta, theta) :=
      _check_angle_range theta theta_zero theta_min theta_max in
    if bad_phi || bad_theta then (true, theta, phi) else (false, theta, phi) in
  if Rle_dec (Rabs (sq_offset - sq_total_arm)) Libm.float_epsilon then
    check (Libm.atan2 offset.2 offset.1) 0
  else if Rle_dec (Rabs (sq_diff_arm - sq_offset)) Libm.float_epsilon then
    check (Libm.atan2 offset.2 offset.1) PI
  else if Rlt_dec sq_total_arm sq_offset then (true, theta, phi)
  else if Rlt_dec sq_offset sq_diff_arm then (true, theta, phi)
  else
    let opening :=
      acos ((sq_theta_arm + sq_phi_arm - sq_offset)
            / (2 * theta_arm * phi_arm)) in
    let phi := PI - opening in
    let nrm_offset := sqrt sq_offset in
    let txy :=
      acos ((sq_theta_arm + sq_offset - sq_phi_arm)
            / (2 * theta_arm * nrm_offset)) in
    let theta := Libm.atan2 offset.2 offset.1 - txy in
    check theta phi.

(** [Hardware::move_positioner_xy]. *)
Definition move_positioner_xy (shptheta shpphi : shape)
    (center position : dpair)
    (theta_arm phi_arm theta_zero phi_zero
     theta_min phi_min theta_max phi_max : R) : bool * shape * shape :=
  let '(fail, theta, phi) :=
    xy_to_thetaphi center position theta_arm phi_arm theta_zero phi_zero
                   theta_min phi_min theta_max phi_max in
  if fail then (true, shptheta, shpphi)
  else move_positioner_thetaphi shptheta shpphi center theta phi
         theta_arm phi_arm theta_zero phi_zero
         theta_min phi_min theta_max phi_max.

(** ** The hardware model *)

(** The members of [fba::Hardware]. *)
Record Hardware : Type := mk_Hardware {
  nloc : nat;
  npetal : nat;
  nfiber_petal : Z;
  focalplane_radius_deg : R;
  neighbor_radius_mm : R;
  patrol_buffer_mm : R;
  locations : list Z;
  petal_locations : gmap Z (list Z);
  loc_petal : gmap Z Z;
  loc_device : gmap Z Z;
  loc_device_type : gmap Z string;
  loc_fiber : gmap Z Z;
  loc_slitblock : gmap Z Z;
  loc_blockfiber : gmap Z Z;
  loc_pos_xy_mm : gmap Z dpair;
  state : gmap Z Z;
  neighbors : gmap Z (list Z);
  petal_edge : gmap Z bool;
  gfa_edge : gmap Z bool;
  loc_theta_offset : gmap Z R;
  loc_theta_min : gmap Z R;
  loc_theta_max : gmap Z R;
  loc_theta_arm : gmap Z R;
  loc_phi_offset : gmap Z R;
  loc_phi_min : gmap Z R;
  loc_phi_max : gmap Z R;
  loc_phi_arm : gmap Z R;
  loc_theta_excl : gmap Z shape;
  loc_phi_excl : gmap Z shape;
  loc_gfa_excl : gmap Z shape;
  loc_petal_excl : gmap Z shape;
  timestr_ : string;
  ps_radius_ : list R;
  ps_theta_ : list R
}.

(** The arguments of the constructor [Hardware::Hardware], in its order. *)
Record HardwareArgs : Type := mk_HardwareArgs {
  arg_timestr : string;
  arg_location : list Z;
  arg_petal : list Z;
  arg_device : list Z;
  arg_slitblock : list Z;
  arg_blockfiber : list Z;
  arg_fiber : list Z;
  arg_device_type : list string;
  arg_x_mm : list R;
  arg_y_mm : list R;
  arg_status : list Z;
  arg_theta_offset : list R;
  arg_theta_min : list R;
  arg_theta_max : list R;
  arg_theta_arm : list R;
  arg_phi_offset : list R;
  arg_phi_min : list R;
  arg_phi_max : list R;
  arg_phi_arm : list R;
  arg_ps_radius : list R;
  arg_ps_theta : list R;
  arg_excl_theta : list shape;
  arg_excl_phi : list shape;
  arg_excl_gfa : list shape;
  arg_excl_petal : list shape
}.

(** What one turn of the main loop of the constructor reads at index [i]. *)
Record HardwareRow : Type := mk_HardwareRow {
  row_location : Z;
  row_petal : Z;
  row_device : Z;
  row_device_type : string;
  row_fiber : Z;
  row_slitblock : Z;
  row_blockfiber : Z;
  row_x_mm : R;
  row_y_mm : R;
  row_status : Z;
  row_theta_offset : R;
  row_theta_min : R;
  row_theta_max : R;
  row_theta_arm : R;
  row_phi_offset : R;
  row_phi_min : R;
  row_phi_max : R;
  row_phi_arm : R;
  row_excl_theta : shape;
  row_excl_phi : shape;
  row_excl_gfa : shape;
  row_excl_petal : shape
}.

Definition read_row (a : HardwareArgs) (i : nat) : option HardwareRow :=
  location_i ← arg_location a !! i;
  petal_i ← arg_petal a !! i;
  device_i ← arg_device a !! i;
  device_type_i ← arg_device_type a !! i;
  fiber_i ← arg_fiber a !! i;
  slitblock_i ← arg_slitblock a !! i;
  blockfiber_i ← arg_blockfiber a !! i;
  x_mm_i ← arg_x_mm a !! i;
  y_mm_i ← arg_y_mm a !! i;
  status_i ← arg_status a !! i;
  theta_offset_i ← arg_theta_offset a !! i;
  theta_min_i ← arg_theta_min a !! i;
  theta_max_i ← arg_theta_max a !! i;
  theta_arm_i ← arg_theta_arm a !! i;
  phi_offset_i ← arg_phi_offset a !! i;
  phi_min_i ← arg_phi_min a !! i;
  phi_max_i ← arg_phi_max a !! i;
  phi_arm_i ← arg_phi_arm a !! i;
  excl_theta_i ← arg_excl_theta a !! i;
  excl_phi_i ← arg_excl_phi a !! i;
  excl_gfa_i ← arg_excl_gfa a !! i;
  excl_petal_i ← arg_excl_petal a !! i;
  Some (mk_HardwareRow location_i petal_i device_i device_type_i fiber_i
          slitblock_i blockfiber_i x_mm_i y_mm_i status_i
          theta_offset_i theta_min_i theta_max_i theta_arm_i
          phi_offset_i phi_min_i phi_max_i phi_arm_i
          excl_theta_i excl_phi_i excl_gfa_i excl_petal_i).

(** [m[k].push_back (v)] on a map of vectors: [m[k]] makes the empty vector
    when the key is new. *)
Definition push_back (m : gmap Z (list Z)) (k v : Z) : gmap Z (list Z) :=
  <[k := default [] (m !! k) ++ [v]]> m.

(** [maxpetal]: [if (p > maxpetal) maxpetal = p] over [petal], from [0]. *)
Definition maxpetal_of (petal : list Z) : Z :=
  fold_left (λ maxpetal p, if bool_decide (p > maxpetal)%Z then p else maxpetal)
            petal 0%Z.

(** The members as the constructor has them on entering its main loop:
    the maps cleared, [npetal = static_cast <size_t> (maxpetal + 1)] from
    the sum [maxpetal_1] of [maxpetal] and 1, and [petal_locations[i]]
    empty for [i < npetal]. *)
Definition Hardware_cleared (a : HardwareArgs) (maxpetal_1 : Z) : Hardware :=
  let npetal := Z.to_nat maxpetal_1 in
  {| nloc := length (arg_location a);
     npetal := npetal;
     nfiber_petal := 0;
     focalplane_radius_deg := 0;
     neighbor_radius_mm := 0;
     patrol_buffer_mm := 0;
     locations := [];
     petal_locations :=
       fold_left (λ m i, <[Z.of_nat i := []]> m) (seq 0 npetal) ∅;
     loc_petal := ∅; loc_device := ∅; loc_device_type := ∅;
     loc_fiber := ∅; loc_slitblock := ∅; loc_blockfiber := ∅;
     loc_pos_xy_mm := ∅; state := ∅; neighbors := ∅;
     petal_edge := ∅; gfa_edge := ∅;
     loc_theta_offset := ∅; loc_theta_min := ∅; loc_theta_max := ∅;
     loc_theta_arm := ∅;
     loc_phi_offset := ∅; loc_phi_min := ∅; loc_phi_max := ∅;
     loc_phi_arm := ∅;
     loc_theta_excl := ∅; loc_phi_excl := ∅;
     loc_gfa_excl := ∅; loc_petal_excl := ∅;
     timestr_ := arg_timestr a;
     ps_radius_ := arg_ps_radius a;
     ps_theta_ := arg_ps_theta a |}.

(** One turn of the main loop, [for (int32_t i = 0; i < nloc; ++i)]. *)
Definition Hardware_row (hw : Hardware) (r : HardwareRow) : Hardware :=
  let lid := row_location r in
  {| nloc := nloc hw;
     npetal := npetal hw;
     nfiber_petal := nfiber_petal hw;
     focalplane_radius_deg := focalplane_radius_deg hw;
     neighbor_radius_mm := neighbor_radius_mm hw;
     patrol_buffer_mm := patrol_buffer_mm hw;
     locations := locations hw ++ [lid];
     petal_locations := push_back (petal_locations hw) (row_petal r) lid;
     loc_petal := <[lid := row_petal r]> (loc_petal hw);
     loc_device := <[lid := row_device r]> (loc_device hw);
     loc_device_type := <[lid := row_device_type r]> (loc_device_type hw);
     loc_fiber := <[lid := row_fiber r]> (loc_fiber hw);
     loc_slitblock := <[lid := row_slitblock r]> (loc_slitblock hw);
     loc_blockfiber := <[lid := row_blockfiber r]> (loc_blockfiber hw);
     loc_pos_xy_mm := <[lid := (row_x_mm r, row_y_mm r)]> (loc_pos_xy_mm hw);
     state := <[lid := row_status r]> (state hw);
     neighbors := <[lid := []]> (neighbors hw);
     petal_edge := <[lid := false]> (petal_edge hw);
     gfa_edge := <[lid := false]> (gfa_edge hw);
     loc_theta_offset :=
       <[lid := row_theta_offset r * PI / 180]> (loc_theta_offset hw);
     loc_theta_min := <[lid := row_theta_min r * PI / 180]> (loc_theta_min hw);
     loc_theta_max := <[lid := row_theta_max r * PI / 180]> (loc_theta_max hw);
     loc_theta_arm := <[lid := row_theta_arm r]> (loc_theta_arm hw);
     loc_phi_offset :=
       <[lid := row_phi_offset r * PI / 180]> (loc_phi_offset hw);
     loc_phi_min := <[lid := row_phi_min r * PI / 180]> (loc_phi_min hw);
     loc_phi_max := <[lid := row_phi_max r * PI / 180]> (loc_phi_max hw);
     loc_phi_arm := <[lid := row_phi_arm r]> (loc_phi_arm hw);
     loc_theta_excl := <[lid := row_excl_theta r]> (loc_theta_excl hw);
     loc_phi_excl := <[lid := row_excl_phi r]> (loc_phi_excl hw);
     loc_gfa_excl := <[lid := row_excl_gfa r]> (loc_gfa_excl hw);
     loc_petal_excl := <[lid := row_excl_petal r]> (loc_petal_excl hw);
     timestr_ := timestr_ hw;
     ps_radius_ := ps_radius_ hw;
     ps_theta_ := ps_theta_ hw |}.

(** [std::stable_sort] on a vector of [int32_t]. *)
Definition stable_sort (v : list Z) : list Z := merge_sort Z.le v.

(** [for (i = 0; i < npetal; ++i) std::stable_sort (petal_locations[i])]. *)
Definition sort_petal_locations (npetal : nat) (m : gmap Z (list Z))
  : gmap Z (list Z) :=
  fold_left (λ m i, <[Z.of_nat i := stable_sort (default [] (m !! Z.of_nat i))]> m)
            (seq 0 npetal) m.

(** [loc_pos_xy_mm[id]] read through [operator[]], which makes the pair
    (0, 0) for a new key. *)
Definition center_at (pos : gmap Z dpair) (k : Z) : dpair :=
  default (0, 0) (pos !! k).

(** The inner loop of the neighbor scan, [for (y = x + 1; y < nloc; ++y)],
    over the locations after [xid]. *)
Definition neighbors_of (radius : R) (pos : gmap Z dpair) (xid : Z)
    (later : list Z) (nbrs : gmap Z (list Z)) : gmap Z (list Z) :=
  fold_left
    (λ nbrs yid,
       let d := dist (center_at pos xid) (center_at pos yid) in
       if bool_decide (d <= radius)
       then push_back (push_back nbrs xid yid) yid xid
       else nbrs)
    later nbrs.

(** The neighbor scan, [for (x = 0; x < nloc; ++x)] over [locations]. *)
Fixpoint compute_neighbors (radius : R) (pos : gmap Z dpair)
    (locs : list Z) (nbrs : gmap Z (list Z)) : gmap Z (list Z) :=
  match locs with
  | [] => nbrs
  | xid :: later =>
      compute_neighbors radius pos later
        (neighbors_of radius pos xid later nbrs)
  end.

(** The last loop of the constructor: the GFA and petal exclusion polygons
    of every entry of [locations] are turned by the petal angle,
    [fmod ((double)(7 + pt) * 36.0, 360.0)] degrees, with [7 + pt] a sum of
    [int32_t]. *)
Definition rotate_excl (petals : gmap Z Z) (lid : Z)
    (excl : gmap Z shape * gmap Z shape)
  : option (gmap Z shape * gmap Z shape) :=
  let pt := default 0%Z (petals !! lid) in
  petal_7 ← Int32.add 7 pt;
  let petalrot_deg := Libm.fmod (IZR petal_7 * 36) 360 in
  let petalrot_rad := petalrot_deg * PI / 180 in
  let csang := (cos petalrot_rad, sin petalrot_rad) in
  gfa ← excl.1 !! lid;
  let gfa_excl := <[lid := rotation_origin csang gfa]> excl.1 in
  ptl ← excl.2 !! lid;
  let petal_excl := <[lid := rotation_origin csang ptl]> excl.2 in
  Some (gfa_excl, petal_excl).

Fixpoint rotate_excl_all (petals : gmap Z Z) (locs : list Z)
    (excl : gmap Z shape * gmap Z shape)
  : option (gmap Z shape * gmap Z shape) :=
  match locs with
  | [] => Some excl
  | lid :: rest =>
      excl' ← rotate_excl petals lid excl; rotate_excl_all petals rest excl'
  end.

(** [Hardware::Hardware]. *)
Definition Hardware_new (a : HardwareArgs) : option Hardware :=
  let nloc := length (arg_location a) in
  maxpetal_1 ← Int32.add (maxpetal_of (arg_petal a)) 1;
  rows ← mapM (read_row a) (seq 0 nloc);
  let hw := fold_left Hardware_row rows (Hardware_cleared a maxpetal_1) in
  let locations := stable_sort (locations hw) in
  let petal_locations :=
    sort_petal_locations (npetal hw) (petal_locations hw) in
  let nfiber_petal := 500%Z in
  let focalplane_radius_deg := 1.65 in
  let neighbor_radius_mm := 14.05 in
  let patrol_buffer_mm := 0.2 in
  let neighbors :=
    compute_neighbors neighbor_radius_mm (loc_pos_xy_mm hw) locations
                      (neighbors hw) in
  excl ← rotate_excl_all (loc_petal hw) locations
                         (loc_gfa_excl hw, loc_petal_excl hw);
  Some {| nloc := nloc;
          npetal := npetal hw;
          nfiber_petal := nfiber_petal;
          focalplane_radius_deg := focalplane_radius_deg;
          neighbor_radius_mm := neighbor_radius_mm;
          patrol_buffer_mm := patrol_buffer_mm;
          locations := locations;
          petal_locations := petal_locations;
          loc_petal := loc_petal hw;
          loc_device := loc_device hw;
          loc_device_type := loc_device_type hw;
          loc_fiber := loc_fiber hw;
          loc_slitblock := loc_slitblock hw;
          loc_blockfiber := loc_blockfiber hw;
          loc_pos_xy_mm := loc_pos_xy_mm hw;
          state := state hw;
          neighbors := neighbors;
          petal_edge := petal_edge hw;
          gfa_edge := gfa_edge hw;
          loc_theta_offset := loc_theta_offset hw;
          loc_theta_min := loc_theta_min hw;
          loc_theta_max := loc_theta_max hw;
          loc_theta_arm := loc_theta_arm hw;
          loc_phi_offset := loc_phi_offset hw;
          loc_phi_min := loc_phi_min hw;
          loc_phi_max := loc_phi_max hw;
          loc_phi_arm := loc_phi_arm hw;
          loc_theta_excl := loc_theta_excl hw;
          loc_phi_excl := loc_phi_excl hw;
          loc_gfa_excl := excl.1;
          loc_petal_excl := excl.2;
          timestr_ := timestr_ hw;
          ps_radius_ := ps_radius_ hw;
          ps_theta_ := ps_theta_ hw |}.

(** ** Other members of [Hardware] *)

(** [Hardware::time]. *)
Definition time (hw : Hardware) : string := timestr_ hw.

(** The loop of [Hardware::device_locations] over the rest of [locations],
    entered with the vector [ret] built so far; [type.compare (s) == 0]
    holds when the two strings are equal. *)
Fixpoint device_locations_loop (types : gmap Z string) (type : string)
    (locs : list Z) (ret : list Z) : option (list Z) :=
  match locs with
  | [] => Some ret
  | fid :: rest =>
      ty ← types !! fid;
      device_locations_loop types type rest
        (if bool_decide (type = ty) then ret ++ [fid] else ret)
  end.

(** [Hardware::device_locations]. *)
Definition device_locations (hw : Hardware) (type : string)
  : option (list Z) :=
  device_locations_loop (loc_device_type hw) type (locations hw) [].

(** ** Placing positioners *)

(** [Hardware::position_xy_bad]. *)
Definition position_xy_bad (hw : Hardware) (loc : Z) (xy : dpair)
  : option bool :=
  center ← loc_pos_xy_mm hw !! loc;
  theta_arm ← loc_theta_arm hw !! loc;
  phi_arm ← loc_phi_arm hw !! loc;
  theta_offset ← loc_theta_offset hw !! loc;
  phi_offset ← loc_phi_offset hw !! loc;
  theta_min ← loc_theta_min hw !! loc;
  phi_min ← loc_phi_min hw !! loc;
  theta_max ← loc_theta_max hw !! loc;
  phi_max ← loc_phi_max hw !! loc;
  Some (xy_to_thetaphi center xy theta_arm phi_arm theta_offset phi_offset
                       theta_min phi_min theta_max phi_max).1.1.

(** [Hardware::loc_position_xy]: the flag and what the call leaves in the
    reference arguments [shptheta] and [shpphi], which it overwrites with
    the exclusion polygons of the location before it moves them. *)
Definition loc_position_xy (hw : Hardware) (loc : Z) (xy : dpair)
  : option (bool * shape * shape) :=
  shptheta ← loc_theta_excl hw !! loc;
  shpphi ← loc_phi_excl hw !! loc;
  center ← loc_pos_xy_mm hw !! loc;
  theta_arm ← loc_theta_arm hw !! loc;
  phi_arm ← loc_phi_arm hw !! loc;
  theta_offset ← loc_theta_offset hw !! loc;
  phi_offset ← loc_phi_offset hw !! loc;
  theta_min ← loc_theta_min hw !! loc;
  phi_min ← loc_phi_min hw !! loc;
  theta_max ← loc_theta_max hw !! loc;
  phi_max ← loc_phi_max hw !! loc;
  Some (move_positioner_xy shptheta shpphi center xy theta_arm phi_arm
          theta_offset phi_offset theta_min phi_min theta_max phi_max).

(** [Hardware::loc_position_thetaphi]. *)
Definition loc_position_thetaphi (hw : Hardware) (loc : Z) (theta phi : R)
  : option (bool * shape * shape) :=
  shptheta ← loc_theta_excl hw !! loc;
  shpphi ← loc_phi_excl hw !! loc;
  center ← loc_pos_xy_mm hw !! loc;
  theta_arm ← loc_theta_arm hw !! loc;
  phi_arm ← loc_phi_arm hw !! loc;
  theta_offset ← loc_theta_offset hw !! loc;
  phi_offset ← loc_phi_offset hw !! loc;
  theta_min ← loc_theta_min hw !! loc;
  phi_min ← loc_phi_min hw !! loc;
  theta_max ← loc_theta_max hw !! loc;
  phi_max ← loc_phi_max hw !! loc;
  Some (move_positioner_thetaphi shptheta shpphi center theta phi
          theta_arm phi_arm theta_offset phi_offset
          theta_min phi_min theta_max phi_max).

(** An element of the vectors the [_multi] placements return:
    [std::pair <bool, std::pair <shape, shape> >]. *)
Definition placement : Type := bool * (shape * shape).

(** [Hardware::loc_position_xy_multi].  The loop reads [xy[f]] for every
    [f] below [loc.size ()] and does not check the size of [xy]: with fewer
    targets than locations the read is past the end of the vector, which is
    undefined behaviour and not an exception.  The [None] of [xy !! f]
    stands for it; the [None] of [loc_position_xy] is the exception of
    [.at]. *)
Definition loc_position_xy_multi (rt : Omp.runtime) (hw : Hardware)
    (loc : list Z) (xy : list dpair) (threads : Z)
  : option (list placement) :=
  let nlc := length loc in
  let result := replicate nlc (false, (shape0, shape0)) in
  let max_threads := Omp.omp_get_num_threads rt in
  let run_threads := Omp.run_threads threads max_threads in
  Omp.parallel_for
    (λ f result,
       loc_f ← loc !! f;
       xy_f ← xy !! f;
       r ← loc_position_xy hw loc_f xy_f;
       Some (<[f := (r.1.1, (r.1.2, r.2))]> result))
    (Omp.schedule rt nlc (Z.to_nat run_threads)) result.

(** [Hardware::loc_position_thetaphi_multi].  As in
    [loc_position_xy_multi], [theta[f]] and [phi[f]] are read unchecked:
    the [None] of [theta !! f] and [phi !! f] stands for the undefined
    behaviour of a read past the end. *)
Definition loc_position_thetaphi_multi (rt : Omp.runtime) (hw : Hardware)
    (loc : list Z) (theta phi : list R) (threads : Z)
  : option (list placement) :=
  let nlc := length loc in
  let result := replicate nlc (false, (shape0, shape0)) in
  let max_threads := Omp.omp_get_num_threads rt in
  let run_threads := Omp.run_threads threads max_threads in
  Omp.parallel_for
    (λ f result,
       loc_f ← loc !! f;
       theta_f ← theta !! f;
       phi_f ← phi !! f;
       r ← loc_position_thetaphi hw loc_f theta_f phi_f;
       Some (<[f := (r.1.1, (r.1.2, r.2))]> result))
    (Omp.schedule rt nlc (Z.to_nat run_threads)) result.

(** ** Collisions

    [fbg::intersect] is defined in the missing [geom.cpp]; the collision
    functions are stated over it. *)

Section Collisions.

Variable intersect : shape → shape → bool.

(** The three tests shared by the collision functions: phi against phi,
    theta 1 against phi 2, theta 2 against phi 1. *)
Definition arms_intersect (shptheta1 shpphi1 shptheta2 shpphi2 : shape)
  : bool :=
  if intersect shpphi1 shpphi2 then true
  else if intersect shptheta1 shpphi2 then true
  else if intersect shptheta2 shpphi1 then true
  else false.

(** [Hardware::collide_xy]. *)
Definition collide_xy (hw : Hardware) (loc1 : Z) (xy1 : dpair)
    (loc2 : Z) (xy2 : dpair) : option bool :=
  _ ← loc_theta_excl hw !! loc1;
  _ ← loc_phi_excl hw !! loc1;
  '(failed1, shptheta1, shpphi1) ← loc_position_xy hw loc1 xy1;
  if failed1 : bool then Some true
  else
    _ ← loc_theta_excl hw !! loc2;
    _ ← loc_phi_excl hw !! loc2;
    '(failed2, shptheta2, shpphi2) ← loc_position_xy hw loc2 xy2;
    if failed2 : bool then Some true
    else Some (arms_intersect shptheta1 shpphi1 shptheta2 shpphi2).

(** [Hardware::collide_xy_edges]. *)
Definition collide_xy_edges (hw : Hardware) (loc : Z) (xy : dpair)
  : option bool :=
  _ ← loc_theta_excl hw !! loc;
  _ ← loc_phi_excl hw !! loc;
  '(failed, shptheta, shpphi) ← loc_position_xy hw loc xy;
  if failed : bool then Some true
  else
    shpgfa ← loc_gfa_excl hw !! loc;
    shppetal ← loc_petal_excl hw !! loc;
    if intersect shpphi shpgfa then Some true
    else if intersect shpphi shppetal then Some true
    else Some false.

(** [Hardware::collide_thetaphi]. *)
Definition collide_thetaphi (hw : Hardware) (loc1 : Z) (theta1 phi1 : R)
    (loc2 : Z) (theta2 phi2 : R) : option bool :=
  _ ← loc_theta_excl hw !! loc1;
  _ ← loc_phi_excl hw !! loc1;
  '(failed1, shptheta1, shpphi1) ← loc_position_thetaphi hw loc1 theta1 phi1;
  if failed1 : bool then Some true
  else
    _ ← loc_theta_excl hw !! loc2;
    _ ← loc_phi_excl hw !! loc2;
    '(failed2, shptheta2, shpphi2) ← loc_position_thetaphi hw loc2 theta2 phi2;
    if failed2 : bool then Some true
    else Some (arms_intersect shptheta1 shpphi1 shptheta2 shpphi2).

(** [low] and [high] of a location and one of its neighbors: the smaller
    id first. *)
Definition ordered_pair (lid nb : Z) : Z * Z :=
  if bool_decide (lid < nb)%Z then (lid, nb) else (nb, lid).

(** The body of the loop over [neighbors.at (lid)] in [check_collisions_*]:
    the pair is ordered as (low, high) and [high] is appended to
    [checklookup[low]] unless it is there. *)
Definition add_check (lid : Z) (checklookup : gmap Z (list Z)) (nb : Z)
  : gmap Z (list Z) :=
  let '(low, high) := ordered_pair lid nb in
  let checklookup :=
    if bool_decide (checklookup !! low = None)
    then <[low := []]> checklookup else checklookup in
  let found :=
    fold_left (λ found ck, if bool_decide (ck = high) then true else found)
              (default [] (checklookup !! low)) false in
  if negb found then push_back checklookup low high else checklookup.

(** The loop [for (auto const & lid : loc)] of [check_collisions_*], entered
    with the index [idx]: it fills [loc_indx] and [checklookup]. *)
Fixpoint build_checklookup (nbrs : gmap Z (list Z)) (loc : list Z)
    (idx : nat) (loc_indx : gmap Z nat) (checklookup : gmap Z (list Z))
  : option (gmap Z nat * gmap Z (list Z)) :=
  match loc with
  | [] => Some (loc_indx, checklookup)
  | lid :: rest =>
      let loc_indx := <[lid := idx]> loc_indx in
      nbs ← nbrs !! lid;
      let checklookup := fold_left (add_check lid) nbs checklookup in
      build_checklookup nbrs rest (S idx) loc_indx checklookup
  end.

(** The order in which a [std::map <int32_t, T>] is traversed. *)
Definition by_key {T : Type} : relation (Z * T) := λ a b, (a.1 <= b.1)%Z.
#[global] Instance by_key_decision {T : Type} (a b : Z * T)
  : Decision (by_key a b) := Z.le_dec a.1 b.1.

(** [checkpairs]: the entries of [checklookup] in the order of the map,
    ascending in the key, each with its values in their order. *)
Definition checkpairs_of (checklookup : gmap Z (list Z)) : list (Z * Z) :=
  mjoin ((λ it : Z * list Z, (λ high, (it.1, high)) <$> it.2)
         <$> merge_sort by_key (map_to_list checklookup)).

(** The test of one pair on the placements. *)
Definition pair_hit (f1 f2 : placement) : bool :=
  let failed1 := f1.1 in
  let shptheta1 := f1.2.1 in
  let shpphi1 := f1.2.2 in
  let failed2 := f2.1 in
  let shptheta2 := f2.2.1 in
  let shpphi2 := f2.2.2 in
  if failed1 || failed2 then true
  else arms_intersect shptheta1 shpphi1 shptheta2 shpphi2.

(** The body of the parallel loop over the pairs of [check_collisions_*];
    the two writes are its critical section. *)
Definition check_pair (fpos : list placement) (loc_indx : gmap Z nat)
    (checkpairs : list (Z * Z)) (p : nat) (result : list bool)
  : option (list bool) :=
  pr ← checkpairs !! p;
  let flow := pr.1 in
  let fhigh := pr.2 in
  ilow ← loc_indx !! flow;
  f1 ← fpos !! ilow;
  ihigh ← loc_indx !! fhigh;
  f2 ← fpos !! ihigh;
  let hit := pair_hit f1 f2 in
  if hit then Some (<[ihigh := true]> (<[ilow := true]> result))
  else Some result.

(** What [check_collisions_xy] and [check_collisions_thetaphi] do once the
    placements [fpos] are there. *)
Definition check_collisions (rt : Omp.runtime) (hw : Hardware)
    (loc : list Z) (fpos : list placement) (threads : Z)
  : option (list bool) :=
  let nlc := length loc in
  '(loc_indx, checklookup) ← build_checklookup (neighbors hw) loc 0 ∅ ∅;
  let checkpairs := checkpairs_of checklookup in
  let npairs := length checkpairs in
  let result := replicate nlc false in
  let max_threads := Omp.omp_get_num_threads rt in
  let run_threads := Omp.run_threads threads max_threads in
  Omp.parallel_for (check_pair fpos loc_indx checkpairs)
                   (Omp.schedule rt npairs (Z.to_nat run_threads)) result.

(** [Hardware::check_collisions_xy]. *)
Definition check_collisions_xy (rt : Omp.runtime) (hw : Hardware)
    (loc : list Z) (xy : list dpair) (threads : Z) : option (list bool) :=
  fpos ← loc_position_xy_multi rt hw loc xy threads;
  check_collisions rt hw loc fpos threads.

(** [Hardware::check_collisions_thetaphi]. *)
Definition check_collisions_thetaphi (rt : Omp.runtime) (hw : Hardware)
    (loc : list Z) (theta phi : list R) (threads : Z)
  : option (list bool) :=
  fpos ← loc_position_thetaphi_multi rt hw loc theta phi threads;
  check_collisions rt hw loc fpos threads.

End Collisions.

(** ** Tile set ([tiles.cpp]) *)

Module Tiles.

(** The members of [fba::Tiles] that the constructor sets.  The hardware
    handle [hw_] is a shared pointer that the constructor only stores; it
    is kept abstract.  [order] has the index type of the loop that fills
    it. *)
Record t (Hw : Type) := mk {
  hw_ : Hw;
  id : list Z;
  ra : list R;
  dec : list R;
  obscond : list Z;
  order : gmap Z nat
}.
Arguments mk {Hw}.
Arguments hw_ {Hw}.
Arguments id {Hw}.
Arguments ra {Hw}.
Arguments dec {Hw}.
Arguments obscond {Hw}.
Arguments order {Hw}.

(** [for (size_t i = 0; i < id.size(); ++i) { order[id[i]] = i; }],
    entered with the index [i] and the ids from position [i] on. *)
Fixpoint order_loop (i : nat) (ids : list Z) (ord : gmap Z nat)
  : gmap Z nat :=
  match ids with
  | [] => ord
  | tid :: rest => order_loop (S i) rest (<[tid := i]> ord)
  end.

(** [Tiles::Tiles(hw, ids, ras, decs, obs)]. *)
Definition new {Hw} (hw : Hw) (ids : list Z) (ras decs : list R)
    (obs : list Z) : t Hw :=
  {| hw_ := hw; id := ids; ra := ras; dec := decs; obscond := obs;
     order := order_loop 0%nat ids ∅ |}.

End Tiles.


(** ** Well-formedness and sample data *)

(** [loc] is a location of the hardware: every per-location table that the
    placement functions read with [.at (loc)] has an entry for it, and so
    has [neighbors]. *)
Definition has_location (hw : Hardware) (loc : Z) : Prop :=
  is_Some (loc_theta_excl hw !! loc) ∧
  is_Some (loc_phi_excl hw !! loc) ∧
  is_Some (loc_pos_xy_mm hw !! loc) ∧
  is_Some (loc_theta_arm hw !! loc) ∧
  is_Some (loc_phi_arm hw !! loc) ∧
  is_Some (loc_theta_offset hw !! loc) ∧
  is_Some (loc_phi_offset hw !! loc) ∧
  is_Some (loc_theta_min hw !! loc) ∧
  is_Some (loc_phi_min hw !! loc) ∧
  is_Some (loc_theta_max hw !! loc) ∧
  is_Some (loc_phi_max hw !! loc).

(** The tables hold the row [r] for its id: each per-location table that
    the constructor fills and does not change afterwards has, at the id of
    the row, the value of the row, an angle in radians; the two edge flags
    are false.  (The GFA and petal polygons are turned by the last loop of
    the constructor, and the neighbor lists are filled by the scan.) *)
Definition row_stored (hw : Hardware) (r : HardwareRow) : Prop :=
  let lid := row_location r in
  loc_petal hw !! lid = Some (row_petal r) ∧
  loc_device hw !! lid = Some (row_device r) ∧
  loc_device_type hw !! lid = Some (row_device_type r) ∧
  loc_fiber hw !! lid = Some (row_fiber r) ∧
  loc_slitblock hw !! lid = Some (row_slitblock r) ∧
  loc_blockfiber hw !! lid = Some (row_blockfiber r) ∧
  loc_pos_xy_mm hw !! lid = Some (row_x_mm r, row_y_mm r) ∧
  state hw !! lid = Some (row_status r) ∧
  petal_edge hw !! lid = Some false ∧
  gfa_edge hw !! lid = Some false ∧
  loc_theta_offset hw !! lid = Some (row_theta_offset r * PI / 180) ∧
  loc_theta_min hw !! lid = Some (row_theta_min r * PI / 180) ∧
  loc_theta_max hw !! lid = Some (row_theta_max r * PI / 180) ∧
  loc_theta_arm hw !! lid = Some (row_theta_arm r) ∧
  loc_phi_offset hw !! lid = Some (row_phi_offset r * PI / 180) ∧
  loc_phi_min hw !! lid = Some (row_phi_min r * PI / 180) ∧
  loc_phi_max hw !! lid = Some (row_phi_max r * PI / 180) ∧
  loc_phi_arm hw !! lid = Some (row_phi_arm r) ∧
  loc_theta_excl hw !! lid = Some (row_excl_theta r) ∧
  loc_phi_excl hw !! lid = Some (row_excl_phi r).

(** The vectors of the constructor that its main loop reads are as long as
    [location]. *)
Definition args_aligned (a : HardwareArgs) : Prop :=
  let n := length (arg_location a) in
  length (arg_petal a) = n ∧ length (arg_device a) = n ∧
  length (arg_device_type a) = n ∧ length (arg_fiber a) = n ∧
  length (arg_slitblock a) = n ∧ length (arg_blockfiber a) = n ∧
  length (arg_x_mm a) = n ∧ length (arg_y_mm a) = n ∧
  length (arg_status a) = n ∧
  length (arg_theta_offset a) = n ∧ length (arg_theta_min a) = n ∧
  length (arg_theta_max a) = n ∧ length (arg_theta_arm a) = n ∧
  length (arg_phi_offset a) = n ∧ length (arg_phi_min a) = n ∧
  length (arg_phi_max a) = n ∧ length (arg_phi_arm a) = n ∧
  length (arg_excl_theta a) = n ∧ length (arg_excl_phi a) = n ∧
  length (arg_excl_gfa a) = n ∧ length (arg_excl_petal a) = n.

(** The neighbor list of a location, empty for an unknown id. *)
Definition neighbors_at (nbrs : gmap Z (list Z)) (loc : Z) : list Z :=
  default [] (nbrs !! loc).

(** A unit square around the origin with its circumscribed circle. *)
Definition unit_square : shape :=
  {| axis := (0, 0);
     vertices := [(-1, -1); (1, -1); (1, 1); (-1, 1)];
     circle_center := (0, 0);
     circle_radius := 2 |}.

(** A symmetric stand-in for [fbg::intersect]: the circles of the two
    shapes overlap. *)
Definition circles_overlap (A B : shape) : bool :=
  bool_decide (dist (circle_center A) (circle_center B)
               <= circle_radius A + circle_radius B).

(** Constructor arguments for [n] copies of one positioner description at
    the given ids and centers: arms of 3 mm, angles in degrees. *)
Definition sample_args (ids petals : list Z) (xs ys : list R)
    (theta_arm theta_min theta_max : R) : HardwareArgs :=
  let n := length ids in
  {| arg_timestr := "2020-01-01T00:00:00";
     arg_location := ids;
     arg_petal := petals;
     arg_device := replicate n 0%Z;
     arg_slitblock := replicate n 0%Z;
     arg_blockfiber := replicate n 0%Z;
     arg_fiber := replicate n 0%Z;
     arg_device_type := replicate n "POS";
     arg_x_mm := xs;
     arg_y_mm := ys;
     arg_status := replicate n 0%Z;
     arg_theta_offset := replicate n 0;
     arg_theta_min := replicate n theta_min;
     arg_theta_max := replicate n theta_max;
     arg_theta_arm := replicate n theta_arm;
     arg_phi_offset := replicate n 0;
     arg_phi_min := replicate n 0;
     arg_phi_max := replicate n 180;
     arg_phi_arm := replicate n 3;
     arg_ps_radius := [];
     arg_ps_theta := [];
     arg_excl_theta := replicate n unit_square;
     arg_excl_phi := replicate n unit_square;
     arg_excl_gfa := replicate n unit_square;
     arg_excl_petal := replicate n unit_square |}.

(** Two positioners, ids 1 and 2, 6 mm apart. *)
Definition args_pair : HardwareArgs :=
  sample_args [1%Z; 2%Z] [0%Z; 0%Z] [0; 6] [0; 0] 3 (-180) 180.

(** The same location id given twice, a negative petal index, a negative
    theta arm, and a theta range whose minimum is above its maximum. *)
Definition args_invalid : HardwareArgs :=
  sample_args [5%Z; 5%Z] [0%Z; (-1)%Z] [0; 0] [0; 0] (-3) 10 (-10).

(** Arguments that are in order but for the location id 5 given twice. *)
Definition args_duplicate : HardwareArgs :=
  sample_args [5%Z; 5%Z] [0%Z; 0%Z] [0; 0] [0; 0] 3 (-180) 180.

(** A hardware with the two locations 1 and 2 of [args_pair], each the
    neighbor of the other. *)
Definition hw_pair : Hardware :=
  {| nloc := 2;
     npetal := 1;
     nfiber_petal := 500;
     focalplane_radius_deg := 1.65;
     neighbor_radius_mm := 14.05;
     patrol_buffer_mm := 0.2;
     locations := [1%Z; 2%Z];
     petal_locations := {[ 0%Z := [1%Z; 2%Z] ]};
     loc_petal := {[ 1%Z := 0%Z; 2%Z := 0%Z ]};
     loc_device := {[ 1%Z := 0%Z; 2%Z := 0%Z ]};
     loc_device_type := {[ 1%Z := "POS"; 2%Z := "POS" ]};
     loc_fiber := {[ 1%Z := 0%Z; 2%Z := 0%Z ]};
     loc_slitblock := {[ 1%Z := 0%Z; 2%Z := 0%Z ]};
     loc_blockfiber := {[ 1%Z := 0%Z; 2%Z := 0%Z ]};
     loc_pos_xy_mm := {[ 1%Z := (0, 0); 2%Z := (6, 0) ]};
     state := {[ 1%Z := 0%Z; 2%Z := 0%Z ]};
     neighbors := {[ 1%Z := [2%Z]; 2%Z := [1%Z] ]};
     petal_edge := {[ 1%Z := false; 2%Z := false ]};
     gfa_edge := {[ 1%Z := false; 2%Z := false ]};
     loc_theta_offset := {[ 1%Z := 0; 2%Z := 0 ]};
     loc_theta_min := {[ 1%Z := - PI; 2%Z := - PI ]};
     loc_theta_max := {[ 1%Z := PI; 2%Z := PI ]};
     loc_theta_arm := {[ 1%Z := 3; 2%Z := 3 ]};
     loc_phi_offset := {[ 1%Z := 0; 2%Z := 0 ]};
     loc_phi_min := {[ 1%Z := 0; 2%Z := 0 ]};
     loc_phi_max := {[ 1%Z := PI; 2%Z := PI ]};
     loc_phi_arm := {[ 1%Z := 3; 2%Z := 3 ]};
     loc_theta_excl := {[ 1%Z := unit_square; 2%Z := unit_square ]};
     loc_phi_excl := {[ 1%Z := unit_square; 2%Z := unit_square ]};
     loc_gfa_excl := {[ 1%Z := unit_square; 2%Z := unit_square ]};
     loc_petal_excl := {[ 1%Z := unit_square; 2%Z := unit_square ]};
     timestr_ := "2020-01-01T00:00:00";
     ps_radius_ := [];
     ps_theta_ := [] |}.

(** ** The vectorised kernels, element by element *)

(** A loop body that writes the value [f t] to the cell [t] of the output
    vector and touches nothing else. *)
Definition cell_write {T : Type} (f : nat → option T) (t : nat)
    (out : list T) : option (list T) :=
  v ← f t; Some (<[t := v]> out).



(** ** The radial inversion as an iteration *)

(** The slope the loop divides by: the forward difference quotient of
    [radial_ang2dist] at [x] with step 1e-4, written out. *)
Definition slope_fd (x : R) : R :=
  8.297e5 * (3 * x * x + 3 * x * 1e-4 + 1e-4 * 1e-4)
  - 1750 * (2 * x + 1e-4) + 1.394e4.

(** The slope of the chord of [radial_ang2dist] between [x] and [t]. *)
Definition slope_chord (x t : R) : R :=
  8.297e5 * (x * x + x * t + t * t) - 1750 * (x + t) + 1.394e4.

(** The iterates from which a turn of the loop moves closer to the root
    [t]: those right of it, and those near a small root. *)
Definition newton_good (t x : R) : Prop :=
  t <= x ∨ (Rabs (x - t) <= 0.05 ∧ t <= 0.05).

(** How the loop leaves for the distance of the angle [t]: the value
    returned is one turn of the body after an iterate whose distance is
    less than 1 mm from the target, the first error that [::abs] takes to
    the integer 0. *)
Definition newton_exit (t r : R) : Prop :=
  ∃ x : R,
    newton_good t x ∧
    Rabs (radial_ang2dist x - radial_ang2dist t) < 1 ∧
    r = (radial_dist2ang_body (radial_ang2dist t) x).1.

(** The errors that the loop of [radial_dist2ang] passes to [::abs], in the
    order of the turns: the error it is entered with and the error of
    every turn it makes within [fuel]. *)
Fixpoint radial_dist2ang_errors (fuel : nat) (dist_mm theta_rad error : R)
  : list R :=
  error ::
  (if Rgt_dec (IZR (Libm.abs error)) 1e-7 then
     match fuel with
     | O => []
     | S fuel' =>
         let '(theta_rad', error') := radial_dist2ang_body dist_mm theta_rad in
         radial_dist2ang_errors fuel' dist_mm theta_rad' error'
     end
   else []).

(** The petal indices with which the two sums of the constructor stay in
    the range of [int32_t]: [maxpetal + 1] and, for every row, [7 + pt]. *)
Definition petals_in_range (a : HardwareArgs) : Prop :=
  Forall (λ p : Z, (Int32.min ≤ p ≤ Int32.max - 7)%Z) (arg_petal a).

(** ** Fixtures for the further properties *)

(** A runtime with four threads in which the blocks of the threads take
    effect in the reverse order of the thread numbers. *)
Definition reversed_runtime : Omp.runtime :=
  {| Omp.omp_get_num_threads := 4;
     Omp.schedule := λ n k, concat (reverse (Omp.static_blocks n k)) |}.

(** The ids of the rows with petal [p], in the order of the input. *)
Definition ids_of_petal (a : HardwareArgs) (p : Z) : list Z :=
  (filter (λ lp : Z * Z, lp.2 = p) (zip (arg_location a) (arg_petal a))).*1.

(** The angle by which the constructor turns the GFA and petal polygons of
    a location of petal [pt]: the cosine and sine of [(7 + pt) 36] degrees
    reduced by [fmod], with [7 + pt] the sum of the integers.  It is what
    [rotate_excl] computes when that sum is an [int32_t]. *)
Definition petal_rotation (pt : Z) : dpair :=
  let petalrot_deg := Libm.fmod (IZR (7 + pt) * 36) 360 in
  let petalrot_rad := petalrot_deg * PI / 180 in
  (cos petalrot_rad, sin petalrot_rad).

(** * Verification *)

(** ** Properties of the tile set *)

Section TilesFacts.

(** What the loop leaves for a key: an index at or after the start when
    the key occurs in the remaining ids, the old entry otherwise. *)
Lemma order_loop_lookup (ids : list Z) :
  ∀ (i : nat) (ord : gmap Z nat) (k : Z),
    ((k ∉ ids) ∧ Tiles.order_loop i ids ord !! k = ord !! k) ∨
    (∃ j : nat, Tiles.order_loop i ids ord !! k = Some (i + j)%nat ∧
                ids !! j = Some k ∧
                ∀ j' : nat, ids !! j' = Some k → j' ≤ j).
Proof.
  induction ids as [|a rest IH]; intros i ord k; simpl.
  - left. split; [apply not_elem_of_nil | reflexivity].
  - destruct (IH (S i) (<[a:=i]> ord) k) as [[Hnin Hlk] | (j & Hlk & Hj & Hmax)].
    + destruct (decide (a = k)) as [->|Hne].
      * right. exists 0%nat. rewrite Hlk, lookup_insert_eq, Nat.add_0_r.
        split; [reflexivity|]. split; [reflexivity|].
        intros [|j'] Hj'; [lia|]. simpl in Hj'.
        exfalso. apply Hnin. eapply list_elem_of_lookup_2; eassumption.
      * left. split.
        -- rewrite not_elem_of_cons. split; [congruence | assumption].
        -- rewrite Hlk. apply lookup_insert_ne. assumption.
    + right. exists (S j). split; [|split].
      * rewrite Hlk. f_equal. lia.
      * exact Hj.
      * intros [|j'] Hj'; [lia|]. simpl in Hj'. apply Hmax in Hj'. lia.
Qed.

End TilesFacts.

(** C10. After [Tiles] construction, [order] maps every tile id that occurs
    in the input to the largest index at which it occurs (a later duplicate
    overwrites an earlier one, and construction never fails); with pairwise
    distinct ids, [order[id[i]] = i] for every index [i]. *)
Theorem Tiles_order_last_index :
  ∀ (Hw : Type) (hw : Hw) (ids : list Z) (ras decs : list R) (obs : list Z),
    let T := Tiles.new hw ids ras decs obs in
    Tiles.id T = ids ∧
    (∀ tid : Z, tid ∈ ids →
       ∃ i : nat, Tiles.order T !! tid = Some i ∧ ids !! i = Some tid ∧
                  ∀ j : nat, ids !! j = Some tid → j ≤ i) ∧
    (NoDup ids →
       ∀ (i : nat) (tid : Z), ids !! i = Some tid →
                              Tiles.order T !! tid = Some i).
Proof.
  intros Hw hw ids ras decs obs T. split; [reflexivity|].
  assert (Hin : ∀ tid : Z, tid ∈ ids →
       ∃ i : nat, Tiles.order T !! tid = Some i ∧ ids !! i = Some tid ∧
                  ∀ j : nat, ids !! j = Some tid → j ≤ i).
  { intros tid Hel. unfold T, Tiles.new; simpl.
    destruct (order_loop_lookup ids 0%nat ∅ tid) as [[Hnin _] | (j & Hlk & Hj & Hmax)].
    - contradiction.
    - exists j. auto. }
  split; [exact Hin|].
  intros Hnd i tid Hi.
  destruct (Hin tid) as (i' & Hlk & Hi' & _).
  { eapply list_elem_of_lookup_2; eassumption. }
  rewrite Hlk. f_equal.
  eapply NoDup_lookup; eassumption.
Qed.

(** The constructor on the ids [7; 3; 7]: the repeated id [7] is accepted
    and ends at index [2]. *)
Lemma Tiles_order_last_index_witness :
  let T := Tiles.new tt [7%Z; 3%Z; 7%Z] [0%R; 0%R; 0%R] [0%R; 0%R; 0%R]
                     [1%Z; 1%Z; 1%Z] in
  (7%Z ∈ [7%Z; 3%Z; 7%Z]) ∧
  ∃ i : nat, Tiles.order T !! 7%Z = Some i ∧
             [7%Z; 3%Z; 7%Z] !! i = Some 7%Z ∧
             ∀ j : nat, [7%Z; 3%Z; 7%Z] !! j = Some 7%Z → j ≤ i.
Proof.
  intros T.
  assert (Hel : 7%Z ∈ [7%Z; 3%Z; 7%Z]) by (apply list_elem_of_here).
  split; [exact Hel|].
  exact (proj1 (proj2 (Tiles_order_last_index unit tt [7%Z; 3%Z; 7%Z]
                         [0%R; 0%R; 0%R] [0%R; 0%R; 0%R] [1%Z; 1%Z; 1%Z]))
               7%Z Hel).
Defined.

(** ** Angles and kinematics *)

Section Kinematics.

Lemma float_epsilon_bounds : 0 < Libm.float_epsilon < 1e-6.
Proof. unfold Libm.float_epsilon. simpl. lra. Qed.

(** What [_check_angle_range] leaves in [ang] and what its flag says. *)
Lemma check_angle_range_spec (ang ang_zero ang_min ang_max : R) :
  let r := _check_angle_range ang ang_zero ang_min ang_max in
  (r.2 = ang ∨ r.2 = ang + 2 * PI ∨ r.2 = ang - 2 * PI) ∧
  (r.1 = true ↔ (r.2 < ang_zero + ang_min ∨ r.2 > ang_zero + ang_max)) ∧
  (r.1 = false ↔ ang_zero + ang_min <= r.2 <= ang_zero + ang_max).
Proof.
  unfold _check_angle_range; cbv zeta.
  destruct (Rlt_dec ang (ang_zero + ang_min)) as [H1|H1];
    match goal with
    | |- context [Rgt_dec ?a ?b] => destruct (Rgt_dec a b) as [H2|H2]
    end;
    match goal with
    | |- context [bool_decide (?a < ?b)] =>
        destruct (bool_decide_reflect (a < b)) as [H3|H3]
    end;
    match goal with
    | |- context [bool_decide (?a > ?b)] =>
        destruct (bool_decide_reflect (a > b)) as [H4|H4]
    | |- _ => idtac
    end; simpl;
    (split; [first [left; lra | right; left; lra | right; right; lra] |]);
    split; split; intros; try discriminate; try reflexivity; try lra;
    intuition lra.
Qed.

(** An angle already inside its range is left alone. *)
Lemma check_angle_range_inside (ang ang_zero ang_min ang_max : R) :
  ang_zero + ang_min <= ang <= ang_zero + ang_max →
  _check_angle_range ang ang_zero ang_min ang_max = (false, ang).
Proof.
  intros [Hlo Hhi]. unfold _check_angle_range; cbv zeta.
  destruct (Rlt_dec ang (ang_zero + ang_min)); [lra|].
  destruct (Rgt_dec ang (ang_zero + ang_max)); [lra|].
  rewrite bool_decide_eq_false_2 by lra.
  rewrite bool_decide_eq_false_2 by lra.
  reflexivity.
Qed.

(** The wrap by one turn, case by case: an angle in range is left alone; an
    angle below the range is raised by 2 PI, and lowered again if that
    takes it above the range; an angle above the range is lowered by 2 PI.
    The angle left is in range exactly when the angle given or one of its
    two shifts by 2 PI is. *)
Lemma check_angle_range_wrap (ang ang_zero ang_min ang_max : R) :
  let lo := ang_zero + ang_min in
  let hi := ang_zero + ang_max in
  let r := _check_angle_range ang ang_zero ang_min ang_max in
  (lo <= ang <= hi → r.2 = ang) ∧
  (ang < lo → ang + 2 * PI <= hi → r.2 = ang + 2 * PI) ∧
  (ang < lo → hi < ang + 2 * PI → r.2 = ang) ∧
  (lo <= ang → hi < ang → r.2 = ang - 2 * PI) ∧
  (lo <= r.2 <= hi
   ↔ lo <= ang <= hi ∨ lo <= ang + 2 * PI <= hi ∨ lo <= ang - 2 * PI <= hi).
Proof.
  pose proof PI_RGT_0 as Hpi.
  unfold _check_angle_range; cbv zeta.
  destruct (Rlt_dec ang (ang_zero + ang_min)) as [H1|H1];
    match goal with
    | |- context [Rgt_dec ?a ?b] => destruct (Rgt_dec a b) as [H2|H2]
    end;
    match goal with
    | |- context [if ?c then (true, ?x) else (false, ?x)] =>
        replace (if c then (true, x) else (false, x)).2 with x
          by (destruct c; reflexivity)
    end;
    repeat split; intros; try lra; intuition lra.
Qed.

End Kinematics.

(** C8. When the requested theta or phi is out of the allowed range even
    after the wrap by 2 PI, [move_positioner_thetaphi] returns true and
    leaves the theta-arm and phi-arm shapes exactly as they were passed
    in. *)
Theorem move_positioner_thetaphi_out_of_range :
  ∀ (shptheta shpphi : shape) (center : dpair) (theta phi : R)
    (theta_arm phi_arm theta_zero phi_zero
     theta_min phi_min theta_max phi_max : R),
    let wrapped_phi := (_check_angle_range phi phi_zero phi_min phi_max).2 in
    let wrapped_theta :=
      (_check_angle_range theta theta_zero theta_min theta_max).2 in
    (wrapped_phi < phi_zero + phi_min ∨ wrapped_phi > phi_zero + phi_max ∨
     wrapped_theta < theta_zero + theta_min ∨
     wrapped_theta > theta_zero + theta_max) →
    move_positioner_thetaphi shptheta shpphi center theta phi
      theta_arm phi_arm theta_zero phi_zero
      theta_min phi_min theta_max phi_max
    = (true, shptheta, shpphi).
Proof.
  intros shptheta shpphi center theta phi theta_arm phi_arm theta_zero
    phi_zero theta_min phi_min theta_max phi_max wphi wtheta Hout.
  unfold move_positioner_thetaphi.
  pose proof (check_angle_range_spec phi phi_zero phi_min phi_max)
    as (_ & Hphi & _).
  pose proof (check_angle_range_spec theta theta_zero theta_min theta_max)
    as (_ & Htheta & _).
  fold wphi in Hphi. fold wtheta in Htheta.
  destruct (_check_angle_range phi phi_zero phi_min phi_max)
    as [bad_phi phi'] eqn:Ephi.
  destruct (_check_angle_range theta theta_zero theta_min theta_max)
    as [bad_theta theta'] eqn:Etheta.
  simpl in *.
  assert (Hbad : bad_phi || bad_theta = true).
  { apply orb_true_iff.
    destruct Hout as [H|[H|[H|H]]];
      [left; apply Hphi; auto | left; apply Hphi; auto
      | right; apply Htheta; auto | right; apply Htheta; auto]. }
  rewrite Hbad. reflexivity.
Qed.

(** A theta of 10 rad against the range [-1, 1]: one turn back leaves
    10 - 2 PI, still above 1, and the shapes come back untouched. *)
Lemma move_positioner_thetaphi_out_of_range_witness :
  move_positioner_thetaphi unit_square unit_square (0, 0) 10 0
    3 3 0 0 (-1) 0 1 PI
  = (true, unit_square, unit_square).
Proof.
  apply move_positioner_thetaphi_out_of_range.
  right; right; right.
  unfold _check_angle_range; cbv zeta.
  pose proof PI_4. pose proof PI_RGT_0.
  destruct (Rlt_dec 10 (0 + -1)); [lra|].
  destruct (Rgt_dec 10 (0 + 1)); [|lra].
  destruct (bool_decide (10 - 2 * PI < 0 + -1) ||
            bool_decide (10 - 2 * PI > 0 + 1)); simpl; lra.
Defined.

(** C4. For an offset whose squared length [s] is farther than the
    single-precision tolerance from [(a-b)²] and from [(a+b)²]:
    strictly inside the annulus [xy_to_thetaphi] computes
    [phi0 = PI - acos ((a²+b²-s)/(2ab))] and
    [theta0 = atan2 (offset.y, offset.x) - acos ((a²+s-b²)/(2a|offset|))]
    and wraps each against its range [[zero+min, zero+max]]: an angle in
    range is left as it is, an angle below the range is raised by 2 PI
    unless that takes it above the range, an angle above the range is
    lowered by 2 PI, and the angle left is in range exactly when the
    computed angle or one of its shifts by 2 PI is.  The wrapped angles are
    left in the outputs.  Outside the annulus the outputs are 0 and PI.
    The call returns true exactly when [s] is outside the annulus or a
    wrapped angle is out of its range. *)
Theorem xy_to_thetaphi_inside_annulus :
  ∀ (center position : dpair)
    (a b theta_zero phi_zero theta_min phi_min theta_max phi_max : R),
    let offset := (position.1 - center.1, position.2 - center.2) in
    let s := offset.1 * offset.1 + offset.2 * offset.2 in
    Rabs (s - (a + b) * (a + b)) > Libm.float_epsilon →
    Rabs ((a - b) * (a - b) - s) > Libm.float_epsilon →
    let phi0 := PI - acos ((a * a + b * b - s) / (2 * a * b)) in
    let theta0 :=
      Libm.atan2 offset.2 offset.1
      - acos ((a * a + s - b * b) / (2 * a * sqrt s)) in
    let phi_lo := phi_zero + phi_min in
    let phi_hi := phi_zero + phi_max in
    let theta_lo := theta_zero + theta_min in
    let theta_hi := theta_zero + theta_max in
    let r := xy_to_thetaphi center position a b theta_zero phi_zero
                            theta_min phi_min theta_max phi_max in
    let unreachable := r.1.1 in
    let theta := r.1.2 in
    let phi := r.2 in
    ((a - b) * (a - b) < s < (a + b) * (a + b) →
     phi = (_check_angle_range phi0 phi_zero phi_min phi_max).2 ∧
     theta = (_check_angle_range theta0 theta_zero theta_min theta_max).2 ∧
     (phi_lo <= phi0 <= phi_hi → phi = phi0) ∧
     (phi0 < phi_lo → phi0 + 2 * PI <= phi_hi → phi = phi0 + 2 * PI) ∧
     (phi0 < phi_lo → phi_hi < phi0 + 2 * PI → phi = phi0) ∧
     (phi_lo <= phi0 → phi_hi < phi0 → phi = phi0 - 2 * PI) ∧
     (phi_lo <= phi <= phi_hi
      ↔ phi_lo <= phi0 <= phi_hi ∨ phi_lo <= phi0 + 2 * PI <= phi_hi
        ∨ phi_lo <= phi0 - 2 * PI <= phi_hi) ∧
     (theta_lo <= theta0 <= theta_hi → theta = theta0) ∧
     (theta0 < theta_lo → theta0 + 2 * PI <= theta_hi →
      theta = theta0 + 2 * PI) ∧
     (theta0 < theta_lo → theta_hi < theta0 + 2 * PI → theta = theta0) ∧
     (theta_lo <= theta0 → theta_hi < theta0 → theta = theta0 - 2 * PI) ∧
     (theta_lo <= theta <= theta_hi
      ↔ theta_lo <= theta0 <= theta_hi
        ∨ theta_lo <= theta0 + 2 * PI <= theta_hi
        ∨ theta_lo <= theta0 - 2 * PI <= theta_hi) ∧
     (unreachable = false
      ↔ phi_lo <= phi <= phi_hi ∧ theta_lo <= theta <= theta_hi)) ∧
    (s < (a - b) * (a - b) ∨ (a + b) * (a + b) < s → r = (true, 0, PI)) ∧
    (unreachable = true ↔
       (s < (a - b) * (a - b) ∨ (a + b) * (a + b) < s) ∨
       (phi < phi_lo ∨ phi > phi_hi) ∨
       (theta < theta_lo ∨ theta > theta_hi)).
Proof.
  intros center position a b theta_zero phi_zero theta_min phi_min
    theta_max phi_max offset s Htot Hdiff phi0 theta0
    phi_lo phi_hi theta_lo theta_hi.
  pose proof float_epsilon_bounds as Heps.
  pose proof (check_angle_range_spec phi0 phi_zero phi_min phi_max)
    as (_ & Hphi_bad & Hphi_ok).
  pose proof (check_angle_range_spec theta0 theta_zero theta_min theta_max)
    as (_ & Hth_bad & Hth_ok).
  pose proof (check_angle_range_wrap phi0 phi_zero phi_min phi_max)
    as (Hp1 & Hp2 & Hp3 & Hp4 & Hp5).
  pose proof (check_angle_range_wrap theta0 theta_zero theta_min theta_max)
    as (Ht1 & Ht2 & Ht3 & Ht4 & Ht5).
  fold phi_lo phi_hi in Hphi_bad, Hphi_ok, Hp1, Hp2, Hp3, Hp4, Hp5.
  fold theta_lo theta_hi in Hth_bad, Hth_ok, Ht1, Ht2, Ht3, Ht4, Ht5.
  assert (Hin : (a - b) * (a - b) < s < (a + b) * (a + b) →
            xy_to_thetaphi center position a b theta_zero phi_zero
              theta_min phi_min theta_max phi_max
            = ((_check_angle_range phi0 phi_zero phi_min phi_max).1
               || (_check_angle_range theta0 theta_zero theta_min
                     theta_max).1,
               (_check_angle_range theta0 theta_zero theta_min
                  theta_max).2,
               (_check_angle_range phi0 phi_zero phi_min phi_max).2)).
  { intros [Hlo Hhi].
    clear Hphi_bad Hphi_ok Hth_bad Hth_ok Hp1 Hp2 Hp3 Hp4 Hp5
          Ht1 Ht2 Ht3 Ht4 Ht5.
    unfold xy_to_thetaphi, sq, sq_scalar.
    subst phi0 theta0 s offset. cbv zeta. simpl fst in *. simpl snd in *.
    destruct (Rle_dec _ Libm.float_epsilon); [lra|].
    destruct (Rle_dec _ Libm.float_epsilon); [lra|].
    destruct (Rlt_dec _ _); [lra|].
    destruct (Rlt_dec _ _); [lra|].
    destruct (_check_angle_range _ phi_zero phi_min phi_max)
      as [bad_phi phi'].
    destruct (_check_angle_range _ theta_zero theta_min theta_max)
      as [bad_theta theta'].
    simpl. destruct (bad_phi || bad_theta); reflexivity. }
  assert (Hout : s < (a - b) * (a - b) ∨ (a + b) * (a + b) < s →
            xy_to_thetaphi center position a b theta_zero phi_zero
              theta_min phi_min theta_max phi_max
            = (true, 0, PI)).
  { intros Hs.
    clear Hphi_bad Hphi_ok Hth_bad Hth_ok Hp1 Hp2 Hp3 Hp4 Hp5
          Ht1 Ht2 Ht3 Ht4 Ht5 Hin.
    unfold xy_to_thetaphi, sq, sq_scalar.
    subst phi0 theta0 s offset. cbv zeta. simpl fst in *. simpl snd in *.
    destruct (Rle_dec _ Libm.float_epsilon); [lra|].
    destruct (Rle_dec _ Libm.float_epsilon); [lra|].
    destruct (Rlt_dec _ _); [reflexivity|].
    destruct (Rlt_dec _ _); [reflexivity|]. lra. }
  assert (Hcases : (a - b) * (a - b) < s < (a + b) * (a + b) ∨
                   (s < (a - b) * (a - b) ∨ (a + b) * (a + b) < s)).
  { destruct (Rlt_dec s ((a - b) * (a - b))) as [H1|H1]; [auto|].
    destruct (Rlt_dec ((a + b) * (a + b)) s) as [H2|H2]; [auto|].
    left. split.
    - destruct (Req_dec s ((a - b) * (a - b))) as [E|E]; [|lra].
      rewrite E in Hdiff. replace ((a - b) * (a - b) - (a - b) * (a - b))
        with 0 in Hdiff by ring.
      rewrite Rabs_R0 in Hdiff. lra.
    - destruct (Req_dec s ((a + b) * (a + b))) as [E|E]; [|lra].
      rewrite E in Htot. replace ((a + b) * (a + b) - (a + b) * (a + b))
        with 0 in Htot by ring.
      rewrite Rabs_R0 in Htot. lra. }
  intros r unreachable theta phi.
  split; [|split].
  - intros Hs. subst unreachable theta phi r. rewrite (Hin Hs). simpl.
    split; [reflexivity|]. split; [reflexivity|].
    do 5 (split; [assumption|]). do 5 (split; [assumption|]).
    rewrite orb_false_iff, Hphi_ok, Hth_ok. reflexivity.
  - intros Hs. subst r. exact (Hout Hs).
  - subst unreachable theta phi r.
    destruct Hcases as [Hs|Hs].
    + rewrite (Hin Hs). simpl.
      rewrite orb_true_iff, Hphi_bad, Hth_bad. split.
      * intros [H|H]; [right; left; exact H | right; right; exact H].
      * intros [[H|H]|[H|H]]; [lra | lra | left; exact H | right; exact H].
    + rewrite (Hout Hs). simpl. split; [intros _; left; exact Hs | reflexivity].
Qed.

(** Scenario S1 of the spec with the theta range [[0, 2 PI]]: center (0,0),
    arms (3,3), target (4,0), so [s = 16] between [0] and [36].  The angle
    computed for theta, [- acos (2/3)], is below the range and is raised by
    2 PI; the target is reachable. *)
Lemma xy_to_thetaphi_inside_annulus_witness :
  let r := xy_to_thetaphi (0, 0) (4, 0) 3 3 0 0 0 0 (2 * PI) PI in
  r.1.1 = false ∧
  r.1.2 = Libm.atan2 (0 - 0) (4 - 0)
          - acos ((3 * 3 + ((4 - 0) * (4 - 0) + (0 - 0) * (0 - 0)) - 3 * 3)
                  / (2 * 3 * sqrt ((4 - 0) * (4 - 0) + (0 - 0) * (0 - 0))))
          + 2 * PI ∧
  r.2 = PI - acos ((3 * 3 + 3 * 3 - ((4 - 0) * (4 - 0) + (0 - 0) * (0 - 0)))
                   / (2 * 3 * 3)).
Proof.
  pose proof float_epsilon_bounds as Heps.
  pose proof PI_RGT_0 as Hpi.
  assert (Htot : Rabs ((4 - 0) * (4 - 0) + (0 - 0) * (0 - 0)
                       - (3 + 3) * (3 + 3)) > Libm.float_epsilon).
  { replace ((4 - 0) * (4 - 0) + (0 - 0) * (0 - 0) - (3 + 3) * (3 + 3))
      with (-20) by lra.
    rewrite Rabs_left by lra. lra. }
  assert (Hdiff : Rabs ((3 - 3) * (3 - 3)
                        - ((4 - 0) * (4 - 0) + (0 - 0) * (0 - 0)))
                  > Libm.float_epsilon).
  { replace ((3 - 3) * (3 - 3) - ((4 - 0) * (4 - 0) + (0 - 0) * (0 - 0)))
      with (-16) by lra.
    rewrite Rabs_left by lra. lra. }
  destruct (xy_to_thetaphi_inside_annulus (0, 0) (4, 0) 3 3 0 0 0 0
              (2 * PI) PI Htot Hdiff) as (Hin & _ & _).
  simpl in Hin.
  destruct Hin as (_ & _ & Hp1 & _ & _ & _ & Hp5 & _ & Ht2 & _ & _ & Ht5 & Hok);
    [lra|].
  set (op := acos ((3 * 3 + 3 * 3 - ((4 - 0) * (4 - 0) + (0 - 0) * (0 - 0)))
                   / (2 * 3 * 3))) in *.
  set (txy := acos ((3 * 3 + ((4 - 0) * (4 - 0) + (0 - 0) * (0 - 0)) - 3 * 3)
                    / (2 * 3 * sqrt ((4 - 0) * (4 - 0)
                                     + (0 - 0) * (0 - 0))))) in *.
  assert (Hat : Libm.atan2 (0 - 0) (4 - 0) = 0).
  { unfold Libm.atan2. destruct (Rlt_dec 0 (4 - 0)); [|lra].
    replace ((0 - 0) / (4 - 0)) with 0 by field. apply atan_0. }
  pose proof (acos_bound ((3 * 3 + 3 * 3
                            - ((4 - 0) * (4 - 0) + (0 - 0) * (0 - 0)))
                           / (2 * 3 * 3))) as Hop. fold op in Hop.
  assert (Htxy : 0 < txy <= PI).
  { pose proof (acos_bound ((3 * 3 + ((4 - 0) * (4 - 0) + (0 - 0) * (0 - 0))
                              - 3 * 3)
                             / (2 * 3 * sqrt ((4 - 0) * (4 - 0)
                                              + (0 - 0) * (0 - 0)))))
      as Hb. fold txy in Hb. split; [|lra].
    destruct (proj1 Hb) as [Hpos|Hzero]; [exact Hpos|]. exfalso.
    assert (Hsq : sqrt ((4 - 0) * (4 - 0) + (0 - 0) * (0 - 0)) = 4).
    { replace ((4 - 0) * (4 - 0) + (0 - 0) * (0 - 0)) with (4 * 4) by ring.
      apply sqrt_square. lra. }
    assert (Hc : cos txy = 2 / 3).
    { unfold txy. rewrite cos_acos; rewrite Hsq; lra. }
    rewrite <- Hzero, cos_0 in Hc. lra. }
  rewrite Hat in *.
  cbv zeta.
  rewrite (Hp1 ltac:(lra)) in *.
  rewrite (Ht2 ltac:(lra) ltac:(lra)) in *.
  split; [|split; reflexivity].
  apply Hok. lra.
Defined.

(** ** Placement and pairwise collision *)

Section CollideFacts.

Variable intersect : shape → shape → bool.

Lemma dist_sym (p q : dpair) : dist p q = dist q p.
Proof. unfold dist. f_equal. ring. Qed.

Lemma dist_self (p : dpair) : dist p p = 0.
Proof.
  unfold dist. replace (_ + _) with 0 by ring. apply sqrt_0.
Qed.

Lemma circles_overlap_sym (A B : shape) :
  circles_overlap A B = circles_overlap B A.
Proof.
  unfold circles_overlap.
  rewrite (dist_sym (circle_center A)), (Rplus_comm (circle_radius A)).
  reflexivity.
Qed.

(** On a location of the hardware every [.at] of [loc_position_xy] finds
    its entry. *)
Lemma loc_position_xy_Some (hw : Hardware) (loc : Z) (xy : dpair) :
  has_location hw loc → is_Some (loc_position_xy hw loc xy).
Proof.
  intros ([? E1] & [? E2] & [? E3] & [? E4] & [? E5] & [? E6] & [? E7]
          & [? E8] & [? E9] & [? E10] & [? E11]).
  unfold loc_position_xy.
  rewrite E1, E2, E3, E4, E5, E6, E7, E8, E9, E10, E11. simpl. eauto.
Qed.

Lemma loc_position_thetaphi_Some (hw : Hardware) (loc : Z) (theta phi : R) :
  has_location hw loc → is_Some (loc_position_thetaphi hw loc theta phi).
Proof.
  intros ([? E1] & [? E2] & [? E3] & [? E4] & [? E5] & [? E6] & [? E7]
          & [? E8] & [? E9] & [? E10] & [? E11]).
  unfold loc_position_thetaphi.
  rewrite E1, E2, E3, E4, E5, E6, E7, E8, E9, E10, E11. simpl. eauto.
Qed.

(** [collide_xy] on two locations of the hardware, in terms of the two
    placements. *)
Lemma collide_xy_placed (hw : Hardware) (loc1 loc2 : Z) (xy1 xy2 : dpair)
    (failed1 failed2 : bool) (shptheta1 shpphi1 shptheta2 shpphi2 : shape) :
  has_location hw loc1 → has_location hw loc2 →
  loc_position_xy hw loc1 xy1 = Some (failed1, shptheta1, shpphi1) →
  loc_position_xy hw loc2 xy2 = Some (failed2, shptheta2, shpphi2) →
  collide_xy intersect hw loc1 xy1 loc2 xy2
  = Some (failed1 || failed2 ||
          (intersect shpphi1 shpphi2 || intersect shptheta1 shpphi2
           || intersect shptheta2 shpphi1)).
Proof.
  intros ([? E1] & [? E2] & _) ([? E3] & [? E4] & _) P1 P2.
  unfold collide_xy, arms_intersect.
  rewrite E1, E2, P1. simpl.
  destruct failed1; simpl; [reflexivity|].
  rewrite E3, E4, P2. simpl.
  destruct failed2; simpl; [reflexivity|].
  destruct (intersect shpphi1 shpphi2); simpl; [reflexivity|].
  destruct (intersect shptheta1 shpphi2); simpl; [reflexivity|].
  destruct (intersect shptheta2 shpphi1); reflexivity.
Qed.

End CollideFacts.

(** C6. For two locations of the hardware and an [intersect] that does not
    depend on the order of its arguments, [collide_xy (a, xa, b, xb)] equals
    [collide_xy (b, xb, a, xa)].  The call returns true when either
    placement is unreachable and otherwise the disjunction of the three
    tests phi-a/phi-b, theta-a/phi-b and theta-b/phi-a; no other test
    (in particular none of theta-a against theta-b) enters the result: any
    [intersect'] that agrees with [intersect] whenever the second argument
    is one of the two placed phi shapes gives the same answer. *)
Theorem collide_xy_symmetric :
  ∀ (intersect : shape → shape → bool) (hw : Hardware)
    (a : Z) (xa : dpair) (b : Z) (xb : dpair),
    (∀ A B : shape, intersect A B = intersect B A) →
    has_location hw a → has_location hw b →
    collide_xy intersect hw a xa b xb = collide_xy intersect hw b xb a xa ∧
    ∃ (failed_a failed_b : bool) (theta_a phi_a theta_b phi_b : shape),
      loc_position_xy hw a xa = Some (failed_a, theta_a, phi_a) ∧
      loc_position_xy hw b xb = Some (failed_b, theta_b, phi_b) ∧
      collide_xy intersect hw a xa b xb
      = Some (failed_a || failed_b ||
              (intersect phi_a phi_b || intersect theta_a phi_b
               || intersect theta_b phi_a)) ∧
      ∀ intersect' : shape → shape → bool,
        (∀ X : shape, intersect' X phi_a = intersect X phi_a) →
        (∀ X : shape, intersect' X phi_b = intersect X phi_b) →
        collide_xy intersect' hw a xa b xb
        = collide_xy intersect hw a xa b xb.
Proof.
  intros intersect hw a xa b xb Hsym Ha Hb.
  destruct (loc_position_xy_Some hw a xa Ha) as [[[fa ta] pa] Pa].
  destruct (loc_position_xy_Some hw b xb Hb) as [[[fb tb] pb] Pb].
  pose proof (collide_xy_placed intersect hw a b xa xb fa fb ta pa tb pb
                Ha Hb Pa Pb) as Hab.
  pose proof (collide_xy_placed intersect hw b a xb xa fb fa tb pb ta pa
                Hb Ha Pb Pa) as Hba.
  split.
  - rewrite Hab, Hba. f_equal.
    rewrite (Hsym pb pa).
    destruct fa, fb, (intersect pa pb), (intersect ta pb),
      (intersect tb pa); reflexivity.
  - exists fa, fb, ta, pa, tb, pb.
    split; [exact Pa|]. split; [exact Pb|]. split; [exact Hab|].
    intros intersect' Hpa Hpb.
    rewrite Hab.
    rewrite (collide_xy_placed intersect' hw a b xa xb fa fb ta pa tb pb
               Ha Hb Pa Pb).
    rewrite !Hpa, !Hpb. reflexivity.
Qed.

Lemma hw_pair_has_location_1 : has_location hw_pair 1.
Proof. repeat split; eexists; reflexivity. Qed.

Lemma hw_pair_has_location_2 : has_location hw_pair 2.
Proof. repeat split; eexists; reflexivity. Qed.

(** Scenario S3 of the spec: the positioners at (0,0) and (6,0) both sent
    to (3,0), tested with overlapping circles. *)
Lemma collide_xy_symmetric_witness :
  collide_xy circles_overlap hw_pair 1 (3, 0) 2 (3, 0)
  = collide_xy circles_overlap hw_pair 2 (3, 0) 1 (3, 0).
Proof.
  exact (proj1 (collide_xy_symmetric circles_overlap hw_pair 1 (3, 0) 2 (3, 0)
                  circles_overlap_sym hw_pair_has_location_1
                  hw_pair_has_location_2)).
Defined.

(** ** The neighbor scan *)

Section NeighborFacts.

Variable radius : R.
Variable pos : gmap Z dpair.

Lemma lookup_push_back (m : gmap Z (list Z)) (k v a : Z) :
  push_back m k v !! a
  = if decide (k = a) then Some (neighbors_at m k ++ [v]) else m !! a.
Proof.
  unfold push_back, neighbors_at. rewrite lookup_insert.
  destruct (decide (k = a)); reflexivity.
Qed.

Lemma neighbors_at_push_back (m : gmap Z (list Z)) (k v a b : Z) :
  b ∈ neighbors_at (push_back m k v) a
  ↔ b ∈ neighbors_at m a ∨ (a = k ∧ b = v).
Proof.
  unfold neighbors_at at 1. rewrite lookup_push_back.
  destruct (decide (k = a)) as [->|Hne]; simpl.
  - rewrite elem_of_app, list_elem_of_singleton. intuition.
  - fold (neighbors_at m a). intuition congruence.
Qed.

Lemma push_back_is_Some (m : gmap Z (list Z)) (k v a : Z) :
  is_Some (m !! a) → is_Some (push_back m k v !! a).
Proof.
  intros H. rewrite lookup_push_back. destruct (decide (k = a)); eauto.
Qed.

(** The inner loop adds the edge between [xid] and every later id within
    the radius, in both directions, and nothing else. *)
Lemma neighbors_of_spec (xid : Z) (later : list Z) :
  ∀ (nbrs : gmap Z (list Z)) (a b : Z),
    b ∈ neighbors_at (neighbors_of radius pos xid later nbrs) a
    ↔ b ∈ neighbors_at nbrs a ∨
      ∃ yid, yid ∈ later ∧ dist (center_at pos xid) (center_at pos yid) <= radius ∧
             ((a = xid ∧ b = yid) ∨ (a = yid ∧ b = xid)).
Proof.
  unfold neighbors_of.
  induction later as [|y later IH]; intros nbrs a b; simpl.
  - split; [auto|]. intros [H|(yid & Hy & _)]; [exact H|].
    apply elem_of_nil in Hy. contradiction.
  - rewrite IH. clear IH.
    destruct (bool_decide_reflect (dist (center_at pos xid) (center_at pos y) <= radius))
      as [Hd|Hd].
    + rewrite !neighbors_at_push_back. split.
      * intros [[[H|[-> ->]]|[-> ->]]|(yid & Hy & Hdy & Hab)].
        -- left; exact H.
        -- right. exists y. split; [left|]. auto.
        -- right. exists y. split; [left|]. auto.
        -- right. exists yid. split; [right; exact Hy|]. auto.
      * intros [H|(yid & Hy & Hdy & Hab)]; [auto|].
        apply elem_of_cons in Hy as [->|Hy].
        -- left. destruct Hab as [[-> ->]|[-> ->]]; auto.
        -- right. exists yid. auto.
    + split.
      * intros [H|(yid & Hy & Hdy & Hab)]; [auto|].
        right. exists yid. split; [right; exact Hy|]. auto.
      * intros [H|(yid & Hy & Hdy & Hab)]; [auto|].
        apply elem_of_cons in Hy as [->|Hy]; [contradiction|].
        right. exists yid. auto.
Qed.

Lemma neighbors_of_is_Some (xid : Z) (later : list Z) :
  ∀ (nbrs : gmap Z (list Z)) (a : Z),
    is_Some (nbrs !! a) →
    is_Some (neighbors_of radius pos xid later nbrs !! a).
Proof.
  unfold neighbors_of.
  induction later as [|y later IH]; intros nbrs a Ha; simpl; [exact Ha|].
  apply IH. destruct (bool_decide _); [|exact Ha].
  by do 2 apply push_back_is_Some.
Qed.

(** The whole scan: an edge for every two positions of the list, one after
    the other, whose centers are within the radius. *)
Lemma compute_neighbors_spec (locs : list Z) :
  ∀ (nbrs : gmap Z (list Z)) (a b : Z),
    b ∈ neighbors_at (compute_neighbors radius pos locs nbrs) a
    ↔ b ∈ neighbors_at nbrs a ∨
      ∃ (before : list Z) (xid : Z) (later : list Z) (yid : Z),
        locs = before ++ xid :: later ∧ yid ∈ later ∧
        dist (center_at pos xid) (center_at pos yid) <= radius ∧
        ((a = xid ∧ b = yid) ∨ (a = yid ∧ b = xid)).
Proof.
  induction locs as [|x locs IH]; intros nbrs a b; simpl.
  - split; [auto|]. intros [H|(before & xid & later & yid & Heq & _)]; [exact H|].
    destruct before; discriminate.
  - rewrite IH, neighbors_of_spec. clear IH. split.
    + intros [[H|(yid & Hy & Hd & Hab)]|(before & xid & later & yid & -> & Hy & Hd & Hab)].
      * auto.
      * right. exists [], x, locs, yid. auto.
      * right. exists (x :: before), xid, later, yid. auto.
    + intros [H|(before & xid & later & yid & Heq & Hy & Hd & Hab)]; [auto|].
      destruct before as [|x' before]; simpl in Heq; injection Heq as -> ->.
      * left. right. exists yid. auto.
      * right. exists before, xid, later, yid. auto.
Qed.

Lemma compute_neighbors_is_Some (locs : list Z) :
  ∀ (nbrs : gmap Z (list Z)) (a : Z),
    is_Some (nbrs !! a) →
    is_Some (compute_neighbors radius pos locs nbrs !! a).
Proof.
  induction locs as [|x locs IH]; intros nbrs a Ha; simpl; [exact Ha|].
  apply IH, neighbors_of_is_Some, Ha.
Qed.

End NeighborFacts.

(** ** The constructor *)

Section ConstructorFacts.

Lemma read_row_Some (a : HardwareArgs) (i : nat) :
  args_aligned a → (i < length (arg_location a))%nat →
  is_Some (read_row a i).
Proof.
  intros Hal Hi. unfold args_aligned in Hal. cbv zeta in Hal.
  destruct_and!.
  unfold read_row.
  repeat match goal with
  | |- context [ ?l !! i ] =>
      let H := fresh in
      destruct (lookup_lt_is_Some_2 l i ltac:(lia)) as [? H];
      rewrite H; simpl
  end.
  eauto.
Qed.

(** Where the fields of a row come from. *)
Lemma read_row_fields (a : HardwareArgs) (i : nat) (r : HardwareRow) :
  read_row a i = Some r →
  arg_location a !! i = Some (row_location r) ∧
  arg_x_mm a !! i = Some (row_x_mm r) ∧
  arg_y_mm a !! i = Some (row_y_mm r) ∧
  arg_theta_arm a !! i = Some (row_theta_arm r) ∧
  arg_theta_min a !! i = Some (row_theta_min r) ∧
  arg_theta_max a !! i = Some (row_theta_max r).
Proof.
  unfold read_row. intros H.
  repeat match type of H with
  | context [ ?l !! i ] =>
      destruct (l !! i) eqn:?; simpl in H; [|discriminate]
  end.
  injection H as <-. simpl. auto 10.
Qed.

Lemma read_rows_Some (a : HardwareArgs) :
  args_aligned a →
  is_Some (mapM (read_row a) (seq 0 (length (arg_location a)))).
Proof.
  intros Hal. apply mapM_is_Some, Forall_forall. intros i Hi.
  apply elem_of_seq in Hi. apply read_row_Some; [exact Hal | lia].
Qed.

Lemma read_rows_lookup (a : HardwareArgs) (rows : list HardwareRow) :
  mapM (read_row a) (seq 0 (length (arg_location a))) = Some rows →
  length rows = length (arg_location a) ∧
  ∀ (i : nat) (r : HardwareRow),
    rows !! i = Some r → read_row a i = Some r.
Proof.
  intros H. apply mapM_Some in H.
  pose proof (Forall2_length _ _ _ H) as Hlen. rewrite length_seq in Hlen.
  split; [lia|].
  intros i r Hr.
  destruct (Forall2_lookup_r _ _ _ _ _ H Hr) as (j & Hj & Hrow).
  apply lookup_seq in Hj as [-> _]. exact Hrow.
Qed.

Lemma read_rows_locations (a : HardwareArgs) (rows : list HardwareRow) :
  mapM (read_row a) (seq 0 (length (arg_location a))) = Some rows →
  row_location <$> rows = arg_location a.
Proof.
  intros H. destruct (read_rows_lookup a rows H) as [Hlen Hrows].
  apply list_eq. intros i. rewrite list_lookup_fmap.
  destruct (rows !! i) as [r|] eqn:Hr; simpl.
  - apply Hrows, read_row_fields in Hr as (-> & _). reflexivity.
  - apply lookup_ge_None in Hr. symmetry. apply lookup_ge_None. lia.
Qed.

Lemma fold_rows_snoc (rows : list HardwareRow) (r : HardwareRow)
    (hw : Hardware) :
  fold_left Hardware_row (rows ++ [r]) hw
  = Hardware_row (fold_left Hardware_row rows hw) r.
Proof. apply fold_left_app. Qed.

Lemma fold_rows_locations (rows : list HardwareRow) (hw : Hardware) :
  locations (fold_left Hardware_row rows hw)
  = locations hw ++ (row_location <$> rows).
Proof.
  induction rows as [|r rows IH] using rev_ind; simpl.
  - by rewrite app_nil_r.
  - rewrite fold_rows_snoc, fmap_app. simpl. rewrite IH.
    by rewrite app_assoc.
Qed.

(** After the main loop every id it has seen has its entry in every
    per-location table, and an empty neighbor list. *)
Lemma fold_rows_tables (rows : list HardwareRow) (hw : Hardware) (k : Z) :
  k ∈ row_location <$> rows →
  let hw' := fold_left Hardware_row rows hw in
  has_location hw' k ∧ neighbors hw' !! k = Some [] ∧
  is_Some (loc_gfa_excl hw' !! k) ∧ is_Some (loc_petal_excl hw' !! k).
Proof.
  induction rows as [|r rows IH] using rev_ind; intros Hk.
  - apply elem_of_nil in Hk. contradiction.
  - rewrite fold_rows_snoc. rewrite fmap_app in Hk. simpl in Hk.
    unfold has_location, Hardware_row. simpl.
    destruct (decide (row_location r = k)) as [->|Hne].
    + rewrite !lookup_insert_eq. repeat split; eauto.
    + rewrite !lookup_insert_ne by exact Hne.
      apply elem_of_app in Hk as [Hk|Hk].
      * apply IH in Hk. exact Hk.
      * apply list_elem_of_singleton in Hk. congruence.
Qed.

(** Every id keeps the center, the theta arm and the theta range of the
    last row that names it. *)
Lemma fold_rows_last (rows : list HardwareRow) (hw : Hardware)
    (i : nat) (r : HardwareRow) :
  rows !! i = Some r →
  (∀ (j : nat) (r' : HardwareRow),
     rows !! j = Some r' → row_location r' = row_location r → (j ≤ i)%nat) →
  let hw' := fold_left Hardware_row rows hw in
  loc_pos_xy_mm hw' !! row_location r = Some (row_x_mm r, row_y_mm r) ∧
  loc_theta_arm hw' !! row_location r = Some (row_theta_arm r) ∧
  loc_theta_min hw' !! row_location r = Some (row_theta_min r * PI / 180) ∧
  loc_theta_max hw' !! row_location r = Some (row_theta_max r * PI / 180).
Proof.
  revert i r. induction rows as [|r' rows IH] using rev_ind;
    intros i r Hi Hlast; [discriminate|].
  rewrite fold_rows_snoc. unfold Hardware_row. simpl.
  destruct (decide (i < length rows)%nat) as [Hlt|Hge].
  - rewrite lookup_app_l in Hi by exact Hlt.
    assert (row_location r' ≠ row_location r) as Hne.
    { intros Heq. specialize (Hlast (length rows) r').
      rewrite lookup_app_r, Nat.sub_diag in Hlast by lia.
      specialize (Hlast eq_refl Heq). lia. }
    rewrite !lookup_insert_ne by exact Hne.
    apply (IH i r Hi). intros j r'' Hj Heq.
    apply (Hlast j r''); [|exact Heq].
    rewrite lookup_app_l; [exact Hj|].
    eapply lookup_lt_Some; eassumption.
  - rewrite lookup_app_r in Hi by lia.
    destruct (i - length rows)%nat; simpl in Hi; [|discriminate].
    injection Hi as ->. rewrite !lookup_insert_eq. auto.
Qed.

Lemma Int32_add_Some (x y sum : Z) :
  Int32.add x y = Some sum
  ↔ sum = (x + y)%Z ∧ (Int32.min ≤ x + y ≤ Int32.max)%Z.
Proof.
  unfold Int32.add. cbv zeta.
  destruct (bool_decide_reflect (Int32.min ≤ x + y ≤ Int32.max)%Z); split.
  - intros [= <-]. auto.
  - intros [-> _]. reflexivity.
  - discriminate.
  - intros [_ H]. contradiction.
Qed.

Lemma Int32_add_in_range (x y : Z) :
  (Int32.min ≤ x + y ≤ Int32.max)%Z → Int32.add x y = Some (x + y)%Z.
Proof. intros H. apply Int32_add_Some. auto. Qed.

Lemma maxpetal_of_bounds (petal : list Z) :
  ∀ m0 : Z,
    let m := fold_left (λ maxpetal p,
                          if bool_decide (p > maxpetal)%Z then p else maxpetal)
                       petal m0 in
    (m0 <= m)%Z ∧ (∀ p, p ∈ petal → (p <= m)%Z) ∧ (m = m0 ∨ m ∈ petal).
Proof.
  induction petal as [|q petal IH]; intros m0; simpl.
  - split; [lia|]. split; [|auto].
    intros p Hp. apply elem_of_nil in Hp. contradiction.
  - destruct (IH (if bool_decide (q > m0)%Z then q else m0))
      as (Hge & Hall & Hwho).
    destruct (bool_decide_reflect (q > m0)%Z) as [Hq|Hq].
    + split; [lia|]. split.
      * intros p Hp. apply elem_of_cons in Hp as [->|Hp]; [lia | auto].
      * right. destruct Hwho as [->|Hin];
          [apply list_elem_of_here | by apply list_elem_of_further].
    + split; [lia|]. split.
      * intros p Hp. apply elem_of_cons in Hp as [->|Hp]; [lia | auto].
      * destruct Hwho as [Heq|Hin]; [auto | right].
        by apply list_elem_of_further.
Qed.

(** With petal indices in range, [maxpetal + 1] is an [int32_t]. *)
Lemma maxpetal_of_in_range (a : HardwareArgs) :
  petals_in_range a →
  (Int32.min ≤ maxpetal_of (arg_petal a) + 1 ≤ Int32.max)%Z.
Proof.
  intros Hpt.
  destruct (maxpetal_of_bounds (arg_petal a) 0%Z) as (Hge & _ & Hwho).
  fold (maxpetal_of (arg_petal a)) in Hge, Hwho.
  unfold Int32.min, Int32.max.
  destruct Hwho as [->|Hin]; [lia|].
  unfold petals_in_range in Hpt. rewrite Forall_forall in Hpt.
  specialize (Hpt _ Hin). unfold Int32.min, Int32.max in Hpt. lia.
Qed.

(** The petal of a row is the entry of [petal] at the row's index. *)
Lemma read_row_petal (a : HardwareArgs) (i : nat) (r : HardwareRow) :
  read_row a i = Some r → arg_petal a !! i = Some (row_petal r).
Proof.
  unfold read_row. intros H.
  repeat match type of H with
  | context [ ?l !! i ] =>
      destruct (l !! i) eqn:?; simpl in H; [|discriminate]
  end.
  injection H as <-. reflexivity.
Qed.

(** Every petal index the main loop stores is one of a row. *)
Lemma fold_rows_petals (rows : list HardwareRow) (hw : Hardware) (k p : Z) :
  loc_petal (fold_left Hardware_row rows hw) !! k = Some p →
  loc_petal hw !! k = Some p ∨ p ∈ row_petal <$> rows.
Proof.
  induction rows as [|r rows IH] using rev_ind; simpl; [auto|].
  rewrite fold_rows_snoc, fmap_app. simpl.
  destruct (decide (row_location r = k)) as [->|Hne].
  - rewrite lookup_insert_eq. intros [= <-]. right.
    apply elem_of_app. right. apply list_elem_of_here.
  - rewrite lookup_insert_ne by exact Hne. intros H.
    destruct (IH H) as [H0|Hin]; [auto|].
    right. apply elem_of_app. auto.
Qed.

(** Every id keeps, in every table that the main loop fills, the value of
    the last row that names it. *)
Lemma fold_rows_last_row (rows : list HardwareRow) (hw : Hardware)
    (i : nat) (r : HardwareRow) :
  rows !! i = Some r →
  (∀ (j : nat) (r' : HardwareRow),
     rows !! j = Some r' → row_location r' = row_location r → (j ≤ i)%nat) →
  row_stored (fold_left Hardware_row rows hw) r.
Proof.
  revert i r. induction rows as [|r' rows IH] using rev_ind;
    intros i r Hi Hlast; [discriminate|].
  rewrite fold_rows_snoc. unfold row_stored, Hardware_row. simpl.
  destruct (decide (i < length rows)%nat) as [Hlt|Hge].
  - rewrite lookup_app_l in Hi by exact Hlt.
    assert (row_location r' ≠ row_location r) as Hne.
    { intros Heq. specialize (Hlast (length rows) r').
      rewrite lookup_app_r, Nat.sub_diag in Hlast by lia.
      specialize (Hlast eq_refl Heq). lia. }
    rewrite !lookup_insert_ne by exact Hne.
    apply (IH i r Hi). intros j r'' Hj Heq.
    apply (Hlast j r''); [|exact Heq].
    rewrite lookup_app_l; [exact Hj|].
    eapply lookup_lt_Some; eassumption.
  - rewrite lookup_app_r in Hi by lia.
    destruct (i - length rows)%nat; simpl in Hi; [|discriminate].
    injection Hi as ->. rewrite !lookup_insert_eq. auto 30.
Qed.

(** The last loop never fails on ids that have their polygons and a petal
    index [pt] with [7 + pt] in range, and leaves the polygons of every id
    in place. *)
Lemma rotate_excl_all_Some (petals : gmap Z Z) (locs : list Z) :
  ∀ excl : gmap Z shape * gmap Z shape,
    (∀ k, k ∈ locs → is_Some (excl.1 !! k) ∧ is_Some (excl.2 !! k)) →
    (∀ k, k ∈ locs →
       (Int32.min ≤ 7 + default 0 (petals !! k) ≤ Int32.max)%Z) →
    is_Some (rotate_excl_all petals locs excl).
Proof.
  induction locs as [|lid locs IH]; intros excl Hdom Hpt; simpl; [eauto|].
  destruct (Hdom lid) as [[g Hg] [q Hq]]; [apply list_elem_of_here|].
  unfold rotate_excl. cbv zeta.
  rewrite Int32_add_in_range by (apply Hpt, list_elem_of_here). simpl.
  rewrite Hg. simpl. rewrite Hq. simpl.
  apply IH; [|intros k Hk; by apply Hpt, list_elem_of_further].
  intros k Hk. simpl.
  destruct (Hdom k) as [Hg' Hq']; [by apply list_elem_of_further|].
  split; apply lookup_insert_is_Some';auto.
Qed.

(** The members of a constructed hardware, read off the constructor. *)
Lemma Hardware_new_inv (a : HardwareArgs) (hw : Hardware) :
  Hardware_new a = Some hw →
  ∃ rows : list HardwareRow,
    mapM (read_row a) (seq 0 (length (arg_location a))) = Some rows ∧
    let st := fold_left Hardware_row rows
                (Hardware_cleared a (maxpetal_of (arg_petal a) + 1)) in
    locations hw = stable_sort (arg_location a) ∧
    neighbor_radius_mm hw = 14.05 ∧
    neighbors hw
    = compute_neighbors 14.05 (loc_pos_xy_mm st)
        (stable_sort (arg_location a)) (neighbors st) ∧
    loc_pos_xy_mm hw = loc_pos_xy_mm st ∧
    loc_theta_arm hw = loc_theta_arm st ∧
    loc_theta_min hw = loc_theta_min st ∧
    loc_theta_max hw = loc_theta_max st ∧
    (∀ k, has_location st k → has_location hw k).
Proof.
  unfold Hardware_new. intros H.
  destruct (Int32.add (maxpetal_of (arg_petal a)) 1) as [n|] eqn:Hn;
    simpl in H; [|discriminate].
  apply Int32_add_Some in Hn as [-> _].
  destruct (mapM (read_row a) (seq 0 (length (arg_location a))))
    as [rows|] eqn:Hrows; simpl in H; [|discriminate].
  exists rows. split; [reflexivity|].
  pose proof (fold_rows_locations rows
                (Hardware_cleared a (maxpetal_of (arg_petal a) + 1)))
    as Hlocs.
  rewrite (read_rows_locations a rows Hrows) in Hlocs. simpl in Hlocs.
  rewrite Hlocs in H.
  destruct (rotate_excl_all _ _ _) as [excl|]; simpl in H; [|discriminate].
  injection H as <-. simpl. do 7 (split; [reflexivity|]).
  intros k Hk. exact Hk.
Qed.

(** What makes the constructor fail is one of its two sums overflowing. *)
Lemma Hardware_new_sums (a : HardwareArgs) (hw : Hardware) :
  Hardware_new a = Some hw →
  (maxpetal_of (arg_petal a) + 1 ≤ Int32.max)%Z.
Proof.
  unfold Hardware_new. intros H.
  destruct (Int32.add (maxpetal_of (arg_petal a)) 1) as [n|] eqn:Hn;
    simpl in H; [|discriminate].
  apply Int32_add_Some in Hn as [_ Hn]. lia.
Qed.

(** The constructor leaves the tables of the main loop as they are. *)
Lemma Hardware_new_row_stored (a : HardwareArgs) (hw : Hardware) :
  Hardware_new a = Some hw →
  ∃ rows : list HardwareRow,
    mapM (read_row a) (seq 0 (length (arg_location a))) = Some rows ∧
    ∀ r : HardwareRow,
      row_stored (fold_left Hardware_row rows
                    (Hardware_cleared a (maxpetal_of (arg_petal a) + 1))) r →
      row_stored hw r.
Proof.
  unfold Hardware_new. intros H.
  destruct (Int32.add (maxpetal_of (arg_petal a)) 1) as [n|] eqn:Hn;
    simpl in H; [|discriminate].
  apply Int32_add_Some in Hn as [-> _].
  destruct (mapM (read_row a) (seq 0 (length (arg_location a))))
    as [rows|] eqn:Hrows; simpl in H; [|discriminate].
  exists rows. split; [reflexivity|].
  destruct (rotate_excl_all _ _ _) as [excl|]; simpl in H; [|discriminate].
  injection H as <-. intros r Hr. exact Hr.
Qed.

Lemma Hardware_new_Some (a : HardwareArgs) :
  args_aligned a → petals_in_range a → is_Some (Hardware_new a).
Proof.
  intros Hal Hpt. unfold Hardware_new.
  rewrite Int32_add_in_range by (apply maxpetal_of_in_range, Hpt). simpl.
  destruct (read_rows_Some a Hal) as [rows Hrows]. rewrite Hrows. simpl.
  pose proof (fold_rows_locations rows
                (Hardware_cleared a (maxpetal_of (arg_petal a) + 1)))
    as Hlocs.
  rewrite (read_rows_locations a rows Hrows) in Hlocs. simpl in Hlocs.
  rewrite Hlocs.
  set (st := fold_left Hardware_row rows
                (Hardware_cleared a (maxpetal_of (arg_petal a) + 1))) in *.
  destruct (rotate_excl_all_Some (loc_petal st)
              (stable_sort (arg_location a))
              (loc_gfa_excl st, loc_petal_excl st))
    as [excl Hexcl].
  { intros k Hk. simpl.
    unfold stable_sort in Hk. rewrite merge_sort_Permutation in Hk.
    rewrite <- (read_rows_locations a rows Hrows) in Hk.
    apply (fold_rows_tables rows
             (Hardware_cleared a (maxpetal_of (arg_petal a) + 1))) in Hk.
    tauto. }
  { intros k _.
    destruct (loc_petal _ !! k) as [p|] eqn:Hp; simpl;
      [|unfold Int32.min, Int32.max; lia].
    apply fold_rows_petals in Hp as [Hp|Hp]; [discriminate|].
    apply list_elem_of_fmap in Hp as (r & -> & Hr).
    apply list_elem_of_lookup in Hr as [i Hr].
    destruct (read_rows_lookup a rows Hrows) as [_ Hread].
    apply Hread, read_row_petal, list_elem_of_lookup_2 in Hr.
    unfold petals_in_range in Hpt. rewrite Forall_forall in Hpt.
    specialize (Hpt _ Hr). unfold Int32.min, Int32.max in *. lia. }
  rewrite Hexcl. simpl. eauto.
Qed.

End ConstructorFacts.

Section ConstructedNeighbors.

(** The neighbor lists of a constructed hardware: the edges of the scan
    over the sorted ids, and nothing else. *)
Lemma constructed_neighbors_spec (a : HardwareArgs) (hw : Hardware) :
  Hardware_new a = Some hw →
  ∀ x y : Z, x ∈ arg_location a →
    is_Some (neighbors hw !! x) ∧ is_Some (loc_pos_xy_mm hw !! x) ∧
    (y ∈ neighbors_at (neighbors hw) x
     ↔ ∃ (before : list Z) (p : Z) (later : list Z) (q : Z),
         stable_sort (arg_location a) = before ++ p :: later ∧ q ∈ later ∧
         dist (center_at (loc_pos_xy_mm hw) p)
              (center_at (loc_pos_xy_mm hw) q) <= 14.05 ∧
         ((x = p ∧ y = q) ∨ (x = q ∧ y = p))).
Proof.
  intros Hnew x y Hx.
  destruct (Hardware_new_inv a hw Hnew)
    as (rows & Hrows & _ & _ & Hnb & Hpos & _ & _ & _ & _).
  rewrite <- (read_rows_locations a rows Hrows) in Hx.
  destruct (fold_rows_tables rows
              (Hardware_cleared a (maxpetal_of (arg_petal a) + 1)) x Hx)
    as (Hhas & Hempty & _).
  rewrite Hnb, Hpos. split; [|split].
  - apply compute_neighbors_is_Some. rewrite Hempty. eauto.
  - apply Hhas.
  - rewrite compute_neighbors_spec.
    unfold neighbors_at at 1. rewrite Hempty. simpl. split.
    + intros [Hnil|H]; [|exact H]. apply elem_of_nil in Hnil. contradiction.
    + intros H. right. exact H.
Qed.

(** Of two different members of a list one comes first. *)
Lemma two_members_split (l : list Z) (x y : Z) :
  x ∈ l → y ∈ l → x ≠ y →
  (∃ before later, l = before ++ x :: later ∧ y ∈ later) ∨
  (∃ before later, l = before ++ y :: later ∧ x ∈ later).
Proof.
  intros Hx Hy Hne.
  apply list_elem_of_split in Hx as (l1 & l2 & ->).
  apply elem_of_app in Hy as [Hy|Hy].
  - right. apply list_elem_of_split in Hy as (k1 & k2 & ->).
    exists k1, (k2 ++ x :: l2). split.
    + by rewrite <- app_assoc.
    + apply elem_of_app. right. apply list_elem_of_here.
  - apply elem_of_cons in Hy as [->|Hy]; [contradiction|].
    left. exists l1, l2. auto.
Qed.

(** A constructed hardware has every id it was given. *)
Lemma Hardware_new_has_locations (a : HardwareArgs) :
  args_aligned a → petals_in_range a →
  ∃ hw : Hardware,
    Hardware_new a = Some hw ∧
    ∀ lid : Z, lid ∈ arg_location a → has_location hw lid.
Proof.
  intros Hal Hpt. destruct (Hardware_new_Some a Hal Hpt) as [hw Hnew].
  exists hw. split; [exact Hnew|].
  destruct (Hardware_new_inv a hw Hnew)
    as (rows & Hrows & _ & _ & _ & _ & _ & _ & _ & Hhas).
  intros lid Hlid. apply Hhas.
  rewrite <- (read_rows_locations a rows Hrows) in Hlid.
  apply (fold_rows_tables rows
           (Hardware_cleared a (maxpetal_of (arg_petal a) + 1)) lid Hlid).
Qed.

End ConstructedNeighbors.

Section ConstructedCenters.

(** The center a constructed hardware holds for an id: that of the last
    row that names it. *)
Lemma constructed_center (a : HardwareArgs) (hw : Hardware)
    (i : nat) (lid : Z) (x y : R) :
  Hardware_new a = Some hw →
  arg_location a !! i = Some lid →
  (∀ j : nat, arg_location a !! j = Some lid → (j ≤ i)%nat) →
  arg_x_mm a !! i = Some x → arg_y_mm a !! i = Some y →
  loc_pos_xy_mm hw !! lid = Some (x, y).
Proof.
  intros Hnew Hi Hlast Hx Hy.
  destruct (Hardware_new_inv a hw Hnew)
    as (rows & Hrows & _ & _ & _ & Hpos & _).
  destruct (read_rows_lookup a rows Hrows) as [Hlen Hread].
  destruct (lookup_lt_is_Some_2 rows i) as [r Hr].
  { rewrite Hlen. eapply lookup_lt_Some; eassumption. }
  pose proof (read_row_fields a i r (Hread i r Hr)) as (Hl & Hx' & Hy' & _).
  assert (row_location r = lid) as Hrl by congruence.
  assert (row_x_mm r = x) as <- by congruence.
  assert (row_y_mm r = y) as <- by congruence.
  destruct (fold_rows_last rows
              (Hardware_cleared a (maxpetal_of (arg_petal a) + 1)) i r Hr)
    as (Ep & _).
  { intros j r' Hj Heq. apply Hlast.
    pose proof (read_row_fields a j r' (Hread j r' Hj)) as (Hl' & _).
    congruence. }
  rewrite Hpos, <- Hrl. exact Ep.
Qed.

End ConstructedCenters.

(** C2, as the code has it.  The constructor checks nothing: for every
    argument list whose per-location vectors are as long as [location], and
    whose petal indices are [int32_t] values of at most [INT32_MAX - 7] (so
    that the sums [maxpetal + 1] and [7 + pt] are defined), it succeeds,
    whatever the ids, petals, arm lengths and angle ranges are.  Every id
    given is a location of the result, and what every table filled by the
    main loop stores for an id is the value of the last row that names it,
    the angles converted from degrees to radians. *)
Theorem Hardware_new_accepts_aligned_input :
  ∀ a : HardwareArgs,
    args_aligned a →
    petals_in_range a →
    ∃ hw : Hardware,
      Hardware_new a = Some hw ∧
      locations hw = stable_sort (arg_location a) ∧
      (∀ lid : Z, lid ∈ arg_location a → has_location hw lid) ∧
      (∀ (i : nat) (r : HardwareRow),
         read_row a i = Some r →
         (∀ j : nat,
            arg_location a !! j = Some (row_location r) → (j ≤ i)%nat) →
         row_stored hw r) ∧
      (∀ (i : nat) (lid : Z) (arm tmin tmax : R),
         arg_location a !! i = Some lid →
         (∀ j : nat, arg_location a !! j = Some lid → (j ≤ i)%nat) →
         arg_theta_arm a !! i = Some arm →
         arg_theta_min a !! i = Some tmin →
         arg_theta_max a !! i = Some tmax →
         loc_theta_arm hw !! lid = Some arm ∧
         loc_theta_min hw !! lid = Some (tmin * PI / 180) ∧
         loc_theta_max hw !! lid = Some (tmax * PI / 180)).
Proof.
  intros a Hal Hpt.
  destruct (Hardware_new_Some a Hal Hpt) as [hw Hnew].
  exists hw. split; [exact Hnew|].
  destruct (Hardware_new_inv a hw Hnew)
    as (rows & Hrows & Hlocs & _ & _ & _ & _ & _ & _ & Hhas).
  destruct (Hardware_new_row_stored a hw Hnew) as (rows' & Hrows' & Hkeep).
  assert (rows' = rows) as -> by congruence. clear Hrows'.
  destruct (read_rows_lookup a rows Hrows) as [Hlen Hread].
  assert (Hrow : ∀ (i : nat) (r : HardwareRow),
            read_row a i = Some r →
            (∀ j : nat,
               arg_location a !! j = Some (row_location r) → (j ≤ i)%nat) →
            row_stored hw r).
  { intros i r Hr Hlast.
    pose proof (read_row_fields a i r Hr) as (Hl & _).
    destruct (lookup_lt_is_Some_2 rows i) as [r0 Hr0].
    { rewrite Hlen. eapply lookup_lt_Some; eassumption. }
    assert (r0 = r) as -> by (apply Hread in Hr0; congruence).
    apply Hkeep, (fold_rows_last_row rows _ i r Hr0).
    intros j r' Hj Heq. apply Hlast.
    pose proof (read_row_fields a j r' (Hread j r' Hj)) as (Hl' & _).
    congruence. }
  split; [exact Hlocs|]. split; [|split; [exact Hrow|]].
  - intros lid Hlid. apply Hhas.
    rewrite <- (read_rows_locations a rows Hrows) in Hlid.
    apply (fold_rows_tables rows _ lid Hlid).
  - intros i lid arm tmin tmax Hi Hlast Ha Hmn Hmx.
    destruct (lookup_lt_is_Some_2 rows i) as [r Hr].
    { rewrite Hlen. eapply lookup_lt_Some; eassumption. }
    pose proof (read_row_fields a i r (Hread i r Hr))
      as (Hl & _ & _ & Ha' & Hmn' & Hmx').
    assert (row_location r = lid) as Hrl by congruence.
    assert (row_theta_arm r = arm) as <- by congruence.
    assert (row_theta_min r = tmin) as <- by congruence.
    assert (row_theta_max r = tmax) as <- by congruence.
    assert (row_stored hw r) as Hst.
    { apply (Hrow i r (Hread i r Hr)). rewrite Hrl. exact Hlast. }
    unfold row_stored in Hst. cbv zeta in Hst. rewrite Hrl in Hst.
    destruct_and!. auto.
Qed.

Lemma args_pair_aligned : args_aligned args_pair.
Proof. unfold args_aligned. simpl. repeat split; reflexivity. Qed.

Lemma args_invalid_aligned : args_aligned args_invalid.
Proof. unfold args_aligned. simpl. repeat split; reflexivity. Qed.

Lemma args_duplicate_aligned : args_aligned args_duplicate.
Proof. unfold args_aligned. simpl. repeat split; reflexivity. Qed.

Lemma args_pair_petals : petals_in_range args_pair.
Proof.
  unfold petals_in_range, Int32.min, Int32.max. simpl.
  repeat constructor; lia.
Qed.

Lemma args_invalid_petals : petals_in_range args_invalid.
Proof.
  unfold petals_in_range, Int32.min, Int32.max. simpl.
  repeat constructor; lia.
Qed.

Lemma args_duplicate_petals : petals_in_range args_duplicate.
Proof.
  unfold petals_in_range, Int32.min, Int32.max. simpl.
  repeat constructor; lia.
Qed.

(** The two positioners of [args_pair] are accepted, and the theta range of
    the first is stored in radians. *)
Lemma Hardware_new_accepts_aligned_input_witness :
  ∃ hw : Hardware,
    Hardware_new args_pair = Some hw ∧ has_location hw 1 ∧ has_location hw 2 ∧
    (∀ r : HardwareRow, read_row args_pair 0 = Some r → row_stored hw r).
Proof.
  destruct (Hardware_new_accepts_aligned_input args_pair args_pair_aligned
              args_pair_petals)
    as (hw & Hnew & _ & Hhas & Hrow & _).
  exists hw. split; [exact Hnew|].
  split; [|split].
  - apply Hhas. simpl. apply list_elem_of_here.
  - apply Hhas. simpl. apply list_elem_of_further, list_elem_of_here.
  - intros r Hr. apply (Hrow 0%nat r Hr).
    injection Hr as <-. simpl. intros [|[|j]] Hj; [lia | discriminate Hj |].
    discriminate Hj.
Defined.

(** C2 as stated fails: arguments with a repeated location id, a negative
    petal index, a negative arm length and a theta range with its minimum
    above its maximum are constructed without error. *)
Lemma Hardware_new_accepts_invalid_input :
  ¬ NoDup (arg_location args_invalid) ∧
  (-1)%Z ∈ arg_petal args_invalid ∧
  (arg_theta_arm args_invalid !! 0%nat = Some (-3) ∧ -3 < 0) ∧
  (arg_theta_min args_invalid !! 0%nat = Some 10 ∧
   arg_theta_max args_invalid !! 0%nat = Some (-10) ∧ ¬ 10 < -10) ∧
  Hardware_new args_invalid ≠ None.
Proof.
  split; [|split; [|split; [|split]]].
  - simpl. intros Hnd. apply NoDup_cons in Hnd as [Hnin _].
    apply Hnin, list_elem_of_here.
  - simpl. apply list_elem_of_further, list_elem_of_here.
  - split; [reflexivity | lra].
  - split; [reflexivity|]. split; [reflexivity | lra].
  - destruct (Hardware_new_Some args_invalid args_invalid_aligned
                 args_invalid_petals) as [hw ->].
    discriminate.
Qed.

(** C5, for pairwise distinct location ids.  In a hardware constructed from
    them every location has a neighbor list and a center; for locations
    [la] and [lb], [lb] is a neighbor of [la] iff [la] is one of [lb]; for
    [la ≠ lb] that is the case exactly when their centers are at most
    14.05 mm apart; no location is its own neighbor; and every neighbor is
    a location. *)
Theorem neighbors_symmetric_irreflexive :
  ∀ (a : HardwareArgs) (hw : Hardware),
    Hardware_new a = Some hw →
    NoDup (arg_location a) →
    neighbor_radius_mm hw = 14.05 ∧
    ∀ la lb : Z, la ∈ arg_location a → lb ∈ arg_location a →
      ∃ (na nb : list Z) (ca cb : dpair),
        neighbors hw !! la = Some na ∧ neighbors hw !! lb = Some nb ∧
        loc_pos_xy_mm hw !! la = Some ca ∧
        loc_pos_xy_mm hw !! lb = Some cb ∧
        (lb ∈ na ↔ la ∈ nb) ∧
        (la ≠ lb → (lb ∈ na ↔ dist ca cb <= 14.05)) ∧
        (la ∉ na) ∧
        (∀ k : Z, k ∈ na → k ∈ arg_location a) ∧
        (∀ (i : nat) (x y : R),
           arg_location a !! i = Some la →
           arg_x_mm a !! i = Some x → arg_y_mm a !! i = Some y →
           ca = (x, y)).
Proof.
  intros a hw Hnew Hnd.
  split.
  { destruct (Hardware_new_inv a hw Hnew) as (rows & _ & _ & Hrad & _).
    exact Hrad. }
  intros la lb Hla Hlb.
  assert (Hsorted : stable_sort (arg_location a) ≡ₚ arg_location a)
    by apply merge_sort_Permutation.
  assert (Hnd' : NoDup (stable_sort (arg_location a)))
    by (rewrite Hsorted; exact Hnd).
  pose proof (constructed_neighbors_spec a hw Hnew) as Hspec.
  destruct (Hspec la lb Hla) as ([na Hna] & [ca Hca] & Hab).
  destruct (Hspec lb la Hlb) as ([nb Hnb] & [cb Hcb] & Hba).
  assert (Hna' : neighbors_at (neighbors hw) la = na)
    by (unfold neighbors_at; rewrite Hna; reflexivity).
  assert (Hnb' : neighbors_at (neighbors hw) lb = nb)
    by (unfold neighbors_at; rewrite Hnb; reflexivity).
  assert (Hca' : center_at (loc_pos_xy_mm hw) la = ca)
    by (unfold center_at, dpair in *; rewrite Hca; reflexivity).
  assert (Hcb' : center_at (loc_pos_xy_mm hw) lb = cb)
    by (unfold center_at, dpair in *; rewrite Hcb; reflexivity).
  rewrite Hna' in Hab. rewrite Hnb' in Hba.
  exists na, nb, ca, cb.
  do 4 (split; [assumption|]).
  split; [|split; [|split; [|split]]].
  - rewrite Hab, Hba. split.
    + intros (before & p & later & q & Heq & Hq & Hd & Hpq).
      exists before, p, later, q. intuition.
    + intros (before & p & later & q & Heq & Hq & Hd & Hpq).
      exists before, p, later, q. intuition.
  - intros Hne. rewrite Hab. split.
    + intros (before & p & later & q & Heq & Hq & Hd & [[-> ->]|[-> ->]]).
      * rewrite Hca', Hcb' in Hd. exact Hd.
      * rewrite Hca', Hcb' in Hd. rewrite dist_sym. exact Hd.
    + intros Hd.
      destruct (two_members_split (stable_sort (arg_location a)) la lb)
        as [(before & later & Heq & Hin)|(before & later & Heq & Hin)].
      * rewrite Hsorted. exact Hla.
      * rewrite Hsorted. exact Hlb.
      * exact Hne.
      * exists before, la, later, lb.
        rewrite Hca', Hcb'. auto 6.
      * exists before, lb, later, la.
        rewrite Hca', Hcb', dist_sym. auto 6.
  - intros Hself.
    destruct (Hspec la la Hla) as (_ & _ & Haa).
    rewrite Hna' in Haa. apply Haa in Hself.
    destruct Hself as (before & p & later & q & Heq & Hq & _ & Hpq).
    assert (p = q) as -> by (destruct Hpq as [[<- <-]|[<- <-]]; reflexivity).
    rewrite Heq in Hnd'. apply NoDup_app in Hnd' as (_ & _ & Hnd').
    apply NoDup_cons in Hnd' as [Hnin _]. contradiction.
  - intros k Hk.
    destruct (Hspec la k Hla) as (_ & _ & Hak).
    rewrite Hna' in Hak. apply Hak in Hk.
    destruct Hk as (before & p & later & q & Heq & Hq & _ & Hpq).
    rewrite <- Hsorted, Heq.
    destruct Hpq as [[_ ->]|[_ ->]].
    + apply elem_of_app. right. by apply list_elem_of_further.
    + apply elem_of_app. right. apply list_elem_of_here.
  - intros i x y Hi Hx Hy.
    assert (loc_pos_xy_mm hw !! la = Some (x, y)) as Hc.
    { apply (constructed_center a hw i la x y Hnew Hi); [|exact Hx|exact Hy].
      intros j Hj. rewrite (NoDup_lookup _ _ _ _ Hnd Hj Hi). lia. }
    unfold dpair in *. congruence.
Qed.

(** The two positioners of [args_pair]. *)
Lemma neighbors_symmetric_irreflexive_witness :
  ∃ hw : Hardware,
    Hardware_new args_pair = Some hw ∧
    ∃ (na nb : list Z),
      neighbors hw !! 1%Z = Some na ∧ neighbors hw !! 2%Z = Some nb ∧
      (2%Z ∈ na ↔ 1%Z ∈ nb) ∧ (1%Z ∉ na).
Proof.
  destruct (Hardware_new_Some args_pair args_pair_aligned
              args_pair_petals) as [hw Hnew].
  exists hw. split; [exact Hnew|].
  assert (Hnd : NoDup (arg_location args_pair)).
  { simpl. apply NoDup_cons. split.
    - intros H. apply list_elem_of_singleton in H. discriminate.
    - apply NoDup_singleton. }
  destruct (proj2 (neighbors_symmetric_irreflexive args_pair hw Hnew Hnd)
              1%Z 2%Z)
    as (na & nb & ca & cb & Hna & Hnb & _ & _ & Hsym & _ & Hirr & _).
  - simpl. apply list_elem_of_here.
  - simpl. apply list_elem_of_further, list_elem_of_here.
  - exists na, nb. auto.
Defined.

(** C5 as stated fails on a hardware built from a repeated location id:
    the id 5, given twice, becomes its own neighbor. *)
Lemma neighbors_reflexive_on_duplicate_id :
  match Hardware_new args_duplicate with
  | Some hw => 5%Z ∈ neighbors_at (neighbors hw) 5%Z
  | None => False
  end.
Proof.
  destruct (Hardware_new_Some args_duplicate args_duplicate_aligned
              args_duplicate_petals)
    as [hw Hnew].
  rewrite Hnew.
  destruct (constructed_neighbors_spec args_duplicate hw Hnew 5%Z 5%Z)
    as (_ & _ & Hiff).
  { simpl. apply list_elem_of_here. }
  apply Hiff. exists [], 5%Z, [5%Z], 5%Z.
  split; [reflexivity|]. split; [apply list_elem_of_here|].
  split; [|auto].
  rewrite dist_self. lra.
Qed.

(** ** Radial distortion and its inversion *)


Section RadialFacts.

Lemma Rabs_le_between (a b : R) : Rabs a <= b → - b <= a <= b.
Proof. unfold Rabs. destruct (Rcase_abs a); lra. Qed.

Lemma radial_ang2dist_poly (x : R) :
  radial_ang2dist x = 8.297e5 * x * x * x - 1750 * x * x + 1.394e4 * x.
Proof. unfold radial_ang2dist. simpl. ring. Qed.

Lemma radial_ang2dist_chord (x t : R) :
  radial_ang2dist x - radial_ang2dist t = (x - t) * slope_chord x t.
Proof. rewrite !radial_ang2dist_poly. unfold slope_chord. ring. Qed.

Lemma radial_ang2dist_fd (x : R) :
  1 / 1e-4 * (radial_ang2dist (x + 1e-4) - radial_ang2dist x) = slope_fd x.
Proof. rewrite !radial_ang2dist_poly. unfold slope_fd. field. Qed.

Lemma slope_fd_lower (x : R) : 13938 <= slope_fd x.
Proof.
  unfold slope_fd. pose proof (Rle_0_sqr (x - 6.5e-4)) as H.
  unfold Rsqr in H. nra.
Qed.

Lemma slope_chord_lower (x t : R) : 13938 <= slope_chord x t.
Proof.
  unfold slope_chord.
  pose proof (Rle_0_sqr (x + t - 1.4e-3)) as H1.
  pose proof (Rle_0_sqr (x - t)) as H2. unfold Rsqr in *. nra.
Qed.

Lemma slope_fd_le_4_chord (x t : R) :
  0 <= t → -0.05 <= x → slope_fd x <= 4 * slope_chord x t.
Proof.
  intros Ht Hx. unfold slope_fd, slope_chord.
  pose proof (Rle_0_sqr (x + 2 * t - 2.1e-3)) as H. unfold Rsqr in H.
  destruct (Rle_dec x 100); nra.
Qed.

Lemma slope_chord_le_fd (x t : R) :
  0 <= t → t <= x → 0.0011 <= x → slope_chord x t <= slope_fd x.
Proof. intros. unfold slope_fd, slope_chord. nra. Qed.

Lemma slope_4_chord_le_7_fd (x t : R) :
  0 <= t <= 0.05 → -0.05 <= x - t <= 0.05 →
  4 * slope_chord x t <= 7 * slope_fd x.
Proof. intros. unfold slope_fd, slope_chord. nra. Qed.


Lemma slope_chord_upper (x t B : R) :
  0 <= t <= B → - B <= x <= B →
  slope_chord x t <= 8.297e5 * 3 * B * B + 3500 * B + 1.394e4.
Proof.
  intros. unfold slope_chord.
  assert (x * x <= B * B) by nra.
  assert (x * t <= B * B) by nra.
  assert (t * t <= B * B) by nra.
  nra.
Qed.

(** One turn of the body on the distance of [t]: the error it records and
    where it moves the iterate. *)
Lemma radial_dist2ang_body_spec (t x : R) :
  let r := radial_dist2ang_body (radial_ang2dist t) x in
  r.2 = (x - t) * slope_chord x t ∧
  r.1 - t = (x - t) * ((slope_fd x - slope_chord x t) / slope_fd x).
Proof.
  unfold radial_dist2ang_body. cbv zeta. simpl fst. simpl snd.
  rewrite radial_ang2dist_fd, radial_ang2dist_chord.
  pose proof (slope_fd_lower x) as HG.
  split; [reflexivity|]. field. lra.
Qed.

(** A good iterate stays good and comes closer by a quarter at least. *)
Lemma newton_good_step (t x : R) :
  0 <= t → newton_good t x →
  let x' := (radial_dist2ang_body (radial_ang2dist t) x).1 in
  newton_good t x' ∧ Rabs (x' - t) <= 3 / 4 * Rabs (x - t).
Proof.
  intros Ht Hgood x'.
  destruct (radial_dist2ang_body_spec t x) as [_ Hstep].
  fold x' in Hstep.
  pose proof (slope_fd_lower x) as HG.
  set (rho := (slope_fd x - slope_chord x t) / slope_fd x) in *.
  assert (Hrho : rho * slope_fd x = slope_fd x - slope_chord x t).
  { unfold rho. field. lra. }
  assert (Hnear : Rabs (x - t) <= 0.05 ∧ t <= 0.05 →
                  newton_good t x' ∧ Rabs (x' - t) <= 3 / 4 * Rabs (x - t)).
  { intros [Hx Ht'].
    assert (-0.05 <= x - t <= 0.05) as Hxt.
    { apply Rabs_le_between in Hx. lra. }
    pose proof (slope_fd_le_4_chord x t Ht ltac:(lra)) as Hup.
    pose proof (slope_4_chord_le_7_fd x t ltac:(lra) Hxt) as Hlo.
    assert (Rabs rho <= 3 / 4) as Hr by (apply Rabs_le; nra).
    assert (Rabs (x' - t) <= 3 / 4 * Rabs (x - t)) as Hc.
    { rewrite Hstep, Rabs_mult. pose proof (Rabs_pos (x - t)). nra. }
    split; [|exact Hc]. right. split; [lra|exact Ht']. }
  destruct Hgood as [Hright|Hnear']; [|auto].
  destruct (Rle_dec 0.0011 x) as [Hbig|Hsmall].
  - pose proof (slope_fd_le_4_chord x t Ht ltac:(lra)) as Hup.
    pose proof (slope_chord_le_fd x t Ht Hright Hbig) as Hlo.
    assert (0 <= rho <= 3 / 4) as Hr by nra.
    assert (0 <= x' - t <= 3 / 4 * (x - t)) as Hc by (rewrite Hstep; nra).
    split; [left; lra|].
    rewrite !Rabs_right by lra. lra.
  - apply Hnear. split; [|lra]. apply Rabs_le. lra.
Qed.

(** The test of the loop: the integer that [::abs] makes of the error
    exceeds [1e-7] exactly when the error is 1 or more in absolute value. *)
Lemma abs_test (err : R) : IZR (Libm.abs err) > 1e-7 ↔ 1 <= Rabs err.
Proof.
  assert (Hint : ∀ e : R, 0 <= e →
            (0 <= Int_part e)%Z ∧ (IZR (Int_part e) > 1e-7 ↔ 1 <= e)).
  { intros e He. destruct (base_Int_part e) as [Hlo Hhi].
    set (n := Int_part e) in *.
    assert (-1 < n)%Z as Hn by (apply lt_IZR; lra).
    split; [lia|]. split.
    - intros Hbig. assert (0 < n)%Z as Hpos by (apply lt_IZR; lra).
      assert (1 <= n)%Z as H1 by lia. apply IZR_le in H1. lra.
    - intros H1. assert (0 < n)%Z as Hpos by (apply lt_IZR; lra).
      assert (1 <= n)%Z as H1' by lia. apply IZR_le in H1'. lra. }
  unfold Libm.abs, Libm.trunc.
  destruct (Rle_dec 0 err) as [He|He].
  - destruct (Hint err He) as [Hn Hiff].
    rewrite Z.abs_eq, (Rabs_right err) by (lia || lra). exact Hiff.
  - destruct (Hint (- err) ltac:(lra)) as [Hn Hiff].
    rewrite Z.abs_opp, Z.abs_eq, (Rabs_left err) by (lia || lra). exact Hiff.
Qed.

Lemma radial_dist2ang_loop_stop (fuel : nat) (d x err : R) :
  Rabs err < 1 → radial_dist2ang_loop fuel d x err = Some x.
Proof.
  intros H. pose proof (abs_test err) as Ht.
  destruct fuel; simpl; destruct (Rgt_dec (IZR (Libm.abs err)) 1e-7);
    solve [apply Ht in r; lra | apply Ht in r0; lra | reflexivity].
Qed.

Lemma radial_dist2ang_loop_turn (fuel : nat) (d x err : R) :
  1 <= Rabs err →
  radial_dist2ang_loop (S fuel) d x err
  = radial_dist2ang_loop fuel d (radial_dist2ang_body d x).1
                         (radial_dist2ang_body d x).2.
Proof.
  intros H. apply abs_test in H. simpl.
  destruct (Rgt_dec (IZR (Libm.abs err)) 1e-7); [|lra].
  destruct (radial_dist2ang_body d x). reflexivity.
Qed.

Lemma radial_dist2ang_loop_out (d x err : R) :
  1 <= Rabs err → radial_dist2ang_loop 0 d x err = None.
Proof.
  intros H. apply abs_test in H. simpl.
  destruct (Rgt_dec (IZR (Libm.abs err)) 1e-7); [reflexivity|lra].
Qed.

(** The loop from a good iterate [x] at most [E] from the root, with [M] a
    bound of the chord slopes there: once [|x - t| M] is below
    [(1/2) (4/3)^n], [n + 2] turns are enough. *)
Lemma radial_dist2ang_loop_good (t E M : R) :
  0 <= t →
  (∀ y : R, Rabs (y - t) <= E → slope_chord y t <= M) →
  ∀ (n fuel : nat) (x err : R),
    newton_good t x → Rabs (x - t) <= E →
    Rabs (x - t) * M <= 1 / 2 * (4 / 3) ^ n →
    (Rabs err < 1 → newton_exit t x) →
    (n + 2 ≤ fuel)%nat →
    ∃ r : R,
      radial_dist2ang_loop fuel (radial_ang2dist t) x err = Some r ∧
      newton_exit t r.
Proof.
  intros Ht HM.
  assert (Hturn : ∀ x : R, newton_good t x → Rabs (x - t) <= E →
            let r := radial_dist2ang_body (radial_ang2dist t) x in
            newton_good t r.1 ∧ Rabs (r.1 - t) <= 3 / 4 * Rabs (x - t) ∧
            Rabs r.2 <= Rabs (x - t) * M ∧
            (Rabs r.2 < 1 → newton_exit t r.1)).
  { intros x Hgood HE r.
    destruct (newton_good_step t x Ht Hgood) as [Hg' Hc].
    destruct (radial_dist2ang_body_spec t x) as [Herr _].
    fold r in Hg', Hc, Herr.
    split; [exact Hg'|]. split; [exact Hc|].
    pose proof (slope_chord_lower x t) as Hlo.
    pose proof (HM x HE) as Hup.
    pose proof (Rabs_pos (x - t)) as Hpos.
    split.
    - rewrite Herr, Rabs_mult, (Rabs_right (slope_chord x t)) by lra. nra.
    - intros Hsmall. exists x. split; [exact Hgood|]. split; [|reflexivity].
      rewrite radial_ang2dist_chord, <- Herr. exact Hsmall. }
  induction n as [|n IH]; intros fuel x err Hgood HE Hpow Hexit Hfuel.
  - destruct (Rlt_dec (Rabs err) 1) as [Hsmall|Hbig].
    { exists x. rewrite radial_dist2ang_loop_stop by lra.
      split; [reflexivity | apply Hexit; lra]. }
    destruct fuel as [|fuel]; [lia|].
    rewrite radial_dist2ang_loop_turn by lra.
    destruct (Hturn x Hgood HE) as (Hg' & Hc & Herr & Hex).
    simpl in Hpow.
    rewrite radial_dist2ang_loop_stop by lra.
    eexists. split; [reflexivity|]. apply Hex. lra.
  - destruct (Rlt_dec (Rabs err) 1) as [Hsmall|Hbig].
    { exists x. rewrite radial_dist2ang_loop_stop by lra.
      split; [reflexivity | apply Hexit; lra]. }
    destruct fuel as [|fuel]; [lia|].
    rewrite radial_dist2ang_loop_turn by lra.
    destruct (Hturn x Hgood HE) as (Hg' & Hc & Herr & Hex).
    apply IH; [exact Hg' | | | exact Hex | lia].
    + pose proof (Rabs_pos (x - t)). lra.
    + assert (0 <= M) as HM0.
      { pose proof (slope_chord_lower x t). pose proof (HM x HE). lra. }
      simpl in Hpow. nra.
Qed.


End RadialFacts.

Section RadialInversion.

(** More fuel does not change what the loop returns. *)
Lemma radial_dist2ang_loop_mono (fuel : nat) :
  ∀ (fuel' : nat) (d x err r : R),
    radial_dist2ang_loop fuel d x err = Some r → (fuel ≤ fuel')%nat →
    radial_dist2ang_loop fuel' d x err = Some r.
Proof.
  induction fuel as [|fuel IH]; intros fuel' d x err r Hr Hle.
  - destruct (Rlt_dec (Rabs err) 1) as [Hsmall|Hbig].
    + rewrite radial_dist2ang_loop_stop in Hr |- * by lra. exact Hr.
    + rewrite radial_dist2ang_loop_out in Hr by lra. discriminate.
  - destruct (Rlt_dec (Rabs err) 1) as [Hsmall|Hbig].
    + rewrite radial_dist2ang_loop_stop in Hr |- * by lra. exact Hr.
    + destruct fuel' as [|fuel']; [lia|].
      rewrite radial_dist2ang_loop_turn in Hr |- * by lra.
      apply IH; [exact Hr | lia].
Qed.

Lemma PI_le_7_2 : PI <= 7 / 2.
Proof. pose proof pi2_int as [_ H]. unfold PI. lra. Qed.

(** The difference of the two slopes, written out. *)
Lemma slope_fd_minus_chord (x t : R) :
  slope_fd x - slope_chord x t
  = 8.297e5 * ((x - t) * (2 * x + t) + 3 * x * 1e-4 + 1e-4 * 1e-4)
    - 1750 * (x - t + 1e-4).
Proof. unfold slope_fd, slope_chord. ring. Qed.

(** Where the loop leaves, the iterate before the last turn is less than
    [1 / 13938] from the root. *)
Lemma newton_exit_before (t x : R) :
  Rabs (radial_ang2dist x - radial_ang2dist t) < 1 →
  Rabs (x - t) < / 13938.
Proof.
  intros H. rewrite radial_ang2dist_chord, Rabs_mult in H.
  pose proof (slope_chord_lower x t) as HS.
  rewrite (Rabs_right (slope_chord x t)) in H by lra.
  pose proof (Rabs_pos (x - t)) as Hx0.
  apply (Rmult_lt_reg_r 13938); [lra|].
  rewrite Rinv_l by lra. nra.
Qed.

(** The angle returned is within [5.4e-5] rad of the root, whatever the
    root. *)
Lemma newton_exit_near (t r : R) :
  0 <= t → newton_exit t r → Rabs (r - t) < 5.4e-5.
Proof.
  intros Ht (x & Hgood & Hdist & ->).
  destruct (newton_good_step t x Ht Hgood) as [_ Hc].
  pose proof (newton_exit_before t x Hdist) as Hx.
  assert (/ 13938 < 7.2e-5) as Hinv.
  { apply (Rmult_lt_reg_r 13938); [lra|]. rewrite Rinv_l by lra. lra. }
  cbv zeta in Hc. lra.
Qed.

(** For a root of at most two degrees the angle returned is within [1e-7]
    rad of it, and its distance within [2e-3] mm of the distance asked
    for. *)
Lemma newton_exit_accurate (t r : R) :
  0 <= t <= 2 * PI / 180 → newton_exit t r →
  Rabs (r - t) < 1e-7 ∧
  Rabs (radial_ang2dist r - radial_ang2dist t) < 2e-3.
Proof.
  intros [Ht0 Ht2] (x & Hgood & Hdist & ->).
  pose proof PI_le_7_2 as Hpi.
  pose proof (newton_exit_before t x Hdist) as Hx.
  assert (/ 13938 < 7.2e-5) as Hinv.
  { apply (Rmult_lt_reg_r 13938); [lra|]. rewrite Rinv_l by lra. lra. }
  destruct (radial_dist2ang_body_spec t x) as [_ Hstep].
  set (r := (radial_dist2ang_body (radial_ang2dist t) x).1) in *.
  cbv zeta in Hstep. fold r in Hstep.
  pose proof (slope_fd_lower x) as HG.
  set (rho := (slope_fd x - slope_chord x t) / slope_fd x) in *.
  assert (Hrho : rho * slope_fd x = slope_fd x - slope_chord x t).
  { unfold rho. field. lra. }
  rewrite slope_fd_minus_chord in Hrho.
  assert (Hxt : -7.2e-5 < x - t < 7.2e-5).
  { destruct (Rcase_abs (x - t)) as [Hn|Hp].
    - rewrite (Rabs_left _ Hn) in Hx. lra.
    - rewrite (Rabs_right _ Hp) in Hx. lra. }
  assert (Hd : -17.2 <= rho * slope_fd x <= 17.2).
  { rewrite Hrho.
    assert (-8.5e-6 <= (x - t) * (2 * x + t) <= 8.5e-6) by nra.
    nra. }
  assert (Hr : -1.24e-3 <= rho <= 1.24e-3) by nra.
  assert (Hrt : -9e-8 <= r - t <= 9e-8) by (rewrite Hstep; nra).
  split; [apply Rabs_def1; lra|].
  rewrite radial_ang2dist_chord, Rabs_mult.
  pose proof (slope_chord_lower r t) as HSr.
  rewrite (Rabs_right (slope_chord r t)) by lra.
  pose proof (slope_chord_upper r t 0.039 ltac:(lra) ltac:(lra)) as HM.
  assert (Rabs (r - t) <= 9e-8) by (apply Rabs_le; lra).
  pose proof (Rabs_pos (r - t)). nra.
Qed.

(** Near a root of at most 0.05 rad the chord slopes are at most 39181. *)
Lemma slope_chord_near (t y : R) :
  0 <= t <= 0.05 → Rabs (y - t) <= 0.05 → slope_chord y t <= 39181.
Proof.
  intros Ht Hy. apply Rabs_le_between in Hy.
  pose proof (slope_chord_upper y t 0.1 ltac:(lra) ltac:(lra)) as H. lra.
Qed.

(** A turn from a good iterate within 0.05 of such a root: the iterate
    stays good and within 0.05, and the error recorded is at most 2000. *)
Lemma newton_near_step (t x : R) :
  0 <= t <= 0.05 → newton_good t x → Rabs (x - t) <= 0.05 →
  let r := radial_dist2ang_body (radial_ang2dist t) x in
  newton_good t r.1 ∧ Rabs (r.1 - t) <= 3 / 4 * Rabs (x - t) ∧
  Rabs r.2 <= 2000.
Proof.
  intros Ht Hgood Hx r.
  destruct (newton_good_step t x (proj1 Ht) Hgood) as [Hg' Hc].
  destruct (radial_dist2ang_body_spec t x) as [Herr _].
  fold r in Hg', Hc, Herr.
  split; [exact Hg'|]. split; [exact Hc|].
  pose proof (slope_chord_lower x t) as Hlo.
  pose proof (slope_chord_near t x Ht Hx) as Hup.
  pose proof (Rabs_pos (x - t)) as Hpos.
  rewrite Herr, Rabs_mult, (Rabs_right (slope_chord x t)) by lra. nra.
Qed.

(** On the distance of a root of at most 0.05 rad every error the loop
    passes to [::abs] is at most 2000 mm, far inside the range of [int]. *)
Lemma radial_dist2ang_errors_small (t : R) :
  0 <= t <= 0.05 →
  ∀ (fuel : nat) (x err : R),
    newton_good t x → Rabs (x - t) <= 0.05 → Rabs err <= 2000 →
    Forall (λ e : R, Rabs e <= 2000)
           (radial_dist2ang_errors fuel (radial_ang2dist t) x err).
Proof.
  intros Ht. induction fuel as [|fuel IH]; intros x err Hgood Hx Herr;
    cbn [radial_dist2ang_errors]; constructor; try exact Herr.
  - destruct (Rgt_dec _ _); constructor.
  - destruct (Rgt_dec _ _); [|constructor].
    destruct (newton_near_step t x Ht Hgood Hx) as (Hg' & Hc & He').
    destruct (radial_dist2ang_body (radial_ang2dist t) x) as [x' err'].
    simpl in Hg', Hc, He'. apply IH; [exact Hg' | lra | exact He'].
Qed.

(** On the distance of a root of at most 0.05 rad the loop ends within 31
    turns. *)
Lemma radial_dist2ang_terminates_near (t : R) :
  0 <= t <= 0.05 →
  ∀ fuel : nat, (31 ≤ fuel)%nat →
    ∃ r : R,
      radial_dist2ang fuel (radial_ang2dist t) = Some r ∧ newton_exit t r.
Proof.
  intros Ht fuel Hfuel.
  assert (Hg0 : newton_good t 0.01).
  { right. split; [apply Rabs_le; lra | lra]. }
  assert (Hx0 : Rabs (0.01 - t) <= 0.05) by (apply Rabs_le; lra).
  destruct (newton_near_step t 0.01 Ht Hg0 Hx0) as (Hg1 & Hc1 & _).
  destruct (radial_dist2ang_body_spec t 0.01) as [Herr1 _].
  set (r1 := radial_dist2ang_body (radial_ang2dist t) 0.01) in *.
  unfold radial_dist2ang.
  destruct fuel as [|fuel]; [lia|].
  rewrite radial_dist2ang_loop_turn by (rewrite Rabs_R1; lra).
  fold r1.
  apply (radial_dist2ang_loop_good t 0.05 39181 (proj1 Ht)
           (λ y Hy, slope_chord_near t y Ht Hy) 28 fuel r1.1 r1.2);
    [exact Hg1 | lra | | | lia].
  - assert (Hp : 2940 <= (4 / 3) ^ 28) by (simpl; lra).
    assert (Rabs (r1.1 - t) <= 0.0375) by lra.
    pose proof (Rabs_pos (r1.1 - t)). nra.
  - intros Hsmall. exists 0.01. split; [exact Hg0|]. split; [|reflexivity].
    rewrite radial_ang2dist_chord, <- Herr1. exact Hsmall.
Qed.

(** The two turns the loop takes on the distance of 0.005 rad: the first
    leaves an error of some 70 mm, the second an error below 1 mm, which
    ends the loop. *)
Lemma radial_dist2ang_two_turns :
  let d := radial_ang2dist 0.005 in
  let x1 := (radial_dist2ang_body d 0.01).1 in
  let r := (radial_dist2ang_body d x1).1 in
  70 < (radial_dist2ang_body d 0.01).2 < 71 ∧
  0.4 < (radial_dist2ang_body d x1).2 < 0.5 ∧
  3.5e-9 < r - 0.005 < 3.6e-9 ∧
  4.8e-5 < radial_ang2dist r - d < 5.2e-5.
Proof.
  intros d x1 r.
  destruct (radial_dist2ang_body_spec 0.005 0.01) as [He1 Hs1].
  destruct (radial_dist2ang_body_spec 0.005 x1) as [He2 Hs2].
  cbv zeta in He1, Hs1, He2, Hs2. fold d in He1, Hs1, He2, Hs2.
  fold x1 in Hs1, He2, Hs2. fold r in Hs2.
  (* the first turn *)
  assert (HG0 : slope_fd 0.01 = 14156.232397) by (unfold slope_fd; lra).
  assert (HS0 : slope_chord 0.01 0.005 = 14058.9475)
    by (unfold slope_chord; lra).
  rewrite HG0, HS0 in Hs1. rewrite HS0 in He1.
  split.
  { rewrite He1. lra. }
  set (q0 := (14156.232397 - 14058.9475) / 14156.232397) in *.
  assert (Hq0 : q0 * 14156.232397 = 14156.232397 - 14058.9475)
    by (unfold q0; field; lra).
  assert (Hx1 : 3.436e-5 < x1 - 0.005 < 3.437e-5) by (rewrite Hs1; nra).
  (* the second turn *)
  assert (HS1 : 13985 < slope_chord x1 0.005 < 13985.2).
  { unfold slope_chord. nra. }
  assert (HG1 : 13986 < slope_fd x1 < 13987).
  { unfold slope_fd. nra. }
  assert (HD1 : 1.45 < slope_fd x1 - slope_chord x1 0.005 < 1.46).
  { rewrite slope_fd_minus_chord. nra. }
  split.
  { rewrite He2. nra. }
  set (q1 := (slope_fd x1 - slope_chord x1 0.005) / slope_fd x1) in *.
  assert (Hq1 : q1 * slope_fd x1 = slope_fd x1 - slope_chord x1 0.005)
    by (unfold q1; field; lra).
  assert (Hq1b : 1.036e-4 < q1 < 1.044e-4) by nra.
  assert (Hr : 3.5e-9 < r - 0.005 < 3.6e-9) by (rewrite Hs2; nra).
  split; [exact Hr|].
  unfold d. rewrite radial_ang2dist_chord.
  assert (HSr : 13983 < slope_chord r 0.005 < 13985).
  { unfold slope_chord. nra. }
  nra.
Qed.

End RadialInversion.

(** C3. The loop of [radial_dist2ang] does not run until the distance is
    matched to 1e-7: on the distance of 0.005 rad, an angle between 0 and 2
    degrees, it makes two turns, the first with an error between 70 and 71
    mm and the second with an error between 0.4 and 0.5 mm, which [::abs]
    takes to 0, and leaves.  The angle returned, that of the second turn,
    is within 1e-7 rad of 0.005, and its distance differs from the distance
    asked for by more than 4.8e-5 mm. *)
Theorem radial_dist2ang_leaves_early :
  let theta := 0.005 in
  let d := radial_ang2dist theta in
  let turn1 := radial_dist2ang_body d 0.01 in
  let turn2 := radial_dist2ang_body d turn1.1 in
  0 <= theta <= 2 * PI / 180 ∧ d = 69.7599625 ∧
  70 < turn1.2 < 71 ∧ Libm.abs turn1.2 = 70%Z ∧
  0.4 < turn2.2 < 0.5 ∧ Libm.abs turn2.2 = 0%Z ∧
  radial_dist2ang 0 d = None ∧ radial_dist2ang 1 d = None ∧
  (∀ fuel : nat, (2 ≤ fuel)%nat → radial_dist2ang fuel d = Some turn2.1) ∧
  Rabs (turn2.1 - theta) < 1e-7 ∧
  4.8e-5 < radial_ang2dist turn2.1 - d ∧
  ¬ Rabs (radial_ang2dist turn2.1 - d) < 1e-7.
Proof.
  intros theta d b1 b2.
  destruct radial_dist2ang_two_turns as (He1 & He2 & Hr & Hres).
  change (radial_ang2dist 0.005) with d in He1, He2, Hr, Hres.
  fold b1 in He1, He2, Hr, Hres. fold b2 in He2, Hr, Hres.
  assert (Hbig : 1 <= Rabs b1.2) by (rewrite Rabs_right; lra).
  assert (Hsmall : Rabs b2.2 < 1) by (rewrite Rabs_right; lra).
  assert (Habs : ∀ (e : R) (n : Z),
            (0 <= n)%Z → IZR n <= e < IZR n + 1 → Libm.abs e = n).
  { intros e n Hn He. unfold Libm.abs, Libm.trunc.
    assert (0 <= IZR n) by (apply IZR_le; exact Hn).
    destruct (Rle_dec 0 e); [|lra].
    rewrite <- (Int_part_spec e n) by lra. apply Z.abs_eq. exact Hn. }
  split.
  { unfold theta. pose proof pi2_int as [Hlo _]. unfold PI. lra. }
  split.
  { unfold d, theta. rewrite radial_ang2dist_poly. lra. }
  assert (H1 : 1 <= Rabs 1) by (rewrite Rabs_R1; lra).
  split; [exact He1|]. split; [apply Habs; [lia | lra]|].
  split; [exact He2|]. split; [apply Habs; [lia | lra]|].
  split; [|split; [|split; [|split; [|split]]]].
  - unfold radial_dist2ang. apply radial_dist2ang_loop_out. exact H1.
  - unfold radial_dist2ang.
    rewrite radial_dist2ang_loop_turn by exact H1. fold b1.
    apply radial_dist2ang_loop_out. exact Hbig.
  - intros fuel Hfuel. unfold radial_dist2ang.
    destruct fuel as [|[|fuel]]; [lia|lia|].
    rewrite radial_dist2ang_loop_turn by exact H1. fold b1.
    rewrite radial_dist2ang_loop_turn by exact Hbig. fold b2.
    apply radial_dist2ang_loop_stop. exact Hsmall.
  - unfold theta. apply Rabs_def1; lra.
  - lra.
  - rewrite Rabs_right by lra. lra.
Qed.

(** ** Focal plane to sky *)

Section SkyFacts.


Lemma acos_bound (x : R) : 0 <= acos x <= PI.
Proof.
  unfold acos. pose proof PI_RGT_0.
  destruct (Rle_dec x (-1)); [lra|]. destruct (Rle_dec 1 x); [lra|].
  pose proof (atan_bound (x / sqrt (1 - x²))). lra.
Qed.



(** The third coordinate of the rotated unit vector, the argument of
    [::acos] in [xy2radec], is in [-1, 1]. *)
Lemma xy2radec_acos_domain (tiledec_rad radius_rad q_rad : R) :
  let x1 := cos radius_rad in
  let y1 := - sin radius_rad in
  let x2 := x1 in
  let z2 := - y1 * sin q_rad in
  let z4 := sin tiledec_rad * x2 + cos tiledec_rad * z2 in
  -1 <= z4 <= 1.
Proof.
  cbv zeta.
  pose proof (sin2_cos2 tiledec_rad) as Hd.
  pose proof (sin2_cos2 radius_rad) as Hr.
  pose proof (sin2_cos2 q_rad) as Hq.
  unfold Rsqr in *.
  set (sd := sin tiledec_rad) in *. set (cd := cos tiledec_rad) in *.
  set (sr := sin radius_rad) in *. set (cr := cos radius_rad) in *.
  set (sq := sin q_rad) in *. set (cq := cos q_rad) in *.
  set (z := sd * cr + cd * (- - sr * sq)).
  set (u := sr * cq). set (v := sd * sr * sq - cd * cr).
  assert (E1 : z * z + u * u + v * v
               = (sd * sd + cd * cd) * (cr * cr + sr * sr * (sq * sq))
                 + sr * sr * (cq * cq)) by (unfold z, u, v; ring).
  rewrite Hd in E1.
  assert (E2 : 1 * (cr * cr + sr * sr * (sq * sq)) + sr * sr * (cq * cq)
               = (sr * sr + cr * cr) - sr * sr
                 + sr * sr * (sq * sq + cq * cq)) by ring.
  rewrite Hq, Hr in E2.
  pose proof (Rle_0_sqr u) as Hu. pose proof (Rle_0_sqr v) as Hv.
  unfold Rsqr in Hu, Hv.
  assert (Hz : z * z <= 1) by lra.
  split; nra.
Qed.



End SkyFacts.


(** ** Parallel loops *)

Section OmpFacts.

Lemma block_start_length (n k j : nat) :
  Omp.block n k j
  = seq (j * (n / k) + min j (n mod k))
        (n / k + (if (j <? n mod k)%nat then 1 else 0)).
Proof.
  unfold Omp.block.
  generalize (n / k)%nat (n mod k)%nat. intros q r.
  destruct (Nat.ltb_spec j r); f_equal; nia.
Qed.

Lemma concat_static_blocks_prefix (n k m : nat) :
  concat ((λ j, Omp.block n k j) <$> seq 0 m)
  = seq 0 (m * (n / k) + min m (n mod k)).
Proof.
  induction m as [|m IH]; [reflexivity|].
  rewrite seq_S, fmap_app, concat_app, IH.
  replace (concat ((λ j, Omp.block n k j) <$> [(0 + m)%nat]))
    with (Omp.block n k m) by (simpl; rewrite app_nil_r; reflexivity).
  rewrite block_start_length.
  generalize (n / k)%nat (n mod k)%nat. intros q r.
  replace (S m * q + min (S m) r)%nat
    with ((m * q + min m r) + (q + (if (m <? r)%nat then 1 else 0)))%nat
    by (destruct (Nat.ltb_spec m r); nia).
  generalize (m * q + min m r)%nat (q + (if (m <? r)%nat then 1 else 0))%nat.
  intros a b. symmetry. exact (seq_app a b 0).
Qed.

(** The blocks of the static schedule, one after the other, are the
    iterations in order. *)
Lemma concat_static_blocks (n k : nat) :
  (0 < k)%nat → concat (Omp.static_blocks n k) = seq 0 n.
Proof.
  intros Hk. unfold Omp.static_blocks.
  rewrite concat_static_blocks_prefix. f_equal.
  pose proof (Nat.mod_upper_bound n k ltac:(lia)) as Hr.
  pose proof (Nat.div_mod_eq n k) as Hn.
  revert Hr Hn. generalize (n / k)%nat (n mod k)%nat. intros q r Hr Hn.
  nia.
Qed.

Lemma execution_Permutation (n k : nat) (sched : list nat) :
  (0 < k)%nat → Omp.execution n k sched → sched ≡ₚ seq 0 n.
Proof.
  intros Hk [Hperm _]. rewrite Hperm, concat_static_blocks by exact Hk.
  reflexivity.
Qed.

Lemma sublist_concat_member {A : Type} (b : list A) (ls : list (list A)) :
  b ∈ ls → sublist b (concat ls).
Proof.
  induction ls as [|l ls IH]; intros Hb.
  - apply elem_of_nil in Hb. contradiction.
  - simpl. apply elem_of_cons in Hb as [->|Hb].
    + apply sublist_inserts_r. reflexivity.
    + apply sublist_inserts_l, IH, Hb.
Qed.

Lemma sequential_conforming : Omp.conforming Omp.sequential.
Proof.
  split; [simpl; lia|]. intros n k Hk. split; simpl.
  - reflexivity.
  - intros b Hb. apply sublist_concat_member, Hb.
Qed.

Lemma run_threads_positive (threads max_threads : Z) :
  (1 <= max_threads)%Z →
  (0 < Z.to_nat (Omp.run_threads threads max_threads))%nat.
Proof.
  intros Hmax. unfold Omp.run_threads.
  destruct (Z.ltb_spec 0 threads);
    match goal with
    | |- context [(max_threads <? ?r)%Z] => destruct (Z.ltb_spec max_threads r)
    end; lia.
Qed.


Lemma parallel_for_ext {S : Type} (body1 body2 : nat → S → option S)
    (sched : list nat) :
  (∀ t s, body1 t s = body2 t s) →
  ∀ s, Omp.parallel_for body1 sched s = Omp.parallel_for body2 sched s.
Proof.
  intros Hext. induction sched as [|t sched IH]; intros s; simpl.
  - reflexivity.
  - rewrite Hext. destruct (body2 t s); simpl; [apply IH | reflexivity].
Qed.

(** A loop of cell writes whose values are all there fills the cells it
    visits and leaves the others. *)
Lemma parallel_for_cells_Some {T : Type} (f : nat → option T)
    (sched : list nat) :
  ∀ out : list T,
    (∀ t, t ∈ sched → is_Some (f t)) →
    ∃ out' : list T,
      Omp.parallel_for (cell_write f) sched out = Some out' ∧
      length out' = length out ∧
      ∀ i : nat,
        (i ∈ sched → (i < length out)%nat → out' !! i = f i) ∧
        (i ∉ sched → out' !! i = out !! i).
Proof.
  induction sched as [|t sched IH]; intros out Hall; simpl.
  - exists out. split; [reflexivity|]. split; [reflexivity|].
    intros i. split; [|reflexivity].
    intros Hi. apply elem_of_nil in Hi. contradiction.
  - destruct (Hall t) as [v Hv]; [apply list_elem_of_here|].
    assert (Hcw : cell_write f t out = Some (<[t := v]> out))
      by (unfold cell_write; rewrite Hv; reflexivity).
    rewrite Hcw. simpl.
    destruct (IH (<[t := v]> out)) as (out' & Hrun & Hlen & Hcells).
    { intros t' Ht'. apply Hall. by apply list_elem_of_further. }
    exists out'. split; [exact Hrun|].
    rewrite length_insert in Hlen. split; [exact Hlen|].
    intros i. destruct (Hcells i) as [Hin Hout]. split.
    + intros Hi Hlt.
      destruct (decide (i ∈ sched)) as [Hs|Hs].
      * apply Hin; [exact Hs|]. rewrite length_insert. exact Hlt.
      * rewrite (Hout Hs).
        apply elem_of_cons in Hi as [->|Hi]; [|contradiction].
        rewrite list_lookup_insert_eq by exact Hlt. symmetry. exact Hv.
    + intros Hi. apply not_elem_of_cons in Hi as [Hne Hs].
      rewrite (Hout Hs). apply list_lookup_insert_ne. congruence.
Qed.

Lemma parallel_for_cells_None {T : Type} (f : nat → option T)
    (sched : list nat) (t : nat) :
  t ∈ sched → f t = None →
  ∀ out : list T, Omp.parallel_for (cell_write f) sched out = None.
Proof.
  intros Ht Hf. induction sched as [|t' sched IH]; intros out; simpl.
  - apply elem_of_nil in Ht. contradiction.
  - destruct (f t') as [v|] eqn:Hv.
    + assert (Hcw : cell_write f t' out = Some (<[t' := v]> out))
        by (unfold cell_write; rewrite Hv; reflexivity).
      rewrite Hcw. simpl.
      apply elem_of_cons in Ht as [->|Ht]; [congruence|].
      apply IH, Ht.
    + assert (Hcw : cell_write f t' out = None)
        by (unfold cell_write; rewrite Hv; reflexivity).
      rewrite Hcw. reflexivity.
Qed.

Lemma mapM_None_member {A B : Type} (f : A → option B) (l : list A) :
  mapM f l = None → ∃ x, x ∈ l ∧ f x = None.
Proof.
  induction l as [|a l IH]; simpl; [discriminate|].
  destruct (f a) as [y|] eqn:Hy; simpl.
  - destruct (mapM f l) eqn:Hl; simpl; [discriminate|].
    intros _. destruct IH as (x & Hx & Hfx); [reflexivity|].
    exists x. split; [by apply list_elem_of_further | exact Hfx].
  - intros _. exists a. split; [apply list_elem_of_here | exact Hy].
Qed.

(** Whatever the order of an execution, a loop of cell writes over
    [0 <= t < n] is the map of [f] over the iterations in order. *)
Lemma parallel_for_cells_mapM {T : Type} (f : nat → option T)
    (sched : list nat) (n : nat) (out : list T) :
  sched ≡ₚ seq 0 n → length out = n →
  Omp.parallel_for (cell_write f) sched out = mapM f (seq 0 n).
Proof.
  intros Hperm Hlen.
  destruct (mapM f (seq 0 n)) as [vals|] eqn:Hvals.
  - apply mapM_Some in Hvals.
    pose proof (Forall2_length _ _ _ Hvals) as Hlv. rewrite length_seq in Hlv.
    destruct (parallel_for_cells_Some f sched out) as (out' & -> & Hlen' & Hc).
    { intros t Ht. rewrite Hperm in Ht.
      apply list_elem_of_lookup in Ht as [i Hi].
      destruct (Forall2_lookup_l _ _ _ _ _ Hvals Hi) as (y & _ & Hy).
      rewrite Hy. eauto. }
    f_equal. apply list_eq. intros i.
    destruct (decide (i < n)%nat) as [Hi|Hi].
    + destruct (Hc i) as [Hin _]. rewrite Hin.
      * assert (seq 0 n !! i = Some i) as Hsi by (apply lookup_seq; lia).
        destruct (Forall2_lookup_l _ _ _ _ _ Hvals Hsi) as (y & Hy & Hfy).
        congruence.
      * rewrite Hperm. apply elem_of_seq. lia.
      * lia.
    + rewrite !lookup_ge_None_2 by lia. reflexivity.
  - apply mapM_None_member in Hvals as (t & Ht & Hf).
    apply (parallel_for_cells_None f sched t); [|exact Hf].
    rewrite Hperm. exact Ht.
Qed.



End OmpFacts.

(** ** The vectorised projections *)

Section MultiFacts.

Variable rt : Omp.runtime.
Hypothesis rt_conforming : Omp.conforming rt.

(** The order in which the runtime runs a loop of [n] iterations, for any
    [threads] argument, holds each iteration once. *)
Lemma schedule_Permutation (n : nat) (threads : Z) :
  Omp.schedule rt n
    (Z.to_nat (Omp.run_threads threads (Omp.omp_get_num_threads rt)))
  ≡ₚ seq 0 n.
Proof.
  destruct rt_conforming as [Hmax Hexec].
  apply (execution_Permutation n _ _ (run_threads_positive threads _ Hmax)).
  apply Hexec, run_threads_positive, Hmax.
Qed.



End MultiFacts.

Section ElementwiseFacts.





End ElementwiseFacts.



(** ** The batch collision check *)

Section CheckLookupFacts.

Lemma ordered_pair_le (lid nb : Z) :
  ((ordered_pair lid nb).1 <= (ordered_pair lid nb).2)%Z.
Proof.
  unfold ordered_pair. destruct (bool_decide_reflect (lid < nb)%Z); simpl; lia.
Qed.

Lemma found_loop_spec (high : Z) (l : list Z) :
  ∀ b : bool,
    fold_left (λ found ck, if bool_decide (ck = high) then true else found)
              l b = true
    ↔ b = true ∨ high ∈ l.
Proof.
  induction l as [|ck l IH]; intros b; simpl.
  - split; [auto|]. intros [H|H]; [exact H|].
    apply elem_of_nil in H. contradiction.
  - rewrite IH, elem_of_cons.
    destruct (bool_decide_reflect (ck = high)) as [->|Hne].
    + split; auto.
    + split; [intros [H|H]; auto|].
      intros [H|[H|H]]; auto; congruence.
Qed.

(** [add_check] adds the ordered pair unless it is there, and nothing
    else; lists without repetition stay so. *)
Lemma add_check_spec (lid nb : Z) (cl : gmap Z (list Z)) (low high : Z) :
  high ∈ neighbors_at (add_check lid cl nb) low
  ↔ high ∈ neighbors_at cl low ∨ (low, high) = ordered_pair lid nb.
Proof.
  unfold add_check.
  destruct (ordered_pair lid nb) as [lo hi].
  set (cl1 := if bool_decide (cl !! lo = None) then <[lo := []]> cl else cl).
  assert (Hcl1 : ∀ k, neighbors_at cl1 k = neighbors_at cl k).
  { intros k. unfold cl1, neighbors_at.
    destruct (bool_decide_reflect (cl !! lo = None)) as [Hn|Hn];
      [|reflexivity].
    destruct (decide (lo = k)) as [->|Hne].
    - rewrite lookup_insert_eq, Hn. reflexivity.
    - rewrite lookup_insert_ne by exact Hne. reflexivity. }
  fold (neighbors_at cl1 lo).
  destruct (fold_left _ (neighbors_at cl1 lo) false) eqn:Hfound; simpl.
  - apply found_loop_spec in Hfound as [Hf|Hf]; [discriminate|].
    rewrite Hcl1 in Hf |- *. split; [auto|].
    intros [H|H]; [exact H|]. injection H as -> ->. exact Hf.
  - rewrite neighbors_at_push_back, Hcl1. split.
    + intros [H|[-> ->]]; auto.
    + intros [H|H]; [auto|]. injection H as -> ->. auto.
Qed.

Lemma add_check_NoDup (lid nb : Z) (cl : gmap Z (list Z)) :
  (∀ k, NoDup (neighbors_at cl k)) →
  ∀ k, NoDup (neighbors_at (add_check lid cl nb) k).
Proof.
  intros Hnd k. unfold add_check.
  destruct (ordered_pair lid nb) as [lo hi].
  set (cl1 := if bool_decide (cl !! lo = None) then <[lo := []]> cl else cl).
  assert (Hcl1 : ∀ k, neighbors_at cl1 k = neighbors_at cl k).
  { intros k'. unfold cl1, neighbors_at.
    destruct (bool_decide_reflect (cl !! lo = None)) as [Hn|Hn];
      [|reflexivity].
    destruct (decide (lo = k')) as [->|Hne].
    - rewrite lookup_insert_eq, Hn. reflexivity.
    - rewrite lookup_insert_ne by exact Hne. reflexivity. }
  fold (neighbors_at cl1 lo).
  destruct (fold_left _ (neighbors_at cl1 lo) false) eqn:Hfound; simpl.
  - rewrite Hcl1. apply Hnd.
  - unfold neighbors_at at 1. rewrite lookup_push_back.
    destruct (decide (lo = k)) as [->|Hne]; simpl.
    + rewrite Hcl1. apply NoDup_app. split; [apply Hnd|]. split.
      * intros x Hx Hx'. apply list_elem_of_singleton in Hx' as ->.
        assert (fold_left
                  (λ found ck, if bool_decide (ck = hi) then true else found)
                  (neighbors_at cl1 k) false = true) as Habs.
        { apply found_loop_spec. right. rewrite Hcl1. exact Hx. }
        congruence.
      * apply NoDup_singleton.
    + fold (neighbors_at cl1 k). rewrite Hcl1. apply Hnd.
Qed.

Lemma add_checks_spec (lid : Z) (nbs : list Z) :
  ∀ (cl : gmap Z (list Z)) (low high : Z),
    high ∈ neighbors_at (fold_left (add_check lid) nbs cl) low
    ↔ high ∈ neighbors_at cl low ∨
      ∃ nb, nb ∈ nbs ∧ (low, high) = ordered_pair lid nb.
Proof.
  induction nbs as [|nb nbs IH]; intros cl low high; simpl.
  - split; [auto|]. intros [H|(nb & Hnb & _)]; [exact H|].
    apply elem_of_nil in Hnb. contradiction.
  - rewrite IH, add_check_spec. split.
    + intros [[H|H]|(nb' & Hnb' & H)]; [auto| |].
      * right. exists nb. split; [apply list_elem_of_here | exact H].
      * right. exists nb'. split; [by apply list_elem_of_further | exact H].
    + intros [H|(nb' & Hnb' & H)]; [auto|].
      apply elem_of_cons in Hnb' as [->|Hnb']; [auto|].
      right. exists nb'. auto.
Qed.

Lemma add_checks_NoDup (lid : Z) (nbs : list Z) :
  ∀ cl : gmap Z (list Z),
    (∀ k, NoDup (neighbors_at cl k)) →
    ∀ k, NoDup (neighbors_at (fold_left (add_check lid) nbs cl) k).
Proof.
  induction nbs as [|nb nbs IH]; intros cl Hnd; simpl; [exact Hnd|].
  apply IH, add_check_NoDup, Hnd.
Qed.

(** The first loop of [check_collisions_*]: it ends normally when every
    supplied id has a neighbor list, [loc_indx] then holds the supplied
    ids, and [checklookup] the ordered pairs of each supplied id with each
    of its neighbors, once each. *)
Lemma build_checklookup_spec (nbrs : gmap Z (list Z)) (loc : list Z) :
  ∀ (idx : nat) (li : gmap Z nat) (cl : gmap Z (list Z)),
    (∀ lid, lid ∈ loc → is_Some (nbrs !! lid)) →
    (∀ k, NoDup (neighbors_at cl k)) →
    ∃ (li' : gmap Z nat) (cl' : gmap Z (list Z)),
      build_checklookup nbrs loc idx li cl = Some (li', cl') ∧
      (∀ k, (k ∉ loc) → li' !! k = li !! k) ∧
      (∀ k, k ∈ loc →
         ∃ j : nat, li' !! k = Some (idx + j)%nat ∧ loc !! j = Some k) ∧
      (∀ k, NoDup (neighbors_at cl' k)) ∧
      (∀ low high,
         high ∈ neighbors_at cl' low
         ↔ high ∈ neighbors_at cl low ∨
           ∃ lid nb, lid ∈ loc ∧ nb ∈ neighbors_at nbrs lid ∧
                     (low, high) = ordered_pair lid nb).
Proof.
  induction loc as [|lid loc IH]; intros idx li cl Hnb Hnd; simpl.
  - exists li, cl. split; [reflexivity|]. split; [auto|]. split.
    { intros k Hk. apply elem_of_nil in Hk. contradiction. }
    split; [exact Hnd|].
    intros low high. split; [auto|].
    intros [H|(l & nb & Hl & _)]; [exact H|].
    apply elem_of_nil in Hl. contradiction.
  - destruct (Hnb lid) as [nbs Hnbs]; [apply list_elem_of_here|].
    rewrite Hnbs. simpl.
    destruct (IH (S idx) (<[lid := idx]> li)
                 (fold_left (add_check lid) nbs cl))
      as (li' & cl' & Hrun & Hout & Hin & Hnd' & Hcl').
    { intros l Hl. apply Hnb. by apply list_elem_of_further. }
    { apply add_checks_NoDup, Hnd. }
    exists li', cl'. split; [exact Hrun|].
    split; [|split; [|split; [exact Hnd'|]]].
    + intros k Hk. apply not_elem_of_cons in Hk as [Hne Hk].
      rewrite (Hout k Hk). apply lookup_insert_ne. congruence.
    + intros k Hk.
      destruct (decide (k ∈ loc)) as [Hk'|Hk'].
      * destruct (Hin k Hk') as (j & Hj & Hlj).
        exists (S j). split; [rewrite Hj; f_equal; lia | exact Hlj].
      * apply elem_of_cons in Hk as [->|Hk]; [|contradiction].
        exists 0%nat. rewrite (Hout lid Hk'), lookup_insert_eq.
        split; [f_equal; lia | reflexivity].
    + intros low high. rewrite Hcl', add_checks_spec.
      assert (Hnat : neighbors_at nbrs lid = nbs)
        by (unfold neighbors_at; rewrite Hnbs; reflexivity).
      split.
      * intros [[H|(nb & Hnb' & H)]|(l & nb & Hl & Hnb' & H)]; [auto | |].
        -- right. exists lid, nb. rewrite Hnat.
           split; [apply list_elem_of_here | auto].
        -- right. exists l, nb. split; [by apply list_elem_of_further | auto].
      * intros [H|(l & nb & Hl & Hnb' & H)]; [auto|].
        apply elem_of_cons in Hl as [->|Hl].
        -- left. right. exists nb. rewrite Hnat in Hnb'. auto.
        -- right. exists l, nb. auto.
Qed.

(** The first loop fails only on a supplied id without a neighbor list. *)
Lemma build_checklookup_None (nbrs : gmap Z (list Z)) (loc : list Z) :
  ∀ (idx : nat) (li : gmap Z nat) (cl : gmap Z (list Z)),
    build_checklookup nbrs loc idx li cl = None →
    ∃ lid, lid ∈ loc ∧ nbrs !! lid = None.
Proof.
  induction loc as [|lid loc IH]; intros idx li cl; simpl; [discriminate|].
  destruct (nbrs !! lid) as [nbs|] eqn:Hnbs; simpl.
  - intros H. apply IH in H as (l & Hl & Hn).
    exists l. split; [by apply list_elem_of_further | exact Hn].
  - intros _. exists lid. split; [apply list_elem_of_here | exact Hnbs].
Qed.

(** [checkpairs] lists the entries of [checklookup], each once. *)
Lemma checkpairs_of_spec (cl : gmap Z (list Z)) (low high : Z) :
  (low, high) ∈ checkpairs_of cl ↔ high ∈ neighbors_at cl low.
Proof.
  unfold checkpairs_of, neighbors_at.
  rewrite list_elem_of_join. split.
  - intros (l & Hl & Hls).
    apply list_elem_of_fmap in Hls as ([k hs] & -> & Hit).
    rewrite merge_sort_Permutation in Hit.
    apply elem_of_map_to_list in Hit. simpl in Hl.
    apply list_elem_of_fmap in Hl as (h & Heq & Hh).
    injection Heq as -> ->. rewrite Hit. exact Hh.
  - intros Hh. destruct (cl !! low) as [hs|] eqn:Hcl; simpl in Hh.
    + exists ((λ high, (low, high)) <$> hs). split.
      * apply list_elem_of_fmap. exists high. auto.
      * apply list_elem_of_fmap. exists (low, hs). split; [reflexivity|].
        rewrite merge_sort_Permutation. apply elem_of_map_to_list, Hcl.
    + apply elem_of_nil in Hh. contradiction.
Qed.

Lemma NoDup_join_by_key (l : list (Z * list Z)) :
  NoDup (l.*1) → (∀ it, it ∈ l → NoDup it.2) →
  NoDup (mjoin ((λ it : Z * list Z, (λ high, (it.1, high)) <$> it.2) <$> l)).
Proof.
  induction l as [|[k hs] l IH]; intros Hkeys Hvals; simpl.
  - apply NoDup_nil_2.
  - apply NoDup_cons in Hkeys as [Hk Hkeys].
    apply NoDup_app. split; [|split].
    + apply NoDup_fmap_2.
      * intros x y Hxy. congruence.
      * apply (Hvals (k, hs)), list_elem_of_here.
    + intros [lo hi] Hin Hin'.
      apply list_elem_of_fmap in Hin as (h & Heq & _).
      injection Heq as -> ->.
      apply list_elem_of_join in Hin' as (l' & Hl' & Hls).
      apply list_elem_of_fmap in Hls as ([k' hs'] & -> & Hit).
      simpl in Hl'. apply list_elem_of_fmap in Hl' as (h' & Heq & _).
      injection Heq as -> ->.
      apply Hk. apply list_elem_of_fmap. exists (k', hs'). auto.
    + apply IH; [exact Hkeys|].
      intros it Hit. apply Hvals. by apply list_elem_of_further.
Qed.

Lemma checkpairs_of_NoDup (cl : gmap Z (list Z)) :
  (∀ k, NoDup (neighbors_at cl k)) → NoDup (checkpairs_of cl).
Proof.
  intros Hnd. unfold checkpairs_of. apply NoDup_join_by_key.
  - rewrite merge_sort_Permutation. apply NoDup_fst_map_to_list.
  - intros [k hs] Hit. rewrite merge_sort_Permutation in Hit.
    apply elem_of_map_to_list in Hit. simpl.
    specialize (Hnd k). unfold neighbors_at in Hnd. rewrite Hit in Hnd.
    exact Hnd.
Qed.

End CheckLookupFacts.

Section PairLoopFacts.

Variable intersect : shape → shape → bool.
Variable rt : Omp.runtime.
Hypothesis rt_conforming : Omp.conforming rt.

(** The placements of the supplied locations: one per location, in their
    order, each what [loc_position_xy] gives for it. *)
Lemma loc_position_xy_multi_spec (hw : Hardware) (loc : list Z)
    (xy : list dpair) (threads : Z) :
  length xy = length loc →
  (∀ lid, lid ∈ loc → has_location hw lid) →
  ∃ fpos : list placement,
    loc_position_xy_multi rt hw loc xy threads = Some fpos ∧
    length fpos = length loc ∧
    ∀ (i : nat) (lid : Z) (p : dpair),
      loc !! i = Some lid → xy !! i = Some p →
      ∃ r : bool * shape * shape,
        loc_position_xy hw lid p = Some r ∧
        fpos !! i = Some (r.1.1, (r.1.2, r.2)).
Proof.
  intros Hlen Hhas. unfold loc_position_xy_multi. cbv zeta.
  set (g := λ f : nat,
         loc_f ← loc !! f; xy_f ← xy !! f;
         r ← loc_position_xy hw loc_f xy_f;
         Some ((r.1.1, (r.1.2, r.2)) : placement)).
  rewrite (parallel_for_ext _ (cell_write g)).
  2:{ intros t out. unfold cell_write, g.
      destruct (loc !! t); simpl; [|reflexivity].
      destruct (xy !! t); simpl; [|reflexivity].
      destruct (loc_position_xy hw _ _); reflexivity. }
  pose proof (schedule_Permutation rt rt_conforming (length loc) threads)
    as Hperm.
  destruct (parallel_for_cells_Some g
              (Omp.schedule rt (length loc)
                 (Z.to_nat (Omp.run_threads threads
                              (Omp.omp_get_num_threads rt))))
              (replicate (length loc) (false, (shape0, shape0))))
    as (fpos & Hrun & Hlf & Hcells).
  { intros t Ht. rewrite Hperm in Ht. apply elem_of_seq in Ht.
    destruct (lookup_lt_is_Some_2 loc t ltac:(lia)) as [lid Hlid].
    destruct (lookup_lt_is_Some_2 xy t ltac:(lia)) as [p Hp].
    destruct (loc_position_xy_Some hw lid p) as [r Hr].
    { apply Hhas. eapply list_elem_of_lookup_2; eassumption. }
    unfold g. rewrite Hlid. simpl. rewrite Hp. simpl. rewrite Hr. simpl.
    eauto. }
  rewrite length_replicate in Hlf, Hcells.
  exists fpos. split; [exact Hrun|]. split; [exact Hlf|].
  intros i lid p Hlid Hp.
  destruct (loc_position_xy_Some hw lid p) as [r Hr].
  { apply Hhas. eapply list_elem_of_lookup_2; eassumption. }
  exists r. split; [exact Hr|].
  destruct (Hcells i) as [Hin _].
  transitivity (g i).
  - apply Hin.
    + rewrite Hperm. apply elem_of_seq.
      apply lookup_lt_Some in Hlid. lia.
    + eapply lookup_lt_Some; eassumption.
  - unfold g. rewrite Hlid. simpl. rewrite Hp. simpl. rewrite Hr. reflexivity.
Qed.

(** The two writes of the critical section. *)
Lemma mark_both_lookup (result : list bool) (ilow ihigh i : nat) :
  (ilow < length result)%nat → (ihigh < length result)%nat →
  (<[ihigh := true]> (<[ilow := true]> result) !! i = Some true
   ↔ result !! i = Some true ∨ i = ilow ∨ i = ihigh).
Proof.
  intros Hl Hh. rewrite !list_lookup_insert, length_insert.
  destruct (decide (ihigh = i ∧ (ihigh < length result)%nat)) as [[-> _]|Hn1].
  { split; auto. }
  destruct (decide (ilow = i ∧ (ilow < length result)%nat)) as [[-> _]|Hn2].
  { split; auto. }
  split; [auto|].
  intros [H|[->| ->]]; [exact H | |]; exfalso; [apply Hn2 | apply Hn1]; auto.
Qed.

(** The loop over the pairs, for any order of the pairs in [sched]: it
    ends normally when both members of every pair have an index and a
    placement, and then marks exactly the indices of the members of the
    pairs that hit. *)
Lemma check_pairs_spec (fpos : list placement) (loc_indx : gmap Z nat)
    (checkpairs : list (Z * Z)) (sched : list nat) :
  ∀ result : list bool,
    (∀ p, p ∈ sched →
       ∃ pr ilow f1 ihigh f2,
         checkpairs !! p = Some pr ∧
         loc_indx !! pr.1 = Some ilow ∧ fpos !! ilow = Some f1 ∧
         loc_indx !! pr.2 = Some ihigh ∧ fpos !! ihigh = Some f2 ∧
         (ilow < length result)%nat ∧ (ihigh < length result)%nat) →
    ∃ result' : list bool,
      Omp.parallel_for (check_pair intersect fpos loc_indx checkpairs)
                       sched result = Some result' ∧
      length result' = length result ∧
      ∀ i : nat,
        result' !! i = Some true
        ↔ result !! i = Some true ∨
          ∃ p pr ilow f1 ihigh f2,
            p ∈ sched ∧ checkpairs !! p = Some pr ∧
            loc_indx !! pr.1 = Some ilow ∧ fpos !! ilow = Some f1 ∧
            loc_indx !! pr.2 = Some ihigh ∧ fpos !! ihigh = Some f2 ∧
            pair_hit intersect f1 f2 = true ∧ (i = ilow ∨ i = ihigh).
Proof.
  induction sched as [|p sched IH]; intros result Hready; simpl.
  - exists result. split; [reflexivity|]. split; [reflexivity|].
    intros i. split; [auto|].
    intros [H|(p & pr & ilow & f1 & ihigh & f2 & Hp & _)]; [exact H|].
    apply elem_of_nil in Hp. contradiction.
  - destruct (Hready p) as (pr & ilow & f1 & ihigh & f2 & Hpr & Hil & Hf1
                            & Hih & Hf2 & Hlo & Hhi);
      [apply list_elem_of_here|].
    set (result1 := if pair_hit intersect f1 f2
                    then <[ihigh := true]> (<[ilow := true]> result)
                    else result).
    assert (Hlen1 : length result1 = length result).
    { unfold result1. destruct (pair_hit intersect f1 f2);
        [rewrite !length_insert|]; reflexivity. }
    assert (Hstep : check_pair intersect fpos loc_indx checkpairs p result
                    = Some result1).
    { unfold check_pair, result1. rewrite Hpr. simpl.
      rewrite Hil. simpl. rewrite Hf1. simpl. rewrite Hih. simpl.
      rewrite Hf2. simpl.
      destruct (pair_hit intersect f1 f2); reflexivity. }
    rewrite Hstep. simpl.
    destruct (IH result1) as (result' & Hrun & Hlen' & Hmarks).
    { intros q Hq.
      destruct (Hready q) as (pr' & il' & f1' & ih' & f2' & H1 & H2 & H3
                              & H4 & H5 & H6 & H7);
        [by apply list_elem_of_further|].
      exists pr', il', f1', ih', f2'. rewrite Hlen1. auto 10. }
    exists result'. split; [exact Hrun|]. split; [congruence|].
    intros i. rewrite Hmarks.
    assert (Hone : result1 !! i = Some true
                   ↔ result !! i = Some true ∨
                     (pair_hit intersect f1 f2 = true ∧
                      (i = ilow ∨ i = ihigh))).
    { unfold result1. destruct (pair_hit intersect f1 f2).
      - rewrite mark_both_lookup by assumption. tauto.
      - split; [auto|]. intros [H|[H _]]; [exact H | discriminate]. }
    rewrite Hone. split.
    + intros [[H|[Hhit Hi]]|(q & pr' & il' & f1' & ih' & f2' & Hq & Hrest)].
      * auto.
      * right. exists p, pr, ilow, f1, ihigh, f2.
        split; [apply list_elem_of_here | auto 10].
      * right. exists q, pr', il', f1', ih', f2'.
        split; [by apply list_elem_of_further | exact Hrest].
    + intros [H|(q & pr' & il' & f1' & ih' & f2' & Hq & H1 & H2 & H3 & H4
                 & H5 & Hhit & Hi)]; [auto|].
      apply elem_of_cons in Hq as [->|Hq].
      * left. right.
        assert (pr' = pr) as -> by congruence.
        assert (il' = ilow) as -> by congruence.
        assert (ih' = ihigh) as -> by congruence.
        assert (f1' = f1) as -> by congruence.
        assert (f2' = f2) as -> by congruence.
        auto.
      * right. exists q, pr', il', f1', ih', f2'. auto 10.
Qed.

(** An iteration that throws whatever the state ends the loop. *)
Lemma parallel_for_None {S : Type} (body : nat → S → option S)
    (sched : list nat) (t : nat) :
  t ∈ sched → (∀ s, body t s = None) →
  ∀ s, Omp.parallel_for body sched s = None.
Proof.
  intros Ht Hbody. induction sched as [|t' sched IH]; intros s; simpl.
  - apply elem_of_nil in Ht. contradiction.
  - apply elem_of_cons in Ht as [->|Ht].
    + rewrite Hbody. reflexivity.
    + destruct (body t' s); simpl; [apply IH, Ht | reflexivity].
Qed.

End PairLoopFacts.

Section BatchFacts.

Variable intersect : shape → shape → bool.
Variable rt : Omp.runtime.
Hypothesis rt_conforming : Omp.conforming rt.

Lemma build_checklookup_Some_inv (nbrs : gmap Z (list Z)) (loc : list Z) :
  ∀ (idx : nat) (li : gmap Z nat) (cl : gmap Z (list Z)),
    is_Some (build_checklookup nbrs loc idx li cl) →
    ∀ lid, lid ∈ loc → is_Some (nbrs !! lid).
Proof.
  induction loc as [|l loc IH]; intros idx li cl Hrun lid Hlid.
  - apply elem_of_nil in Hlid. contradiction.
  - simpl in Hrun. destruct (nbrs !! l) as [nbs|] eqn:Hnbs; simpl in Hrun.
    + apply elem_of_cons in Hlid as [->|Hlid]; [rewrite Hnbs; eauto|].
      eapply IH; eassumption.
    + destruct Hrun as [? Hrun]. discriminate.
Qed.

(** A supplied location with a neighbor that is not supplied: the pair is
    on the list, the lookup of the missing id in [loc_indx] throws, and the
    batch check does not return. *)
Lemma check_collisions_missing_neighbor (hw : Hardware) (loc : list Z)
    (fpos : list placement) (threads : Z) (lid nb : Z) :
  lid ∈ loc → nb ∈ neighbors_at (neighbors hw) lid → (nb ∉ loc) →
  check_collisions intersect rt hw loc fpos threads = None.
Proof.
  intros Hlid Hnb Hmiss. unfold check_collisions. cbv zeta.
  destruct (build_checklookup (neighbors hw) loc 0 ∅ ∅) as [[li cl]|] eqn:Hb;
    simpl; [|reflexivity].
  destruct (build_checklookup_spec (neighbors hw) loc 0%nat ∅ ∅)
    as (li' & cl' & Hrun & Hout & _ & _ & Hcl).
  { apply (build_checklookup_Some_inv _ _ 0%nat ∅ ∅). rewrite Hb. eauto. }
  { intros k. unfold neighbors_at. rewrite lookup_empty. apply NoDup_nil_2. }
  rewrite Hb in Hrun. injection Hrun as <- <-.
  assert (Hli : li !! nb = None).
  { rewrite (Hout nb Hmiss). apply lookup_empty. }
  destruct (ordered_pair lid nb) as [low high] eqn:Hord.
  assert (Hpair : (low, high) ∈ checkpairs_of cl).
  { apply checkpairs_of_spec, Hcl. right. exists lid, nb. auto. }
  apply list_elem_of_lookup in Hpair as [p Hp].
  apply (parallel_for_None _ _ p).
  - rewrite (schedule_Permutation rt rt_conforming).
    apply elem_of_seq. apply lookup_lt_Some in Hp. lia.
  - intros s. unfold check_pair. rewrite Hp. simpl.
    unfold ordered_pair in Hord.
    destruct (bool_decide (lid < nb)%Z); injection Hord as <- <-.
    + destruct (li !! lid); simpl; [|reflexivity].
      destruct (fpos !! _); simpl; [|reflexivity].
      rewrite Hli. reflexivity.
    + rewrite Hli. reflexivity.
Qed.

End BatchFacts.


(** C1, as the code has it.  For pairwise distinct supplied locations of
    the hardware, with one target position each, such that every neighbor
    of a supplied location is supplied as well, [check_collisions_xy]
    returns a vector of the length of the input.  The pairs it checks,
    [checkpairs], hold each unordered pair of a supplied location and one
    of its neighbors once, smaller id first; entry [i] of the result is
    true iff the location [i] is a member of a checked pair that hits
    (one of the two placements unreachable, or one of the three arm tests
    positive), and false otherwise. *)
Theorem check_collisions_xy_marks_hits :
  ∀ (intersect : shape → shape → bool) (rt : Omp.runtime) (hw : Hardware)
    (loc : list Z) (xy : list dpair) (threads : Z),
    Omp.conforming rt →
    NoDup loc →
    length xy = length loc →
    (∀ lid, lid ∈ loc →
       has_location hw lid ∧ is_Some (neighbors hw !! lid)) →
    (∀ lid nb, lid ∈ loc → nb ∈ neighbors_at (neighbors hw) lid →
               nb ∈ loc) →
    ∃ (fpos : list placement) (loc_indx : gmap Z nat)
      (checklookup : gmap Z (list Z)) (result : list bool),
      loc_position_xy_multi rt hw loc xy threads = Some fpos ∧
      build_checklookup (neighbors hw) loc 0 ∅ ∅
      = Some (loc_indx, checklookup) ∧
      check_collisions_xy intersect rt hw loc xy threads = Some result ∧
      length result = length loc ∧
      (∀ (i : nat) (lid : Z) (p : dpair),
         loc !! i = Some lid → xy !! i = Some p →
         ∃ r : bool * shape * shape,
           loc_position_xy hw lid p = Some r ∧
           fpos !! i = Some (r.1.1, (r.1.2, r.2))) ∧
      NoDup (checkpairs_of checklookup) ∧
      (∀ low high : Z,
         (low, high) ∈ checkpairs_of checklookup
         ↔ (low <= high)%Z ∧ low ∈ loc ∧ high ∈ loc ∧
           (high ∈ neighbors_at (neighbors hw) low ∨
            low ∈ neighbors_at (neighbors hw) high)) ∧
      (∀ (i : nat) (lid : Z),
         loc !! i = Some lid →
         (result !! i = Some true
          ↔ ∃ (low high : Z) (ilow ihigh : nat) (flow fhigh : placement),
              (low, high) ∈ checkpairs_of checklookup ∧
              (lid = low ∨ lid = high) ∧
              loc !! ilow = Some low ∧ loc !! ihigh = Some high ∧
              fpos !! ilow = Some flow ∧ fpos !! ihigh = Some fhigh ∧
              pair_hit intersect flow fhigh = true) ∧
         (result !! i = Some true ∨ result !! i = Some false)).
Proof.
  intros intersect rt hw loc xy threads Hrt Hnd Hlen Hknown Hclosed.
  destruct (loc_position_xy_multi_spec rt Hrt hw loc xy threads Hlen)
    as (fpos & Hfpos & Hlf & Hplace).
  { intros lid Hlid. apply Hknown, Hlid. }
  destruct (build_checklookup_spec (neighbors hw) loc 0%nat ∅ ∅)
    as (li & cl & Hbuild & _ & Hli & Hcl_nd & Hcl).
  { intros lid Hlid. apply Hknown, Hlid. }
  { intros k. unfold neighbors_at. rewrite lookup_empty. apply NoDup_nil_2. }
  (* the pairs *)
  assert (Hpairs : ∀ low high : Z,
             (low, high) ∈ checkpairs_of cl
             ↔ (low <= high)%Z ∧ low ∈ loc ∧ high ∈ loc ∧
               (high ∈ neighbors_at (neighbors hw) low ∨
                low ∈ neighbors_at (neighbors hw) high)).
  { intros low high. rewrite checkpairs_of_spec, Hcl. split.
    - intros [Hnil|(lid & nb & Hlid & Hnb & Hord)].
      { unfold neighbors_at in Hnil. rewrite lookup_empty in Hnil.
        apply elem_of_nil in Hnil. contradiction. }
      pose proof (Hclosed lid nb Hlid Hnb) as Hnb_in.
      pose proof (ordered_pair_le lid nb) as Hle. rewrite <- Hord in Hle.
      simpl in Hle. split; [exact Hle|].
      unfold ordered_pair in Hord.
      destruct (bool_decide (lid < nb)%Z); injection Hord as -> ->; auto.
    - intros (Hle & Hlow & Hhigh & [Hn|Hn]); right.
      + exists low, high. split; [exact Hlow|]. split; [exact Hn|].
        unfold ordered_pair.
        destruct (bool_decide_reflect (low < high)%Z); [reflexivity|].
        assert (low = high) as -> by lia. reflexivity.
      + exists high, low. split; [exact Hhigh|]. split; [exact Hn|].
        unfold ordered_pair.
        destruct (bool_decide_reflect (high < low)%Z); [lia | reflexivity]. }
  (* the index of a supplied id *)
  assert (Hindex : ∀ k, k ∈ loc →
             ∃ j : nat, li !! k = Some j ∧ loc !! j = Some k ∧
                        (j < length loc)%nat ∧ is_Some (fpos !! j)).
  { intros k Hk. destruct (Hli k Hk) as (j & Hj & Hlj).
    exists j. split; [exact Hj|]. split; [exact Hlj|].
    pose proof (lookup_lt_Some _ _ _ Hlj) as Hlt. split; [exact Hlt|].
    apply lookup_lt_is_Some. lia. }
  (* the loop over the pairs *)
  destruct (check_pairs_spec intersect fpos li (checkpairs_of cl)
              (Omp.schedule rt (length (checkpairs_of cl))
                 (Z.to_nat (Omp.run_threads threads
                              (Omp.omp_get_num_threads rt))))
              (replicate (length loc) false))
    as (result & Hrun & Hlr & Hmarks).
  { intros p Hp. rewrite (schedule_Permutation rt Hrt) in Hp.
    apply elem_of_seq in Hp.
    destruct (lookup_lt_is_Some_2 (checkpairs_of cl) p ltac:(lia))
      as [[low high] Hpr].
    pose proof (list_elem_of_lookup_2 _ _ _ Hpr) as Hin.
    apply Hpairs in Hin as (_ & Hlow & Hhigh & _).
    destruct (Hindex low Hlow) as (il & Hil & _ & Hilt & [f1 Hf1]).
    destruct (Hindex high Hhigh) as (ih & Hih & _ & Hiht & [f2 Hf2]).
    exists (low, high), il, f1, ih, f2. rewrite length_replicate.
    auto 10. }
  rewrite length_replicate in Hlr.
  exists fpos, li, cl, result.
  split; [exact Hfpos|]. split; [exact Hbuild|]. split.
  { unfold check_collisions_xy. rewrite Hfpos. simpl.
    unfold check_collisions. cbv zeta. rewrite Hbuild. simpl. exact Hrun. }
  split; [exact Hlr|]. split; [exact Hplace|].
  split; [apply checkpairs_of_NoDup, Hcl_nd|]. split; [exact Hpairs|].
  intros i lid Hi. split.
  - rewrite Hmarks. split.
    + intros [Hrep|(p & pr & il & f1 & ih & f2 & Hp & Hpr & Hil & Hf1 & Hih
                    & Hf2 & Hhit & Hwho)].
      { apply lookup_replicate in Hrep as [Hrep _]. discriminate. }
      destruct pr as [low high]. simpl in Hil, Hih.
      pose proof (list_elem_of_lookup_2 _ _ _ Hpr) as Hin.
      pose proof (proj1 (Hpairs low high) Hin) as (_ & Hlow & Hhigh & _).
      destruct (Hindex low Hlow) as (il' & Hil' & Hlil & _).
      destruct (Hindex high Hhigh) as (ih' & Hih' & Hlih & _).
      assert (il' = il) as -> by congruence.
      assert (ih' = ih) as -> by congruence.
      exists low, high, il, ih, f1, f2.
      split; [exact Hin|]. split; [|auto 10].
      destruct Hwho as [->| ->]; [left | right]; congruence.
    + intros (low & high & il & ih & f1 & f2 & Hin & Hwho & Hlil & Hlih
              & Hf1 & Hf2 & Hhit).
      right.
      apply list_elem_of_lookup in Hin as [p Hp].
      pose proof (list_elem_of_lookup_2 _ _ _ Hp) as Hin.
      pose proof (proj1 (Hpairs low high) Hin) as (_ & Hlow & Hhigh & _).
      destruct (Hindex low Hlow) as (il' & Hil' & Hlil' & _).
      destruct (Hindex high Hhigh) as (ih' & Hih' & Hlih' & _).
      assert (il' = il) as -> by (eapply NoDup_lookup; eassumption).
      assert (ih' = ih) as -> by (eapply NoDup_lookup; eassumption).
      exists p, (low, high), il, f1, ih, f2.
      split.
      { rewrite (schedule_Permutation rt Hrt). apply elem_of_seq.
        apply lookup_lt_Some in Hp. lia. }
      split; [exact Hp|]. simpl.
      do 5 (split; [assumption|]).
      destruct Hwho as [->| ->]; [left | right];
        eapply NoDup_lookup; eassumption.
  - destruct (lookup_lt_is_Some_2 result i) as [[|] Hb].
    + rewrite Hlr. eapply lookup_lt_Some; eassumption.
    + left; exact Hb.
    + right; exact Hb.
Qed.

Lemma hw_pair_closed (lid nb : Z) :
  lid ∈ [1%Z; 2%Z] → nb ∈ neighbors_at (neighbors hw_pair) lid →
  nb ∈ [1%Z; 2%Z].
Proof.
  intros Hlid Hnb.
  apply elem_of_cons in Hlid as [->|Hlid].
  - change (nb ∈ [2%Z]) in Hnb. by apply list_elem_of_further.
  - apply list_elem_of_singleton in Hlid as ->.
    change (nb ∈ [1%Z]) in Hnb.
    apply list_elem_of_singleton in Hnb as ->. apply list_elem_of_here.
Qed.

Lemma hw_pair_known (lid : Z) :
  lid ∈ [1%Z; 2%Z] →
  has_location hw_pair lid ∧ is_Some (neighbors hw_pair !! lid).
Proof.
  intros Hlid. apply elem_of_cons in Hlid as [->|Hlid].
  - split; [apply hw_pair_has_location_1 | eexists; reflexivity].
  - apply list_elem_of_singleton in Hlid as ->.
    split; [apply hw_pair_has_location_2 | eexists; reflexivity].
Qed.

(** Scenario S3 as a batch: both positioners of [hw_pair] sent to (3,0). *)
Lemma check_collisions_xy_marks_hits_witness :
  ∃ result : list bool,
    check_collisions_xy circles_overlap Omp.sequential hw_pair
      [1%Z; 2%Z] [(3, 0); (3, 0)] 2 = Some result ∧
    length result = 2%nat.
Proof.
  assert (Hnd : NoDup [1%Z; 2%Z]).
  { apply NoDup_cons. split; [|apply NoDup_singleton].
    intros H. apply list_elem_of_singleton in H. discriminate. }
  destruct (check_collisions_xy_marks_hits circles_overlap Omp.sequential
              hw_pair [1%Z; 2%Z] [(3, 0); (3, 0)] 2
              sequential_conforming Hnd eq_refl hw_pair_known hw_pair_closed)
    as (fpos & li & cl & result & _ & _ & Hres & Hlen & _).
  exists result. split; [exact Hres | exact Hlen].
Defined.

(** C1 as stated fails.  On the hardware constructed from [args_pair],
    whose locations 1 and 2 are neighbors, the batch check of the single
    supplied location 1 does not restrict the pairs to the supplied set: it
    lists the pair (1, 2), the lookup of 2 throws, and no vector is
    returned. *)
Lemma check_collisions_xy_not_restricted :
  match Hardware_new args_pair with
  | Some hw =>
      has_location hw 1 ∧ 2%Z ∈ neighbors_at (neighbors hw) 1 ∧
      check_collisions_xy circles_overlap Omp.sequential hw
        [1%Z] [(3, 0)] 1 = None
  | None => False
  end.
Proof.
  destruct (Hardware_new_has_locations args_pair
              args_pair_aligned args_pair_petals) as (hw & Hnew & Hhas).
  rewrite Hnew.
  assert (Hnb : 2%Z ∈ neighbors_at (neighbors hw) 1).
  { destruct (constructed_neighbors_spec args_pair hw Hnew 1%Z 2%Z)
      as (_ & _ & Hiff); [apply list_elem_of_here|].
    apply Hiff. exists [], 1%Z, [2%Z], 2%Z.
    split; [reflexivity|]. split; [apply list_elem_of_here|].
    split; [|auto].
    unfold center_at.
    rewrite (constructed_center args_pair hw 0 1%Z 0 0 Hnew eq_refl);
      [|intros [|[|j]] Hj; simpl in Hj; [lia | discriminate | discriminate]
       | reflexivity | reflexivity].
    rewrite (constructed_center args_pair hw 1 2%Z 6 0 Hnew eq_refl);
      [|intros [|[|j]] Hj; simpl in Hj; [lia | lia | discriminate]
       | reflexivity | reflexivity].
    unfold dist. simpl.
    replace ((0 - 6) * (0 - 6) + (0 - 0) * (0 - 0)) with (6 * 6) by lra.
    rewrite sqrt_square; lra. }
  split; [apply Hhas, list_elem_of_here|]. split; [exact Hnb|].
  unfold check_collisions_xy.
  destruct (loc_position_xy_multi _ _ _ _ _) as [fpos|]; simpl;
    [|reflexivity].
  apply (check_collisions_missing_neighbor circles_overlap Omp.sequential
           sequential_conforming hw [1%Z] fpos 1 1%Z 2%Z).
  - apply list_elem_of_here.
  - exact Hnb.
  - intros H. apply list_elem_of_singleton in H. discriminate.
Qed.

Section RepeatedLocation.

(** A target 100 mm away is out of reach of the arms of [hw_pair]. *)
Lemma hw_pair_out_of_reach (lid : Z) :
  lid ∈ [1%Z; 2%Z] →
  loc_position_xy hw_pair lid (100, 0) = Some (true, unit_square, unit_square).
Proof.
  pose proof float_epsilon_bounds as Heps.
  assert (Hfar : ∀ cx : R, 0 <= cx <= 6 →
            move_positioner_xy unit_square unit_square (cx, 0) (100, 0)
              3 3 0 0 (- PI) 0 PI PI
            = (true, unit_square, unit_square)).
  { intros cx Hcx. unfold move_positioner_xy, xy_to_thetaphi, sq, sq_scalar.
    cbv zeta. simpl fst. simpl snd.
    destruct (Rle_dec _ Libm.float_epsilon) as [H|_].
    { exfalso. apply Rabs_le_between in H. nra. }
    destruct (Rle_dec _ Libm.float_epsilon) as [H|_].
    { exfalso. apply Rabs_le_between in H. nra. }
    destruct (Rlt_dec _ _) as [_|H]; [reflexivity|].
    exfalso. apply H. nra. }
  intros Hlid. apply elem_of_cons in Hlid as [->|Hlid].
  - unfold loc_position_xy, hw_pair. cbn [loc_theta_excl loc_phi_excl loc_pos_xy_mm loc_theta_arm loc_phi_arm loc_theta_offset loc_phi_offset loc_theta_min loc_phi_min loc_theta_max loc_phi_max].
    rewrite !lookup_insert_eq. cbn [mbind option_bind].
    rewrite (Hfar 0) by lra. reflexivity.
  - apply list_elem_of_singleton in Hlid as ->.
    unfold loc_position_xy, hw_pair. cbn [loc_theta_excl loc_phi_excl loc_pos_xy_mm loc_theta_arm loc_phi_arm loc_theta_offset loc_phi_offset loc_theta_min loc_phi_min loc_theta_max loc_phi_max].
    rewrite !lookup_insert_ne by discriminate. rewrite !lookup_singleton_eq.
    cbn [mbind option_bind].
    rewrite (Hfar 6) by lra. reflexivity.
Qed.

(** Distinct ids are needed: with location 1 supplied twice, [loc_indx]
    keeps its second index only, and the first entry stays false although
    the pair (1, 2) hits. *)
Lemma check_collisions_xy_repeated_location :
  check_collisions_xy circles_overlap Omp.sequential hw_pair
    [1%Z; 1%Z; 2%Z] [(100, 0); (100, 0); (100, 0)] 1
  = Some [false; true; true].
Proof.
  destruct (loc_position_xy_multi_spec Omp.sequential sequential_conforming
              hw_pair [1%Z; 1%Z; 2%Z] [(100, 0); (100, 0); (100, 0)] 1
              eq_refl)
    as (fpos & Hrun & Hlen & Hcells).
  { intros lid Hlid. apply hw_pair_known.
    apply elem_of_cons in Hlid as [->|Hlid]; [apply list_elem_of_here|].
    exact Hlid. }
  assert (Hfpos : fpos = replicate 3 (true, (unit_square, unit_square))).
  { apply list_eq. intros i.
    destruct i as [|[|[|i]]].
    - destruct (Hcells 0%nat 1%Z (100, 0) eq_refl eq_refl) as (r & Hr & Hf).
      rewrite hw_pair_out_of_reach in Hr by apply list_elem_of_here.
      injection Hr as <-. exact Hf.
    - destruct (Hcells 1%nat 1%Z (100, 0) eq_refl eq_refl) as (r & Hr & Hf).
      rewrite hw_pair_out_of_reach in Hr by apply list_elem_of_here.
      injection Hr as <-. exact Hf.
    - destruct (Hcells 2%nat 2%Z (100, 0) eq_refl eq_refl) as (r & Hr & Hf).
      rewrite hw_pair_out_of_reach in Hr
        by apply list_elem_of_further, list_elem_of_here.
      injection Hr as <-. exact Hf.
    - rewrite lookup_ge_None_2 by (rewrite Hlen; simpl; lia). reflexivity. }
  unfold check_collisions_xy. rewrite Hrun, Hfpos.
  vm_compute. reflexivity.
Qed.

End RepeatedLocation.

(** * Further properties of the code *)

(** ** More on angles and inverse kinematics *)

Section AngleFacts.

Lemma cos_turn_back (x : R) : cos (x - 2 * PI) = cos x.
Proof.
  rewrite <- (cos_period (x - 2 * PI) 1). f_equal. simpl. ring.
Qed.

Lemma sin_turn_back (x : R) : sin (x - 2 * PI) = sin x.
Proof.
  rewrite <- (sin_period (x - 2 * PI) 1). f_equal. simpl. ring.
Qed.

Lemma cos_turn (x : R) : cos (x + 2 * PI) = cos x.
Proof. rewrite <- (cos_period x 1). f_equal. simpl. ring. Qed.

Lemma sin_turn (x : R) : sin (x + 2 * PI) = sin x.
Proof. rewrite <- (sin_period x 1). f_equal. simpl. ring. Qed.

(** The wrap of [_check_angle_range] does not change the direction. *)
Lemma check_angle_range_direction (ang ang_zero ang_min ang_max : R) :
  let w := (_check_angle_range ang ang_zero ang_min ang_max).2 in
  cos w = cos ang ∧ sin w = sin ang.
Proof.
  intros w.
  destruct (check_angle_range_spec ang ang_zero ang_min ang_max)
    as ([H|[H|H]] & _); fold w in H; rewrite H.
  - auto.
  - split; [apply cos_turn | apply sin_turn].
  - split; [apply cos_turn_back | apply sin_turn_back].
Qed.

(** What [xy_to_thetaphi] does in each of its four cases. *)
Lemma xy_to_thetaphi_cases (center position : dpair)
    (a b theta_zero phi_zero theta_min phi_min theta_max phi_max : R) :
  let offset := (position.1 - center.1, position.2 - center.2) in
  let s := offset.1 * offset.1 + offset.2 * offset.2 in
  let r := xy_to_thetaphi center position a b theta_zero phi_zero
                          theta_min phi_min theta_max phi_max in
  let checked (theta0 phi0 : R) :=
    ((_check_angle_range phi0 phi_zero phi_min phi_max).1
     || (_check_angle_range theta0 theta_zero theta_min theta_max).1,
     (_check_angle_range theta0 theta_zero theta_min theta_max).2,
     (_check_angle_range phi0 phi_zero phi_min phi_max).2) in
  (Rabs (s - (a + b) * (a + b)) <= Libm.float_epsilon ∧
   r = checked (Libm.atan2 offset.2 offset.1) 0) ∨
  (Rabs (s - (a + b) * (a + b)) > Libm.float_epsilon ∧
   Rabs ((a - b) * (a - b) - s) <= Libm.float_epsilon ∧
   r = checked (Libm.atan2 offset.2 offset.1) PI) ∨
  (Rabs (s - (a + b) * (a + b)) > Libm.float_epsilon ∧
   Rabs ((a - b) * (a - b) - s) > Libm.float_epsilon ∧
   ((a + b) * (a + b) < s ∨ s < (a - b) * (a - b)) ∧
   r = (true, 0, PI)) ∨
  (Rabs (s - (a + b) * (a + b)) > Libm.float_epsilon ∧
   Rabs ((a - b) * (a - b) - s) > Libm.float_epsilon ∧
   (a - b) * (a - b) <= s <= (a + b) * (a + b) ∧
   r = checked
         (Libm.atan2 offset.2 offset.1
          - acos ((a * a + s - b * b) / (2 * a * sqrt s)))
         (PI - acos ((a * a + b * b - s) / (2 * a * b)))).
Proof.
  intros offset s r checked.
  assert (Hchk : ∀ theta0 phi0 : R,
            (let '(bad_phi, phi) :=
               _check_angle_range phi0 phi_zero phi_min phi_max in
             let '(bad_theta, theta) :=
               _check_angle_range theta0 theta_zero theta_min theta_max in
             if bad_phi || bad_theta then (true, theta, phi)
             else (false, theta, phi))
            = checked theta0 phi0).
  { intros theta0 phi0. unfold checked.
    destruct (_check_angle_range phi0 phi_zero phi_min phi_max) as [bp p].
    destruct (_check_angle_range theta0 theta_zero theta_min theta_max)
      as [bt t].
    simpl. destruct (bp || bt); reflexivity. }
  subst r. unfold xy_to_thetaphi, sq, sq_scalar. cbv zeta.
  rewrite !Hchk. subst s offset. simpl fst. simpl snd.
  set (ox := position.1 - center.1). set (oy := position.2 - center.2).
  destruct (Rle_dec (Rabs (ox * ox + oy * oy - (a + b) * (a + b)))
                    Libm.float_epsilon) as [H1|H1];
    [left; split; [exact H1 | reflexivity]|].
  destruct (Rle_dec (Rabs ((a - b) * (a - b) - (ox * ox + oy * oy)))
                    Libm.float_epsilon) as [H2|H2];
    [right; left; split; [lra | split; [exact H2 | reflexivity]]|].
  destruct (Rlt_dec ((a + b) * (a + b)) (ox * ox + oy * oy)) as [H3|H3];
    [right; right; left; split; [lra | split; [lra | split;
       [left; exact H3 | reflexivity]]]|].
  destruct (Rlt_dec (ox * ox + oy * oy) ((a - b) * (a - b))) as [H4|H4];
    [right; right; left; split; [lra | split; [lra | split;
       [right; exact H4 | reflexivity]]]|].
  right; right; right.
  split; [lra | split; [lra | split; [lra | reflexivity]]].
Qed.

End AngleFacts.

Section Polar.

Lemma sqrt_sum_squares_scaled (x y : R) :
  x ≠ 0 → sqrt (x * x + y * y) = Rabs x * sqrt (1 + (y / x)²).
Proof.
  intros Hx.
  replace (x * x + y * y) with ((x * x) * (1 + (y / x)²))
    by (unfold Rsqr; field; exact Hx).
  rewrite sqrt_mult.
  - f_equal. change (x * x) with (x²). apply sqrt_Rsqr_abs.
  - nra.
  - unfold Rsqr. nra.
Qed.

(** [atan2 (y, x)] is the polar angle of the point [(x, y)]. *)
Lemma atan2_polar (x y : R) :
  0 < x * x + y * y →
  sqrt (x * x + y * y) * cos (Libm.atan2 y x) = x ∧
  sqrt (x * x + y * y) * sin (Libm.atan2 y x) = y.
Proof.
  intros Hs. unfold Libm.atan2.
  assert (Hq : 0 < sqrt (1 + (y / x)²)).
  { apply sqrt_lt_R0. unfold Rsqr. nra. }
  destruct (Rlt_dec 0 x) as [Hx|Hx].
  - rewrite sqrt_sum_squares_scaled by lra.
    rewrite Rabs_right by lra. rewrite cos_atan, sin_atan.
    split; field; lra.
  - destruct (Rlt_dec x 0) as [Hx'|Hx'].
    + rewrite sqrt_sum_squares_scaled by lra.
      rewrite Rabs_left by lra.
      destruct (Rle_dec 0 y) as [Hy|Hy].
      * rewrite neg_cos, neg_sin, cos_atan, sin_atan. split; field; lra.
      * replace (atan (y / x) - PI) with (- (- atan (y / x) + PI)) by ring.
        rewrite cos_neg, sin_neg, neg_cos, neg_sin, cos_neg, sin_neg.
        rewrite cos_atan, sin_atan. split; field; lra.
    + assert (x = 0) by lra. subst x.
      replace (0 * 0 + y * y) with (y * y) in * by ring.
      destruct (Rlt_dec 0 y) as [Hy|Hy].
      * rewrite sqrt_square by lra. rewrite cos_PI2, sin_PI2. lra.
      * destruct (Rlt_dec y 0) as [Hy'|Hy'].
        -- replace (y * y) with ((- y) * (- y)) by ring.
           rewrite sqrt_square by lra.
           rewrite cos_neg, sin_neg, cos_PI2, sin_PI2. lra.
        -- assert (y = 0) by lra. subst y. lra.
Qed.

End Polar.

Section Elbow.

Lemma sqrt_one_minus_sqr (c : R) :
  -1 <= c <= 1 → 0 <= sqrt (1 - c²) ∧ c * c + sqrt (1 - c²) * sqrt (1 - c²) = 1.
Proof.
  intros Hc. split; [apply sqrt_pos|].
  rewrite sqrt_sqrt; unfold Rsqr; nra.
Qed.

Lemma quotient_between (n d : R) :
  0 < d → - d <= n <= d → -1 <= n / d <= 1.
Proof.
  intros Hd Hn. pose proof (Rinv_0_lt_compat d Hd) as Hi.
  assert (d * / d = 1) by (apply Rinv_r; lra).
  unfold Rdiv. split; nra.
Qed.

(** The two-arm solution of [xy_to_thetaphi] in the interior of the
    annulus: the angles it computes before the range check put the end of
    the second arm on the offset. *)
Lemma elbow_solution (a b ox oy : R) :
  0 < a → 0 < b → 0 < ox * ox + oy * oy →
  (a - b) * (a - b) <= ox * ox + oy * oy <= (a + b) * (a + b) →
  let s := ox * ox + oy * oy in
  let theta := Libm.atan2 oy ox - acos ((a * a + s - b * b) / (2 * a * sqrt s)) in
  let phi := PI - acos ((a * a + b * b - s) / (2 * a * b)) in
  a * cos theta + b * cos (theta + phi) = ox ∧
  a * sin theta + b * sin (theta + phi) = oy.
Proof.
  intros Ha Hb Hs Hreach s.
  destruct (atan2_polar ox oy Hs) as [Hpx Hpy]. fold s in Hpx, Hpy, Hs, Hreach.
  set (q := sqrt s) in *.
  assert (Hq : 0 < q) by (apply sqrt_lt_R0; exact Hs).
  assert (Hqq : q * q = s) by (apply sqrt_sqrt; lra).
  clearbody q. clearbody s. subst s. intros theta phi.
  set (ct := (a * a + q * q - b * b) / (2 * a * q)) in *.
  set (co := (a * a + b * b - q * q) / (2 * a * b)) in *.
  assert (Hqhi : q <= a + b) by nra.
  assert (Hqlo1 : a - b <= q) by nra.
  assert (Hqlo2 : b - a <= q) by nra.
  assert (Hab : 0 < a * b) by nra.
  assert (Haq : 0 < a * q) by nra.
  assert (Hct : -1 <= ct <= 1).
  { unfold ct. apply quotient_between; [lra|]. split; nra. }
  assert (Hco : -1 <= co <= 1).
  { unfold co. apply quotient_between; [lra|]. split; nra. }
  destruct (sqrt_one_minus_sqr ct Hct) as [Hst0 Hst].
  destruct (sqrt_one_minus_sqr co Hco) as [Hso0 Hso].
  assert (H1 : a - b * co = q * ct) by (unfold co, ct; field; lra).
  assert (H2 : b * sqrt (1 - co²) = q * sqrt (1 - ct²)).
  { revert Hst0 Hst Hso0 Hso.
    generalize (sqrt (1 - ct²)) (sqrt (1 - co²)). intros St So Hst0 Hst Hso0 Hso.
    assert (Hsq : b * b * (1 - co * co) = q * q * (1 - ct * ct))
      by (unfold co, ct; field; lra).
    assert (Hsq' : (b * So) * (b * So) = (q * St) * (q * St)) by nra.
    assert (0 <= b * So) by nra.
    assert (0 <= q * St) by nra.
    nra. }
  assert (Hcphi : cos phi = - co).
  { unfold phi. rewrite cos_minus, cos_PI, sin_PI, cos_acos by exact Hco.
    ring. }
  assert (Hsphi : sin phi = sqrt (1 - co²)).
  { unfold phi. rewrite sin_minus, cos_PI, sin_PI, sin_acos, cos_acos
      by exact Hco. ring. }
  assert (Hctheta : cos theta
                    = cos (Libm.atan2 oy ox) * ct
                      + sin (Libm.atan2 oy ox) * sqrt (1 - ct²)).
  { unfold theta. rewrite cos_minus, cos_acos, sin_acos by exact Hct.
    reflexivity. }
  assert (Hstheta : sin theta
                    = sin (Libm.atan2 oy ox) * ct
                      - cos (Libm.atan2 oy ox) * sqrt (1 - ct²)).
  { unfold theta. rewrite sin_minus, cos_acos, sin_acos by exact Hct.
    reflexivity. }
  rewrite cos_plus, sin_plus, Hcphi, Hsphi, Hctheta, Hstheta.
  set (ca := cos (Libm.atan2 oy ox)) in *.
  set (sa := sin (Libm.atan2 oy ox)) in *.
  set (St := sqrt (1 - ct²)) in *. set (So := sqrt (1 - co²)) in *.
  split.
  - replace (a * (ca * ct + sa * St)
             + b * ((ca * ct + sa * St) * - co - (sa * ct - ca * St) * So))
      with ((ca * ct + sa * St) * (a - b * co)
            - (sa * ct - ca * St) * (b * So)) by ring.
    rewrite H1, H2.
    replace ((ca * ct + sa * St) * (q * ct) - (sa * ct - ca * St) * (q * St))
      with (q * ca * (ct * ct + St * St)) by ring.
    rewrite Hst. lra.
  - replace (a * (sa * ct - ca * St)
             + b * ((sa * ct - ca * St) * - co + (ca * ct + sa * St) * So))
      with ((sa * ct - ca * St) * (a - b * co)
            + (ca * ct + sa * St) * (b * So)) by ring.
    rewrite H1, H2.
    replace ((sa * ct - ca * St) * (q * ct) + (ca * ct + sa * St) * (q * St))
      with (q * sa * (ct * ct + St * St)) by ring.
    rewrite Hst. lra.
Qed.

End Elbow.

(** X1. [_check_angle_range] keeps the direction of the angle, and an angle
    it accepts is a fixed point: a second check with the same limits
    returns it unchanged and unflagged. *)
Theorem check_angle_range_direction_stable :
  ∀ ang ang_zero ang_min ang_max : R,
    let r := _check_angle_range ang ang_zero ang_min ang_max in
    cos r.2 = cos ang ∧ sin r.2 = sin ang ∧
    (r.1 = false →
     _check_angle_range r.2 ang_zero ang_min ang_max = (false, r.2)).
Proof.
  intros ang ang_zero ang_min ang_max r.
  destruct (check_angle_range_direction ang ang_zero ang_min ang_max)
    as [Hc Hs].
  split; [exact Hc|]. split; [exact Hs|].
  intros Hok. apply check_angle_range_inside.
  apply (check_angle_range_spec ang ang_zero ang_min ang_max). exact Hok.
Qed.

(** X2. With limits that span a full turn, [_check_angle_range] accepts
    every angle within one turn of the range; an angle more than one turn
    away from a non-empty range is flagged, as the code wraps only once. *)
Theorem check_angle_range_one_turn :
  ∀ ang ang_zero ang_min ang_max : R,
    ang_min <= ang_max →
    let r := _check_angle_range ang ang_zero ang_min ang_max in
    (2 * PI <= ang_max - ang_min →
     ang_zero + ang_min - 2 * PI <= ang <= ang_zero + ang_max + 2 * PI →
     r.1 = false) ∧
    (ang < ang_zero + ang_min - 2 * PI ∨ ang > ang_zero + ang_max + 2 * PI →
     r.1 = true).
Proof.
  intros ang ang_zero ang_min ang_max Hrange r.
  pose proof PI_RGT_0 as Hpi.
  subst r. unfold _check_angle_range; cbv zeta.
  destruct (Rlt_dec ang (ang_zero + ang_min)) as [H1|H1];
    match goal with
    | |- context [Rgt_dec ?a ?b] => destruct (Rgt_dec a b) as [H2|H2]
    end;
    match goal with
    | |- context [bool_decide (?a < ?b)] =>
        destruct (bool_decide_reflect (a < b)) as [H3|H3]
    end;
    match goal with
    | |- context [bool_decide (?a > ?b)] =>
        destruct (bool_decide_reflect (a > b)) as [H4|H4]
    | |- _ => idtac
    end; simpl; split; intros; try reflexivity; try lra;
    exfalso; intuition lra.
Qed.

(** The angle -5 against the limits [-4, 4]: wrapped once and accepted. *)
Lemma check_angle_range_one_turn_witness :
  (_check_angle_range (- 5) 0 (- 4) 4).1 = false.
Proof.
  assert (Hpi : PI <= 7 / 2) by apply PI_le_7_2.
  pose proof PI2_1 as Hpi0.
  refine (proj1 (check_angle_range_one_turn (- 5) 0 (- 4) 4 _) _ _); lra.
Defined.

(** What an accepted result of [xy_to_thetaphi] satisfies. *)
Lemma xy_to_thetaphi_accepted :
  ∀ (center position : dpair)
    (a b theta_zero phi_zero theta_min phi_min theta_max phi_max : R),
    let offset := (position.1 - center.1, position.2 - center.2) in
    let s := offset.1 * offset.1 + offset.2 * offset.2 in
    let r := xy_to_thetaphi center position a b theta_zero phi_zero
                            theta_min phi_min theta_max phi_max in
    r.1.1 = false →
    theta_zero + theta_min <= r.1.2 <= theta_zero + theta_max ∧
    phi_zero + phi_min <= r.2 <= phi_zero + phi_max ∧
    (Rabs (s - (a + b) * (a + b)) <= Libm.float_epsilon ∨
     Rabs ((a - b) * (a - b) - s) <= Libm.float_epsilon ∨
     (a - b) * (a - b) <= s <= (a + b) * (a + b)).
Proof.
  intros center position a b theta_zero phi_zero theta_min phi_min
         theta_max phi_max offset s r Hok.
  assert (Hchecked : ∀ theta0 phi0 : R,
    ((_check_angle_range phi0 phi_zero phi_min phi_max).1
     || (_check_angle_range theta0 theta_zero theta_min theta_max).1) = false →
    theta_zero + theta_min
      <= (_check_angle_range theta0 theta_zero theta_min theta_max).2
      <= theta_zero + theta_max ∧
    phi_zero + phi_min
      <= (_check_angle_range phi0 phi_zero phi_min phi_max).2
      <= phi_zero + phi_max).
  { intros theta0 phi0 Hor. apply orb_false_elim in Hor as [Hp Ht].
    split.
    - apply (check_angle_range_spec theta0 theta_zero theta_min theta_max).
      exact Ht.
    - apply (check_angle_range_spec phi0 phi_zero phi_min phi_max).
      exact Hp. }
  destruct (xy_to_thetaphi_cases center position a b theta_zero phi_zero
              theta_min phi_min theta_max phi_max)
    as [(H1 & Hr) | [(H1 & H2 & Hr) | [(H1 & H2 & H3 & Hr)
                                       | (H1 & H2 & H3 & Hr)]]];
    fold offset in H1, Hr; fold s in H1, Hr; fold r in Hr;
    try (fold offset in H2; fold s in H2);
    try (fold offset in H3; fold s in H3);
    rewrite Hr in Hok |- *; simpl in Hok |- *.
  - destruct (Hchecked _ _ Hok) as [Ht Hp]. auto.
  - destruct (Hchecked _ _ Hok) as [Ht Hp]. auto.
  - discriminate.
  - destruct (Hchecked _ _ Hok) as [Ht Hp]. auto.
Qed.

(** X3. [xy_to_thetaphi] reports success exactly when both angles it
    returns lie within their limits and the squared distance of the target
    from the center is on one of the two edges of the annulus (within the
    float tolerance) or between them. *)
Theorem xy_to_thetaphi_success_in_limits :
  ∀ (center position : dpair)
    (a b theta_zero phi_zero theta_min phi_min theta_max phi_max : R),
    let offset := (position.1 - center.1, position.2 - center.2) in
    let s := offset.1 * offset.1 + offset.2 * offset.2 in
    let r := xy_to_thetaphi center position a b theta_zero phi_zero
                            theta_min phi_min theta_max phi_max in
    r.1.1 = false
    ↔ theta_zero + theta_min <= r.1.2 <= theta_zero + theta_max ∧
      phi_zero + phi_min <= r.2 <= phi_zero + phi_max ∧
      (Rabs (s - (a + b) * (a + b)) <= Libm.float_epsilon ∨
       Rabs ((a - b) * (a - b) - s) <= Libm.float_epsilon ∨
       (a - b) * (a - b) <= s <= (a + b) * (a + b)).
Proof.
  intros center position a b theta_zero phi_zero theta_min phi_min
         theta_max phi_max offset s r.
  split.
  { apply (xy_to_thetaphi_accepted center position a b theta_zero phi_zero
             theta_min phi_min theta_max phi_max). }
  intros (Ht & Hp & Hreach).
  assert (Hchecked : ∀ theta0 phi0 : R,
    theta_zero + theta_min
      <= (_check_angle_range theta0 theta_zero theta_min theta_max).2
      <= theta_zero + theta_max →
    phi_zero + phi_min
      <= (_check_angle_range phi0 phi_zero phi_min phi_max).2
      <= phi_zero + phi_max →
    ((_check_angle_range phi0 phi_zero phi_min phi_max).1
     || (_check_angle_range theta0 theta_zero theta_min theta_max).1)
    = false).
  { intros theta0 phi0 Ht0 Hp0.
    apply (check_angle_range_spec theta0 theta_zero theta_min theta_max)
      in Ht0.
    apply (check_angle_range_spec phi0 phi_zero phi_min phi_max) in Hp0.
    rewrite Ht0, Hp0. reflexivity. }
  destruct (xy_to_thetaphi_cases center position a b theta_zero phi_zero
              theta_min phi_min theta_max phi_max)
    as [(H1 & Hr) | [(H1 & H2 & Hr) | [(H1 & H2 & H3 & Hr)
                                       | (H1 & H2 & H3 & Hr)]]];
    fold offset in H1, Hr; fold s in H1, Hr; fold r in Hr;
    try (fold offset in H2; fold s in H2);
    try (fold offset in H3; fold s in H3);
    rewrite Hr in Ht, Hp |- *; cbn [fst snd] in Ht, Hp |- *.
  - apply Hchecked; assumption.
  - apply Hchecked; assumption.
  - exfalso. destruct Hreach as [He | [He | Hin]]; lra.
  - apply Hchecked; assumption.
Qed.

(** The target (4, 0) for two arms of 3 mm at the origin is accepted. *)
Lemma xy_to_thetaphi_accepts_sample :
  (xy_to_thetaphi (0, 0) (4, 0) 3 3 0 0 (- PI) 0 PI PI).1.1 = false.
Proof.
  pose proof float_epsilon_bounds as Heps.
  pose proof PI_RGT_0 as Hpi.
  destruct (xy_to_thetaphi_cases (0, 0) (4, 0) 3 3 0 0 (- PI) 0 PI PI)
    as [(H1 & Hr) | [(H1 & H2 & Hr) | [(H1 & H2 & H3 & Hr)
                                       | (H1 & H2 & H3 & Hr)]]];
    simpl fst in *; simpl snd in *.
  - exfalso. apply Rabs_le_between in H1. lra.
  - exfalso. apply Rabs_le_between in H2. lra.
  - exfalso. lra.
  - rewrite Hr. simpl.
    assert (Hat : Libm.atan2 (0 - 0) (4 - 0) = 0).
    { unfold Libm.atan2. destruct (Rlt_dec 0 (4 - 0)); [|lra].
      replace ((0 - 0) / (4 - 0)) with 0 by field. apply atan_0. }
    rewrite Hat.
    match goal with
    | |- context [acos ?u / 1] => idtac
    | |- _ => idtac
    end.
    rewrite !check_angle_range_inside; [reflexivity | |].
    + match goal with |- context [acos ?u] => pose proof (acos_bound u) end.
      lra.
    + match goal with |- context [acos ?u] => pose proof (acos_bound u) end.
      lra.
Qed.

Lemma xy_to_thetaphi_success_in_limits_witness :
  let r := xy_to_thetaphi (0, 0) (4, 0) 3 3 0 0 (- PI) 0 PI PI in
  0 + - PI <= r.1.2 <= 0 + PI ∧ 0 + 0 <= r.2 <= 0 + PI.
Proof.
  intros r.
  pose proof (proj1 (xy_to_thetaphi_success_in_limits (0, 0) (4, 0) 3 3 0 0
                       (- PI) 0 PI PI) xy_to_thetaphi_accepts_sample) as H.
  split; [exact (proj1 H) | exact (proj1 (proj2 H))].
Defined.

(** X4. For arm lengths of the same sign, a target beyond the reach of the
    two arms, or inside the hole the arms cannot fold into, by more than
    the float tolerance makes [xy_to_thetaphi] return failure with the
    angles (0, PI), whatever the limits. *)
Theorem xy_to_thetaphi_out_of_reach :
  ∀ (center position : dpair)
    (a b theta_zero phi_zero theta_min phi_min theta_max phi_max : R),
    let offset := (position.1 - center.1, position.2 - center.2) in
    let s := offset.1 * offset.1 + offset.2 * offset.2 in
    0 <= a * b →
    s > (a + b) * (a + b) + Libm.float_epsilon ∨
    s < (a - b) * (a - b) - Libm.float_epsilon →
    xy_to_thetaphi center position a b theta_zero phi_zero
                   theta_min phi_min theta_max phi_max
    = (true, 0, PI).
Proof.
  intros center position a b theta_zero phi_zero theta_min phi_min
         theta_max phi_max offset s Hab Hout.
  pose proof float_epsilon_bounds as Heps.
  destruct (xy_to_thetaphi_cases center position a b theta_zero phi_zero
              theta_min phi_min theta_max phi_max)
    as [(H1 & Hr) | [(H1 & H2 & Hr) | [(H1 & H2 & H3 & Hr)
                                       | (H1 & H2 & H3 & Hr)]]];
    fold offset in H1, Hr; fold s in H1, Hr;
    try (fold offset in H2; fold s in H2);
    try (fold offset in H3; fold s in H3).
  - exfalso. apply Rabs_le_between in H1. nra.
  - exfalso. apply Rabs_le_between in H2. nra.
  - exact Hr.
  - exfalso. lra.
Qed.

Lemma xy_to_thetaphi_out_of_reach_witness :
  xy_to_thetaphi (0, 0) (10, 0) 3 3 0 0 (- PI) 0 PI PI = (true, 0, PI).
Proof.
  pose proof float_epsilon_bounds as Heps.
  apply xy_to_thetaphi_out_of_reach; simpl; [lra | left; lra].
Defined.

Section InteriorFacts.

(** The two-arm solution after the range check: wrapping by a full turn
    does not move the end of the second arm. *)
Lemma wrapped_elbow_solution (a b ox oy : R)
    (theta_zero phi_zero theta_min phi_min theta_max phi_max : R) :
  0 < a → 0 < b → 0 < ox * ox + oy * oy →
  (a - b) * (a - b) <= ox * ox + oy * oy <= (a + b) * (a + b) →
  let s := ox * ox + oy * oy in
  let theta :=
    (_check_angle_range
       (Libm.atan2 oy ox - acos ((a * a + s - b * b) / (2 * a * sqrt s)))
       theta_zero theta_min theta_max).2 in
  let phi :=
    (_check_angle_range (PI - acos ((a * a + b * b - s) / (2 * a * b)))
                        phi_zero phi_min phi_max).2 in
  a * cos theta + b * cos (theta + phi) = ox ∧
  a * sin theta + b * sin (theta + phi) = oy.
Proof.
  intros Ha Hb Hs Hreach s.
  pose proof (elbow_solution a b ox oy Ha Hb Hs Hreach) as Hsol.
  cbv zeta in Hsol. fold s in Hsol.
  set (theta0 := Libm.atan2 oy ox
                 - acos ((a * a + s - b * b) / (2 * a * sqrt s))) in *.
  set (phi0 := PI - acos ((a * a + b * b - s) / (2 * a * b))) in *.
  destruct Hsol as [Hx Hy].
  destruct (check_angle_range_direction theta0 theta_zero theta_min theta_max)
    as [Hct Hst].
  destruct (check_angle_range_direction phi0 phi_zero phi_min phi_max)
    as [Hcp Hsp].
  intros theta phi. fold theta in Hct, Hst. fold phi in Hcp, Hsp.
  rewrite (cos_plus theta phi), (sin_plus theta phi), Hct, Hst, Hcp, Hsp.
  rewrite (cos_plus theta0 phi0) in Hx. rewrite (sin_plus theta0 phi0) in Hy.
  split; assumption.
Qed.

(** Away from both edges and within reach, [xy_to_thetaphi] takes its last
    branch. *)
Lemma xy_to_thetaphi_interior (center position : dpair)
    (a b theta_zero phi_zero theta_min phi_min theta_max phi_max : R) :
  let offset := (position.1 - center.1, position.2 - center.2) in
  let s := offset.1 * offset.1 + offset.2 * offset.2 in
  Rabs (s - (a + b) * (a + b)) > Libm.float_epsilon →
  Rabs ((a - b) * (a - b) - s) > Libm.float_epsilon →
  (a - b) * (a - b) <= s <= (a + b) * (a + b) →
  0 < s ∧
  (xy_to_thetaphi center position a b theta_zero phi_zero
                  theta_min phi_min theta_max phi_max).1.2
  = (_check_angle_range
       (Libm.atan2 offset.2 offset.1
        - acos ((a * a + s - b * b) / (2 * a * sqrt s)))
       theta_zero theta_min theta_max).2 ∧
  (xy_to_thetaphi center position a b theta_zero phi_zero
                  theta_min phi_min theta_max phi_max).2
  = (_check_angle_range (PI - acos ((a * a + b * b - s) / (2 * a * b)))
                        phi_zero phi_min phi_max).2.
Proof.
  intros offset s He1 He2 Hreach.
  pose proof float_epsilon_bounds as Heps.
  split.
  { pose proof (Rle_0_sqr (a - b)) as Hsq. unfold Rsqr in Hsq.
    unfold Rabs in He2. destruct (Rcase_abs ((a - b) * (a - b) - s)); lra. }
  destruct (xy_to_thetaphi_cases center position a b theta_zero phi_zero
              theta_min phi_min theta_max phi_max)
    as [(H1 & Hr) | [(H1 & H2 & Hr) | [(H1 & H2 & H3 & Hr)
                                       | (H1 & H2 & H3 & Hr)]]];
    fold offset in H1, Hr; fold s in H1, Hr;
    try (fold offset in H2; fold s in H2);
    try (fold offset in H3; fold s in H3);
    try (exfalso; lra).
  rewrite Hr. split; reflexivity.
Qed.

End InteriorFacts.

(** X5. Strictly inside the annulus (away from both edges by more than the
    float tolerance) and for positive arm lengths, the angles returned by
    [xy_to_thetaphi] solve the two-arm kinematics: the theta arm turned by
    theta followed by the phi arm turned by theta + phi ends on the target,
    whether or not the angles pass the range check. *)
Theorem xy_to_thetaphi_reaches_position :
  ∀ (center position : dpair)
    (a b theta_zero phi_zero theta_min phi_min theta_max phi_max : R),
    let offset := (position.1 - center.1, position.2 - center.2) in
    let s := offset.1 * offset.1 + offset.2 * offset.2 in
    let r := xy_to_thetaphi center position a b theta_zero phi_zero
                            theta_min phi_min theta_max phi_max in
    0 < a → 0 < b →
    Rabs (s - (a + b) * (a + b)) > Libm.float_epsilon →
    Rabs ((a - b) * (a - b) - s) > Libm.float_epsilon →
    (a - b) * (a - b) <= s <= (a + b) * (a + b) →
    center.1 + a * cos r.1.2 + b * cos (r.1.2 + r.2) = position.1 ∧
    center.2 + a * sin r.1.2 + b * sin (r.1.2 + r.2) = position.2.
Proof.
  intros center position a b theta_zero phi_zero theta_min phi_min
         theta_max phi_max offset s r Ha Hb He1 He2 Hreach.
  destruct (xy_to_thetaphi_interior center position a b theta_zero phi_zero
              theta_min phi_min theta_max phi_max He1 He2 Hreach)
    as (Hs & Htheta & Hphi).
  destruct (wrapped_elbow_solution a b offset.1 offset.2 theta_zero phi_zero
              theta_min phi_min theta_max phi_max Ha Hb Hs Hreach)
    as [Hx Hy].
  subst r s offset. cbn [fst snd] in *.
  rewrite Htheta, Hphi. split; lra.
Qed.

Lemma xy_to_thetaphi_reaches_position_witness :
  let r := xy_to_thetaphi (0, 0) (4, 0) 3 3 0 0 (- PI) 0 PI PI in
  0 + 3 * cos r.1.2 + 3 * cos (r.1.2 + r.2) = 4 ∧
  0 + 3 * sin r.1.2 + 3 * sin (r.1.2 + r.2) = 0.
Proof.
  pose proof float_epsilon_bounds as Heps.
  apply (xy_to_thetaphi_reaches_position (0, 0) (4, 0) 3 3 0 0
           (- PI) 0 PI PI); simpl; try lra.
  - unfold Rabs. destruct (Rcase_abs _); lra.
  - unfold Rabs. destruct (Rcase_abs _); lra.
Defined.

(** X6. On the edges of the annulus [xy_to_thetaphi] stretches the arms
    (phi = 0) or folds them (phi = PI) along the direction of the target:
    the end of the phi arm lies on the line from the center through the
    target, at the signed distance [a + b] on the outer edge and [a - b] on
    the inner edge. *)
Theorem xy_to_thetaphi_edges_along_target :
  ∀ (center position : dpair)
    (a b theta_zero phi_zero theta_min phi_min theta_max phi_max : R),
    let offset := (position.1 - center.1, position.2 - center.2) in
    let s := offset.1 * offset.1 + offset.2 * offset.2 in
    let r := xy_to_thetaphi center position a b theta_zero phi_zero
                            theta_min phi_min theta_max phi_max in
    let tip := (center.1 + a * cos r.1.2 + b * cos (r.1.2 + r.2),
                center.2 + a * sin r.1.2 + b * sin (r.1.2 + r.2)) in
    0 < s →
    (Rabs (s - (a + b) * (a + b)) <= Libm.float_epsilon →
     sqrt s * (tip.1 - center.1) = (a + b) * offset.1 ∧
     sqrt s * (tip.2 - center.2) = (a + b) * offset.2) ∧
    (Rabs (s - (a + b) * (a + b)) > Libm.float_epsilon →
     Rabs ((a - b) * (a - b) - s) <= Libm.float_epsilon →
     sqrt s * (tip.1 - center.1) = (a - b) * offset.1 ∧
     sqrt s * (tip.2 - center.2) = (a - b) * offset.2).
Proof.
  intros center position a b theta_zero phi_zero theta_min phi_min
         theta_max phi_max offset s r tip Hs.
  destruct (atan2_polar offset.1 offset.2 Hs) as [Hpx Hpy].
  fold s in Hpx, Hpy.
  assert (Hdir : ∀ theta0 phi0 : R,
            let t := (_check_angle_range theta0 theta_zero theta_min
                                         theta_max).2 in
            let p := (_check_angle_range phi0 phi_zero phi_min phi_max).2 in
            cos t = cos theta0 ∧ sin t = sin theta0 ∧
            cos (t + p) = cos (theta0 + phi0) ∧
            sin (t + p) = sin (theta0 + phi0)).
  { intros theta0 phi0 t p.
    destruct (check_angle_range_direction theta0 theta_zero theta_min
                theta_max) as [Hct Hst].
    destruct (check_angle_range_direction phi0 phi_zero phi_min phi_max)
      as [Hcp Hsp].
    fold t in Hct, Hst. fold p in Hcp, Hsp.
    rewrite !cos_plus, !sin_plus, Hct, Hst, Hcp, Hsp. auto. }
  destruct (xy_to_thetaphi_cases center position a b theta_zero phi_zero
              theta_min phi_min theta_max phi_max)
    as [(H1 & Hr) | [(H1 & H2 & Hr) | [(H1 & H2 & H3 & Hr)
                                       | (H1 & H2 & H3 & Hr)]]];
    fold offset in H1, Hr; fold s in H1, Hr; fold r in Hr;
    try (fold offset in H2; fold s in H2);
    try (fold offset in H3; fold s in H3);
    (split; [intros He1 | intros He1 He2]); try (exfalso; lra).
  - unfold tip. rewrite Hr. cbn [fst snd].
    destruct (Hdir (Libm.atan2 offset.2 offset.1) 0) as (Hc & Hs' & Hc2 & Hs2).
    rewrite Hc, Hs', Hc2, Hs2, Rplus_0_r.
    set (ca := cos (Libm.atan2 offset.2 offset.1)) in *.
    set (sa := sin (Libm.atan2 offset.2 offset.1)) in *.
    split; [rewrite <- Hpx | rewrite <- Hpy]; ring.
  - unfold tip. rewrite Hr. cbn [fst snd].
    destruct (Hdir (Libm.atan2 offset.2 offset.1) PI) as (Hc & Hs' & Hc2 & Hs2).
    rewrite Hc, Hs', Hc2, Hs2, neg_cos, neg_sin.
    set (ca := cos (Libm.atan2 offset.2 offset.1)) in *.
    set (sa := sin (Libm.atan2 offset.2 offset.1)) in *.
    split; [rewrite <- Hpx | rewrite <- Hpy]; ring.
Qed.

Lemma xy_to_thetaphi_edges_along_target_witness :
  let r := xy_to_thetaphi (0, 0) (6, 0) 3 3 0 0 (- PI) 0 PI PI in
  sqrt ((6 - 0) * (6 - 0) + (0 - 0) * (0 - 0))
  * (0 + 3 * cos r.1.2 + 3 * cos (r.1.2 + r.2) - 0) = (3 + 3) * (6 - 0).
Proof.
  pose proof float_epsilon_bounds as Heps.
  refine (proj1 (proj1 (xy_to_thetaphi_edges_along_target (0, 0) (6, 0) 3 3
                          0 0 (- PI) 0 PI PI _) _)); simpl.
  - lra.
  - unfold Rabs. destruct (Rcase_abs _); lra.
Defined.

(** Angles within the limits pass the check of [move_positioner_thetaphi]
    as they are, and the shapes are moved by them. *)
Lemma move_positioner_thetaphi_inside (shptheta shpphi : shape)
    (center : dpair) (theta phi : R)
    (a b theta_zero phi_zero theta_min phi_min theta_max phi_max : R) :
  theta_zero + theta_min <= theta <= theta_zero + theta_max →
  phi_zero + phi_min <= phi <= phi_zero + phi_max →
  move_positioner_thetaphi shptheta shpphi center theta phi a b
    theta_zero phi_zero theta_min phi_min theta_max phi_max
  = (false,
     transl center (rotation_origin (cos theta, sin theta) shptheta),
     transl center
       (rotation (cos phi, sin phi)
          (rotation_origin (cos theta, sin theta) (transl (a, 0) shpphi)))).
Proof.
  intros Ht Hp. unfold move_positioner_thetaphi.
  rewrite (check_angle_range_inside phi phi_zero phi_min phi_max Hp).
  rewrite (check_angle_range_inside theta theta_zero theta_min theta_max Ht).
  reflexivity.
Qed.

(** [move_positioner_xy] in terms of the result of [xy_to_thetaphi]. *)
Lemma move_positioner_xy_flag_shapes :
  ∀ (shptheta shpphi : shape) (center position : dpair)
    (a b theta_zero phi_zero theta_min phi_min theta_max phi_max : R),
    let r := xy_to_thetaphi center position a b theta_zero phi_zero
                            theta_min phi_min theta_max phi_max in
    let theta := r.1.2 in
    let phi := r.2 in
    move_positioner_xy shptheta shpphi center position a b
      theta_zero phi_zero theta_min phi_min theta_max phi_max
    = if r.1.1 then (true, shptheta, shpphi)
      else (false,
            transl center (rotation_origin (cos theta, sin theta) shptheta),
            transl center
              (rotation (cos phi, sin phi)
                 (rotation_origin (cos theta, sin theta)
                    (transl (a, 0) shpphi)))).
Proof.
  intros shptheta shpphi center position a b theta_zero phi_zero
         theta_min phi_min theta_max phi_max r theta phi.
  unfold move_positioner_xy. fold r.
  pose proof (xy_to_thetaphi_accepted center position a b
                theta_zero phi_zero theta_min phi_min theta_max phi_max)
    as Hin. cbv zeta in Hin. fold r in Hin.
  subst theta phi. destruct r as [[fail theta] phi]. cbn [fst snd] in *.
  destruct fail; [reflexivity|].
  destruct (Hin eq_refl) as (Ht & Hp & _).
  unfold move_positioner_thetaphi.
  rewrite (check_angle_range_inside phi phi_zero phi_min phi_max Hp).
  rewrite (check_angle_range_inside theta theta_zero theta_min theta_max Ht).
  reflexivity.
Qed.

(** X7. [move_positioner_xy] fails exactly when [xy_to_thetaphi] does and
    then leaves both shapes as they were; otherwise the range check that
    [move_positioner_thetaphi] repeats neither rejects nor changes the
    angles, and the shapes are the rigid motions by the angles of
    [xy_to_thetaphi]. *)
Theorem move_positioner_xy_composition :
  ∀ (shptheta shpphi : shape) (center position : dpair)
    (a b theta_zero phi_zero theta_min phi_min theta_max phi_max : R),
    let r := xy_to_thetaphi center position a b theta_zero phi_zero
                            theta_min phi_min theta_max phi_max in
    let theta := r.1.2 in
    let phi := r.2 in
    move_positioner_xy shptheta shpphi center position a b
      theta_zero phi_zero theta_min phi_min theta_max phi_max
    = (if r.1.1 then (true, shptheta, shpphi)
       else move_positioner_thetaphi shptheta shpphi center theta phi a b
              theta_zero phi_zero theta_min phi_min theta_max phi_max) ∧
    (r.1.1 = false →
     _check_angle_range theta theta_zero theta_min theta_max
     = (false, theta) ∧
     _check_angle_range phi phi_zero phi_min phi_max = (false, phi) ∧
     move_positioner_xy shptheta shpphi center position a b
       theta_zero phi_zero theta_min phi_min theta_max phi_max
     = (false,
        transl center (rotation_origin (cos theta, sin theta) shptheta),
        transl center
          (rotation (cos phi, sin phi)
             (rotation_origin (cos theta, sin theta)
                (transl (a, 0) shpphi))))).
Proof.
  intros shptheta shpphi center position a b theta_zero phi_zero
         theta_min phi_min theta_max phi_max r theta phi.
  pose proof (xy_to_thetaphi_accepted center position a b
                theta_zero phi_zero theta_min phi_min theta_max phi_max)
    as Hin. cbv zeta in Hin. fold r in Hin.
  split.
  - unfold move_positioner_xy. fold r. subst theta phi.
    destruct r as [[fail t] p]. cbn [fst snd].
    destruct fail; reflexivity.
  - intros Hok. destruct (Hin Hok) as (Ht & Hp & _).
    fold theta in Ht. fold phi in Hp.
    split; [apply check_angle_range_inside; exact Ht|].
    split; [apply check_angle_range_inside; exact Hp|].
    unfold move_positioner_xy. fold r.
    assert (Hr : r = (false, theta, phi)).
    { subst theta phi. destruct r as [[fail t] p]. cbn [fst snd] in *.
      rewrite Hok. reflexivity. }
    rewrite Hr.
    apply move_positioner_thetaphi_inside; assumption.
Qed.

(** X8. [move_positioner_xy] puts the end of the phi arm on the target:
    for a phi polygon given about its axis at the origin, the vertex at
    [(phi_arm, 0)] is moved to the requested position whenever the call
    succeeds away from the edges of the annulus. *)
Theorem move_positioner_xy_tip_on_target :
  ∀ (shptheta shpphi : shape) (center position : dpair)
    (a b theta_zero phi_zero theta_min phi_min theta_max phi_max : R)
    (i : nat),
    let offset := (position.1 - center.1, position.2 - center.2) in
    let s := offset.1 * offset.1 + offset.2 * offset.2 in
    let r := move_positioner_xy shptheta shpphi center position a b
               theta_zero phi_zero theta_min phi_min theta_max phi_max in
    0 < a → 0 < b →
    Rabs (s - (a + b) * (a + b)) > Libm.float_epsilon →
    Rabs ((a - b) * (a - b) - s) > Libm.float_epsilon →
    r.1.1 = false →
    axis shpphi = (0, 0) →
    vertices shpphi !! i = Some (b, 0) →
    vertices r.2 !! i = Some position.
Proof.
  intros shptheta shpphi center position a b theta_zero phi_zero
         theta_min phi_min theta_max phi_max i offset s r
         Ha Hb He1 He2 Hok Hax Hv.
  pose proof (move_positioner_xy_flag_shapes shptheta shpphi center position
                a b theta_zero phi_zero theta_min phi_min theta_max phi_max)
    as Hmove. cbv zeta in Hmove. fold r in Hmove.
  pose proof (xy_to_thetaphi_accepted center position a b theta_zero
                phi_zero theta_min phi_min theta_max phi_max) as Hacc.
  cbv zeta in Hacc. fold offset in Hacc. fold s in Hacc.
  pose proof (xy_to_thetaphi_interior center position a b theta_zero
                phi_zero theta_min phi_min theta_max phi_max) as Hint.
  cbv zeta in Hint. fold offset in Hint. fold s in Hint.
  destruct (xy_to_thetaphi center position a b theta_zero phi_zero
              theta_min phi_min theta_max phi_max) as [[fail theta] phi].
  cbn [fst snd] in *.
  destruct fail; [rewrite Hmove in Hok; discriminate|].
  destruct (Hacc eq_refl) as (_ & _ & [Hedge | [Hedge | Hreach]]);
    [exfalso; lra | exfalso; lra |].
  destruct (Hint He1 He2 Hreach) as (Hs & Htheta & Hphi).
  destruct (wrapped_elbow_solution a b offset.1 offset.2 theta_zero phi_zero
              theta_min phi_min theta_max phi_max Ha Hb Hs Hreach)
    as [Hx Hy].
  subst s offset. cbn [fst snd] in *.
  rewrite <- Htheta, <- Hphi in Hx, Hy.
  rewrite Hmove. cbn [snd].
  unfold rotation, transl, rotation_origin; cbn [axis vertices].
  rewrite !list_lookup_fmap. unfold dpair in *. rewrite Hv, Hax.
  unfold add_pair, rotate_pair. cbn.
  rewrite cos_plus in Hx. rewrite sin_plus in Hy.
  destruct position as [px py]. cbn [fst snd] in *.
  f_equal. f_equal.
  - transitivity (center.1 + (px - center.1)); [rewrite <- Hx | ]; ring.
  - transitivity (center.2 + (py - center.2)); [rewrite <- Hy | ]; ring.
Qed.

(** A phi arm of 3 mm drawn as the segment from its axis to its end. *)
Lemma move_positioner_xy_tip_on_target_witness :
  vertices
    (move_positioner_xy unit_square
       {| axis := (0, 0); vertices := [(0, 0); (3, 0)];
          circle_center := (0, 0); circle_radius := 3 |}
       (0, 0) (4, 0) 3 3 0 0 (- PI) 0 PI PI).2 !! 1%nat
  = Some (4, 0).
Proof.
  pose proof float_epsilon_bounds as Heps.
  apply (move_positioner_xy_tip_on_target unit_square
           {| axis := (0, 0); vertices := [(0, 0); (3, 0)];
              circle_center := (0, 0); circle_radius := 3 |}
           (0, 0) (4, 0) 3 3 0 0 (- PI) 0 PI PI 1%nat);
    cbn [fst snd axis vertices]; try lra; try reflexivity.
  - unfold Rabs. destruct (Rcase_abs _); lra.
  - unfold Rabs. destruct (Rcase_abs _); lra.
  - rewrite move_positioner_xy_flag_shapes.
    rewrite xy_to_thetaphi_accepts_sample. reflexivity.
Defined.

(** ** More on the radial distortion *)

(** X9. [radial_ang2dist] is zero at zero and grows by at least 13938 mm per
    radian everywhere, so it is strictly increasing and one-to-one. *)
Theorem radial_ang2dist_increasing :
  radial_ang2dist 0 = 0 ∧
  (∀ x y : R, x <= y →
     13938 * (y - x) <= radial_ang2dist y - radial_ang2dist x) ∧
  (∀ x y : R, x < y → radial_ang2dist x < radial_ang2dist y) ∧
  (∀ x y : R, radial_ang2dist x = radial_ang2dist y → x = y).
Proof.
  assert (Hgrow : ∀ x y : R, x <= y →
            13938 * (y - x) <= radial_ang2dist y - radial_ang2dist x).
  { intros x y Hxy. rewrite radial_ang2dist_chord.
    pose proof (slope_chord_lower y x). nra. }
  split; [rewrite radial_ang2dist_poly; ring|].
  split; [exact Hgrow|]. split.
  - intros x y Hxy. pose proof (Hgrow x y ltac:(lra)). lra.
  - intros x y Heq.
    destruct (Rle_dec x y) as [Hle|Hgt].
    + pose proof (Hgrow x y Hle). lra.
    + pose proof (Hgrow y x ltac:(lra)). lra.
Qed.

(** X10. [radial_dist2ang] on the distance [d] of an angle [t] of at most
    0.05 rad, which covers the focal plane: [d] is at most 800 mm and has
    no other angle; every error the loop passes to [::abs] is at most 2000
    mm, so its conversion to [int] is defined; the loop ends within 31
    turns, leaving as soon as the error in the distance is below 1 mm; and
    the value returned is within 5.4e-5 rad of [t].  For an angle of at
    most two degrees the value returned is within 1e-7 rad of it, and its
    distance within 2e-3 mm of [d]. *)
Theorem radial_dist2ang_focal_plane :
  ∀ t : R,
    0 <= t <= 0.05 →
    let d := radial_ang2dist t in
    0 <= d <= 800 ∧
    (∀ t' : R, radial_ang2dist t' = d → t' = t) ∧
    (∀ fuel : nat,
       Forall (λ e : R, Rabs e <= 2000)
              (radial_dist2ang_errors fuel d 0.01 1)) ∧
    (∀ fuel : nat, (31 ≤ fuel)%nat → is_Some (radial_dist2ang fuel d)) ∧
    (∀ (fuel : nat) (r : R),
       radial_dist2ang fuel d = Some r →
       Rabs (r - t) < 5.4e-5 ∧
       (t <= 2 * PI / 180 →
        Rabs (r - t) < 1e-7 ∧ Rabs (radial_ang2dist r - d) < 2e-3)).
Proof.
  intros t Ht d.
  split; [|split; [|split; [|split]]].
  - unfold d. rewrite radial_ang2dist_poly.
    pose proof (slope_chord_lower t 0) as HS. unfold slope_chord in HS.
    split; nra.
  - intros t' Ht'.
    assert (Hch : (t' - t) * slope_chord t' t = 0)
      by (rewrite <- radial_ang2dist_chord; unfold d in Ht'; lra).
    pose proof (slope_chord_lower t' t) as HS.
    apply Rmult_integral in Hch as [H|H]; lra.
  - intros fuel. apply (radial_dist2ang_errors_small t Ht).
    + right. split; [apply Rabs_le; lra | lra].
    + apply Rabs_le; lra.
    + rewrite Rabs_R1. lra.
  - intros fuel Hfuel.
    destruct (radial_dist2ang_terminates_near t Ht fuel Hfuel)
      as (r & Hr & _).
    unfold d. rewrite Hr. eauto.
  - intros fuel r Hr.
    destruct (radial_dist2ang_terminates_near t Ht (max 31 fuel)
                (Nat.le_max_l _ _)) as (r' & Hr' & Hexit).
    unfold radial_dist2ang, d in Hr, Hr'.
    pose proof (radial_dist2ang_loop_mono fuel (max 31 fuel) _ _ _ r Hr
                  (Nat.le_max_r _ _)) as Hsame.
    assert (r' = r) as -> by congruence.
    split; [apply newton_exit_near; [lra | exact Hexit]|].
    intros Ht2. apply newton_exit_accurate; [lra | exact Hexit].
Qed.

(** The angle 0.02 rad, a little more than one degree. *)
Lemma radial_dist2ang_focal_plane_witness :
  (∀ fuel : nat, (31 ≤ fuel)%nat →
     is_Some (radial_dist2ang fuel (radial_ang2dist 0.02))) ∧
  (∀ (fuel : nat) (r : R),
     radial_dist2ang fuel (radial_ang2dist 0.02) = Some r →
     Rabs (r - 0.02) < 1e-7).
Proof.
  assert (H : 0 <= 0.02 <= 0.05) by lra.
  destruct (radial_dist2ang_focal_plane 0.02 H) as (_ & _ & _ & HN & Hr).
  split; [exact HN|].
  intros fuel r Hrun. apply (Hr fuel r Hrun).
  pose proof PI2_3_2. lra.
Defined.

(** ** More on the sky coordinates *)

Section RadecFacts.

Lemma sin_colatitude (dec : R) :
  sin ((90 - dec) * (PI / 180)) = cos (dec * (PI / 180)).
Proof.
  replace ((90 - dec) * (PI / 180)) with (PI / 2 - dec * (PI / 180))
    by field.
  rewrite sin_minus, sin_PI2, cos_PI2. ring.
Qed.

Lemma cos_colatitude (dec : R) :
  cos ((90 - dec) * (PI / 180)) = sin (dec * (PI / 180)).
Proof.
  replace ((90 - dec) * (PI / 180)) with (PI / 2 - dec * (PI / 180))
    by field.
  rewrite cos_minus, sin_PI2, cos_PI2. ring.
Qed.

End RadecFacts.

(** X11. [radec2xy] sends the tile center to the origin of the focal plane,
    for every pointing and every field rotation. *)
Theorem radec2xy_tile_center :
  ∀ tilera tiledec tiletheta : R,
    radec2xy tilera tiledec tiletheta tilera tiledec = (0, 0).
Proof.
  intros tilera tiledec tiletheta. unfold radec2xy. cbv zeta.
  rewrite sin_colatitude, cos_colatitude.
  set (cd := cos (tiledec * (PI / 180))).
  set (sd := sin (tiledec * (PI / 180))).
  set (ca := cos (tilera * (PI / 180))).
  set (sa := sin (tilera * (PI / 180))).
  pose proof (sin2_cos2 (tiledec * (PI / 180))) as Hd.
  pose proof (sin2_cos2 (tilera * (PI / 180))) as Ha.
  unfold Rsqr in Hd, Ha. fold cd sd in Hd. fold ca sa in Ha.
  assert (Hx : cd * (ca * (cd * ca) + sa * (cd * sa)) + sd * sd = 1).
  { replace (cd * (ca * (cd * ca) + sa * (cd * sa)) + sd * sd)
      with (cd * cd * (sa * sa + ca * ca) + sd * sd) by ring.
    rewrite Ha. lra. }
  assert (Hy : - sa * (cd * ca) + ca * (cd * sa) = 0) by ring.
  assert (Hz : - sd * (ca * (cd * ca) + sa * (cd * sa)) + cd * sd = 0).
  { replace (- sd * (ca * (cd * ca) + sa * (cd * sa)) + cd * sd)
      with (cd * sd * (1 - (sa * sa + ca * ca))) by ring.
    rewrite Ha. ring. }
  rewrite Hx, Hy, Hz.
  assert (Hat : Libm.atan2 0 1 = 0).
  { unfold Libm.atan2. destruct (Rlt_dec 0 1); [|lra].
    replace (0 / 1) with 0 by field. apply atan_0. }
  rewrite Hat.
  destruct (Rlt_dec 0 0); [lra|].
  replace (1 * 1 + 0 * 0 + 0 * 0) with 1 by ring.
  rewrite sqrt_1. replace (0 / 1) with 0 by field.
  rewrite acos_0. replace (PI / 2 - PI / 2) with 0 by ring.
  replace (0 / 2) with 0 by field.
  rewrite sin_0, cos_0.
  replace (0 ^ 2 + 1 * 0 ^ 2) with 0 by ring.
  rewrite sqrt_0, asin_0. replace (2 * 0) with 0 by ring.
  rewrite radial_ang2dist_poly. f_equal; ring.
Qed.

(** X12. The field rotation of [radec2xy] is a rotation of the focal plane:
    the position for [tiletheta] is the position for a field rotation of
    zero turned by [tiletheta] degrees about the origin, so its distance
    from the origin does not depend on [tiletheta]. *)
Theorem radec2xy_field_rotation :
  ∀ tilera tiledec tiletheta ra dec : R,
    let p0 := radec2xy tilera tiledec 0 ra dec in
    let p := radec2xy tilera tiledec tiletheta ra dec in
    let c := cos (tiletheta * (PI / 180)) in
    let s := sin (tiletheta * (PI / 180)) in
    p = (p0.1 * c - p0.2 * s, p0.1 * s + p0.2 * c) ∧
    p.1 * p.1 + p.2 * p.2 = p0.1 * p0.1 + p0.2 * p0.2.
Proof.
  intros tilera tiledec tiletheta ra dec p0 p c s.
  assert (Hp : p = (p0.1 * c - p0.2 * s, p0.1 * s + p0.2 * c)).
  { subst p p0 c s. unfold radec2xy. cbv zeta. cbn [fst snd].
    replace (0 * (PI / 180)) with 0 by ring.
    rewrite Rplus_0_r, cos_plus, sin_plus. f_equal; ring. }
  split; [exact Hp|].
  rewrite Hp. cbn [fst snd].
  pose proof (sin2_cos2 (tiletheta * (PI / 180))) as Hcs.
  unfold Rsqr in Hcs. fold c s in Hcs.
  replace ((p0.1 * c - p0.2 * s) * (p0.1 * c - p0.2 * s)
           + (p0.1 * s + p0.2 * c) * (p0.1 * s + p0.2 * c))
    with ((p0.1 * p0.1 + p0.2 * p0.2) * (s * s + c * c)) by ring.
  rewrite Hcs. ring.
Qed.

(** ** More on placements and pairwise collisions *)

Section PlacementFacts.

Variable intersect : shape → shape → bool.

Lemma loc_position_xy_inv (hw : Hardware) (loc : Z) (xy : dpair)
    (r : bool * shape * shape) :
  loc_position_xy hw loc xy = Some r →
  ∃ (shptheta shpphi : shape) (center : dpair)
    (theta_arm phi_arm theta_offset phi_offset
     theta_min phi_min theta_max phi_max : R),
    loc_theta_excl hw !! loc = Some shptheta ∧
    loc_phi_excl hw !! loc = Some shpphi ∧
    loc_pos_xy_mm hw !! loc = Some center ∧
    loc_theta_arm hw !! loc = Some theta_arm ∧
    loc_phi_arm hw !! loc = Some phi_arm ∧
    loc_theta_offset hw !! loc = Some theta_offset ∧
    loc_phi_offset hw !! loc = Some phi_offset ∧
    loc_theta_min hw !! loc = Some theta_min ∧
    loc_phi_min hw !! loc = Some phi_min ∧
    loc_theta_max hw !! loc = Some theta_max ∧
    loc_phi_max hw !! loc = Some phi_max ∧
    r = move_positioner_xy shptheta shpphi center xy theta_arm phi_arm
          theta_offset phi_offset theta_min phi_min theta_max phi_max.
Proof.
  unfold loc_position_xy. intros H.
  destruct (loc_theta_excl hw !! loc) as [shptheta|]; [|discriminate].
  destruct (loc_phi_excl hw !! loc) as [shpphi|]; [|discriminate].
  destruct (loc_pos_xy_mm hw !! loc) as [center|]; [|discriminate].
  destruct (loc_theta_arm hw !! loc) as [theta_arm|]; [|discriminate].
  destruct (loc_phi_arm hw !! loc) as [phi_arm|]; [|discriminate].
  destruct (loc_theta_offset hw !! loc) as [theta_offset|]; [|discriminate].
  destruct (loc_phi_offset hw !! loc) as [phi_offset|]; [|discriminate].
  destruct (loc_theta_min hw !! loc) as [theta_min|]; [|discriminate].
  destruct (loc_phi_min hw !! loc) as [phi_min|]; [|discriminate].
  destruct (loc_theta_max hw !! loc) as [theta_max|]; [|discriminate].
  destruct (loc_phi_max hw !! loc) as [phi_max|]; [|discriminate].
  simpl in H. injection H as <-.
  exists shptheta, shpphi, center, theta_arm, phi_arm, theta_offset,
    phi_offset, theta_min, phi_min, theta_max, phi_max.
  repeat (split; [reflexivity|]). reflexivity.
Qed.

Lemma loc_position_thetaphi_inv (hw : Hardware) (loc : Z) (theta phi : R)
    (r : bool * shape * shape) :
  loc_position_thetaphi hw loc theta phi = Some r → has_location hw loc.
Proof.
  unfold loc_position_thetaphi, has_location. intros H.
  destruct (loc_theta_excl hw !! loc) as [shptheta|]; [|discriminate].
  destruct (loc_phi_excl hw !! loc) as [shpphi|]; [|discriminate].
  destruct (loc_pos_xy_mm hw !! loc) as [center|]; [|discriminate].
  destruct (loc_theta_arm hw !! loc) as [theta_arm|]; [|discriminate].
  destruct (loc_phi_arm hw !! loc) as [phi_arm|]; [|discriminate].
  destruct (loc_theta_offset hw !! loc) as [theta_offset|]; [|discriminate].
  destruct (loc_phi_offset hw !! loc) as [phi_offset|]; [|discriminate].
  destruct (loc_theta_min hw !! loc) as [theta_min|]; [|discriminate].
  destruct (loc_phi_min hw !! loc) as [phi_min|]; [|discriminate].
  destruct (loc_theta_max hw !! loc) as [theta_max|]; [|discriminate].
  destruct (loc_phi_max hw !! loc) as [phi_max|]; [|discriminate].
  repeat split; eauto.
Qed.

Lemma loc_position_xy_has_location (hw : Hardware) (loc : Z) (xy : dpair)
    (r : bool * shape * shape) :
  loc_position_xy hw loc xy = Some r → has_location hw loc.
Proof.
  intros H. apply loc_position_xy_inv in H
    as (? & ? & ? & ? & ? & ? & ? & ? & ? & ? & ? &
        E1 & E2 & E3 & E4 & E5 & E6 & E7 & E8 & E9 & E10 & E11 & _).
  unfold has_location. rewrite E1, E2, E3, E4, E5, E6, E7, E8, E9, E10, E11.
  repeat split; eauto.
Qed.

(** A placement that fails returns the stored polygons of the location. *)
Lemma loc_position_xy_failed (hw : Hardware) (loc : Z) (xy : dpair)
    (r : bool * shape * shape) :
  loc_position_xy hw loc xy = Some r →
  position_xy_bad hw loc xy = Some r.1.1 ∧
  (r.1.1 = true →
   loc_theta_excl hw !! loc = Some r.1.2 ∧ loc_phi_excl hw !! loc = Some r.2).
Proof.
  intros H. apply loc_position_xy_inv in H
    as (shptheta & shpphi & center & theta_arm & phi_arm & theta_offset &
        phi_offset & theta_min & phi_min & theta_max & phi_max &
        E1 & E2 & E3 & E4 & E5 & E6 & E7 & E8 & E9 & E10 & E11 & ->).
  unfold position_xy_bad. rewrite E3, E4, E5, E6, E7, E8, E9, E10, E11.
  simpl. rewrite move_positioner_xy_flag_shapes.
  destruct (xy_to_thetaphi center xy theta_arm phi_arm theta_offset
              phi_offset theta_min phi_min theta_max phi_max).1.1;
    simpl; split; auto; discriminate.
Qed.

Lemma collide_xy_first_failed (hw : Hardware) (loc1 loc2 : Z)
    (xy1 xy2 : dpair) (shptheta1 shpphi1 : shape) :
  loc_position_xy hw loc1 xy1 = Some (true, shptheta1, shpphi1) →
  collide_xy intersect hw loc1 xy1 loc2 xy2 = Some true.
Proof.
  intros P1.
  destruct (loc_position_xy_has_location hw loc1 xy1 _ P1)
    as ([? E1] & [? E2] & _).
  unfold collide_xy. rewrite E1, E2, P1. reflexivity.
Qed.

Lemma collide_thetaphi_placed (hw : Hardware) (loc1 loc2 : Z)
    (theta1 phi1 theta2 phi2 : R)
    (failed1 failed2 : bool) (shptheta1 shpphi1 shptheta2 shpphi2 : shape) :
  loc_position_thetaphi hw loc1 theta1 phi1
  = Some (failed1, shptheta1, shpphi1) →
  loc_position_thetaphi hw loc2 theta2 phi2
  = Some (failed2, shptheta2, shpphi2) →
  collide_thetaphi intersect hw loc1 theta1 phi1 loc2 theta2 phi2
  = Some (failed1 || failed2 ||
          (intersect shpphi1 shpphi2 || intersect shptheta1 shpphi2
           || intersect shptheta2 shpphi1)).
Proof.
  intros P1 P2.
  destruct (loc_position_thetaphi_inv hw loc1 theta1 phi1 _ P1)
    as ([? E1] & [? E2] & _).
  destruct (loc_position_thetaphi_inv hw loc2 theta2 phi2 _ P2)
    as ([? E3] & [? E4] & _).
  unfold collide_thetaphi, arms_intersect.
  rewrite E1, E2, P1. simpl.
  destruct failed1; simpl; [reflexivity|].
  rewrite E3, E4, P2. simpl.
  destruct failed2; simpl; [reflexivity|].
  destruct (intersect shpphi1 shpphi2); simpl; [reflexivity|].
  destruct (intersect shptheta1 shpphi2); simpl; [reflexivity|].
  destruct (intersect shptheta2 shpphi1); reflexivity.
Qed.

End PlacementFacts.

(** X14. [position_xy_bad] is the failure flag of [loc_position_xy], and a
    placement that fails hands back the exclusion polygons of the location
    as they are stored, not moved. *)
Theorem position_xy_bad_is_placement_flag :
  ∀ (hw : Hardware) (loc : Z) (xy : dpair),
    has_location hw loc →
    ∃ r : bool * shape * shape,
      loc_position_xy hw loc xy = Some r ∧
      position_xy_bad hw loc xy = Some r.1.1 ∧
      (r.1.1 = true →
       loc_theta_excl hw !! loc = Some r.1.2 ∧
       loc_phi_excl hw !! loc = Some r.2).
Proof.
  intros hw loc xy Hloc.
  destruct (loc_position_xy_Some hw loc xy Hloc) as [r Hr].
  exists r. split; [exact Hr|]. apply loc_position_xy_failed. exact Hr.
Qed.

Lemma position_xy_bad_is_placement_flag_witness :
  ∃ r : bool * shape * shape,
    loc_position_xy hw_pair 1 (100, 0) = Some r ∧
    position_xy_bad hw_pair 1 (100, 0) = Some r.1.1.
Proof.
  destruct (position_xy_bad_is_placement_flag hw_pair 1 (100, 0)
              hw_pair_has_location_1) as (r & Hr & Hbad & _).
  exists r. auto.
Defined.

(** X15. Every placement by position that succeeds is the placement by
    angles at the angles of [xy_to_thetaphi], which lie within the limits
    of the location. *)
Theorem loc_position_xy_by_angles :
  ∀ (hw : Hardware) (loc : Z) (xy : dpair) (shptheta shpphi : shape),
    loc_position_xy hw loc xy = Some (false, shptheta, shpphi) →
    ∃ (theta phi theta_offset phi_offset
       theta_min phi_min theta_max phi_max : R),
      loc_theta_offset hw !! loc = Some theta_offset ∧
      loc_phi_offset hw !! loc = Some phi_offset ∧
      loc_theta_min hw !! loc = Some theta_min ∧
      loc_phi_min hw !! loc = Some phi_min ∧
      loc_theta_max hw !! loc = Some theta_max ∧
      loc_phi_max hw !! loc = Some phi_max ∧
      theta_offset + theta_min <= theta <= theta_offset + theta_max ∧
      phi_offset + phi_min <= phi <= phi_offset + phi_max ∧
      loc_position_thetaphi hw loc theta phi
      = Some (false, shptheta, shpphi).
Proof.
  intros hw loc xy shptheta shpphi H.
  apply loc_position_xy_inv in H
    as (st & sp & center & theta_arm & phi_arm & theta_offset &
        phi_offset & theta_min & phi_min & theta_max & phi_max &
        E1 & E2 & E3 & E4 & E5 & E6 & E7 & E8 & E9 & E10 & E11 & Hr).
  pose proof (move_positioner_xy_flag_shapes st sp center xy theta_arm
                phi_arm theta_offset phi_offset theta_min phi_min
                theta_max phi_max) as Hmove.
  pose proof (xy_to_thetaphi_accepted center xy theta_arm phi_arm
                theta_offset phi_offset theta_min phi_min theta_max phi_max)
    as Hacc.
  cbv zeta in Hmove, Hacc.
  destruct (xy_to_thetaphi center xy theta_arm phi_arm theta_offset
              phi_offset theta_min phi_min theta_max phi_max)
    as [[fail theta] phi].
  cbn [fst snd] in *. rewrite Hmove in Hr.
  destruct fail; [discriminate|].
  destruct (Hacc eq_refl) as (Ht & Hp & _).
  exists theta, phi, theta_offset, phi_offset, theta_min, phi_min,
    theta_max, phi_max.
  do 6 (split; [assumption|]). split; [exact Ht|]. split; [exact Hp|].
  unfold loc_position_thetaphi.
  rewrite E1, E2, E3, E4, E5, E6, E7, E8, E9, E10, E11. simpl.
  unfold move_positioner_thetaphi.
  rewrite (check_angle_range_inside phi phi_offset phi_min phi_max Hp).
  rewrite (check_angle_range_inside theta theta_offset theta_min theta_max
             Ht).
  simpl. rewrite Hr. reflexivity.
Qed.

(** Location 1 of [hw_pair] sent to (4, 0): the placement succeeds. *)
Lemma hw_pair_placement_sample :
  ∃ shptheta shpphi : shape,
    loc_position_xy hw_pair 1 (4, 0) = Some (false, shptheta, shpphi).
Proof.
  unfold loc_position_xy, hw_pair.
  cbn [loc_theta_excl loc_phi_excl loc_pos_xy_mm loc_theta_arm loc_phi_arm
       loc_theta_offset loc_phi_offset loc_theta_min loc_phi_min
       loc_theta_max loc_phi_max].
  rewrite !lookup_insert_eq. cbn [mbind option_bind].
  rewrite move_positioner_xy_flag_shapes, xy_to_thetaphi_accepts_sample.
  eauto.
Qed.

Lemma loc_position_xy_by_angles_witness :
  ∃ (shptheta shpphi : shape) (theta phi : R),
    loc_position_xy hw_pair 1 (4, 0) = Some (false, shptheta, shpphi) ∧
    loc_position_thetaphi hw_pair 1 theta phi
    = Some (false, shptheta, shpphi).
Proof.
  destruct hw_pair_placement_sample as (shptheta & shpphi & Hplace).
  destruct (loc_position_xy_by_angles hw_pair 1 (4, 0) shptheta shpphi
              Hplace)
    as (theta & phi & ? & ? & ? & ? & ? & ? & _ & _ & _ & _ & _ & _ & _ & _
        & Hang).
  exists shptheta, shpphi, theta, phi. auto.
Defined.

(** X16. [collide_xy] reports a collision as soon as the first positioner
    cannot be placed, before it looks at the second location: the answer is
    true even for a second location the hardware does not know, while the
    call with the arguments exchanged throws. *)
Theorem collide_xy_first_failure :
  ∀ (intersect : shape → shape → bool) (hw : Hardware)
    (loc1 : Z) (xy1 : dpair) (loc2 : Z) (xy2 : dpair)
    (shptheta1 shpphi1 : shape),
    loc_position_xy hw loc1 xy1 = Some (true, shptheta1, shpphi1) →
    collide_xy intersect hw loc1 xy1 loc2 xy2 = Some true ∧
    (¬ has_location hw loc2 →
     collide_xy intersect hw loc2 xy2 loc1 xy1 = None).
Proof.
  intros intersect hw loc1 xy1 loc2 xy2 shptheta1 shpphi1 P1.
  split; [eapply collide_xy_first_failed; exact P1|].
  intros Hunknown. unfold collide_xy.
  destruct (loc_theta_excl hw !! loc2); [|reflexivity].
  destruct (loc_phi_excl hw !! loc2); [|reflexivity].
  cbn [mbind option_bind].
  destruct (loc_position_xy hw loc2 xy2) as [r|] eqn:P2; [|reflexivity].
  exfalso. apply Hunknown.
  eapply loc_position_xy_has_location; exact P2.
Qed.

Lemma collide_xy_first_failure_witness :
  collide_xy circles_overlap hw_pair 1 (100, 0) 99 (0, 0) = Some true.
Proof.
  exact (proj1 (collide_xy_first_failure circles_overlap hw_pair
                  1 (100, 0) 99 (0, 0) unit_square unit_square
                  (hw_pair_out_of_reach 1 ltac:(apply list_elem_of_here)))).
Defined.

(** X17. Sibling of [collide_xy] for angles: for an [intersect] that does not
    depend on the order of its arguments, [collide_thetaphi] on two
    locations of the hardware gives the same answer with the positioners
    exchanged, namely true when either placement fails and otherwise the
    disjunction of the three arm tests. *)
Theorem collide_thetaphi_symmetric :
  ∀ (intersect : shape → shape → bool) (hw : Hardware)
    (a : Z) (theta_a phi_a : R) (b : Z) (theta_b phi_b : R),
    (∀ A B : shape, intersect A B = intersect B A) →
    has_location hw a → has_location hw b →
    collide_thetaphi intersect hw a theta_a phi_a b theta_b phi_b
    = collide_thetaphi intersect hw b theta_b phi_b a theta_a phi_a ∧
    ∃ ra rb : bool * shape * shape,
      loc_position_thetaphi hw a theta_a phi_a = Some ra ∧
      loc_position_thetaphi hw b theta_b phi_b = Some rb ∧
      collide_thetaphi intersect hw a theta_a phi_a b theta_b phi_b
      = Some (ra.1.1 || rb.1.1 ||
              (intersect ra.2 rb.2 || intersect ra.1.2 rb.2
               || intersect rb.1.2 ra.2)).
Proof.
  intros intersect hw a theta_a phi_a b theta_b phi_b Hsym Ha Hb.
  destruct (loc_position_thetaphi_Some hw a theta_a phi_a Ha)
    as [[[fa ta] pa] Pa].
  destruct (loc_position_thetaphi_Some hw b theta_b phi_b Hb)
    as [[[fb tb] pb] Pb].
  pose proof (collide_thetaphi_placed intersect hw a b theta_a phi_a
                theta_b phi_b fa fb ta pa tb pb Pa Pb) as Hab.
  pose proof (collide_thetaphi_placed intersect hw b a theta_b phi_b
                theta_a phi_a fb fa tb pb ta pa Pb Pa) as Hba.
  split.
  - rewrite Hab, Hba. f_equal. rewrite (Hsym pb pa).
    destruct fa, fb, (intersect pa pb), (intersect ta pb),
      (intersect tb pa); reflexivity.
  - exists (fa, ta, pa), (fb, tb, pb). auto.
Qed.

Lemma collide_thetaphi_symmetric_witness :
  collide_thetaphi circles_overlap hw_pair 1 0 0 2 PI 0
  = collide_thetaphi circles_overlap hw_pair 2 PI 0 1 0 0.
Proof.
  exact (proj1 (collide_thetaphi_symmetric circles_overlap hw_pair
                  1 0 0 2 PI 0 circles_overlap_sym hw_pair_has_location_1
                  hw_pair_has_location_2)).
Defined.

(** ** More on the batch functions *)

Section BatchPlacementFacts.

Variable rt : Omp.runtime.
Hypothesis rt_conforming : Omp.conforming rt.

(** The loops of the [_multi] placements fill one cell per location. *)
Lemma loc_position_xy_multi_mapM (hw : Hardware) (loc : list Z)
    (xy : list dpair) (threads : Z) :
  loc_position_xy_multi rt hw loc xy threads
  = mapM (λ f : nat,
            loc_f ← loc !! f; xy_f ← xy !! f;
            r ← loc_position_xy hw loc_f xy_f;
            Some ((r.1.1, (r.1.2, r.2)) : placement))
         (seq 0 (length loc)).
Proof.
  unfold loc_position_xy_multi. cbv zeta.
  set (g := λ f : nat,
         loc_f ← loc !! f; xy_f ← xy !! f;
         r ← loc_position_xy hw loc_f xy_f;
         Some ((r.1.1, (r.1.2, r.2)) : placement)).
  rewrite (parallel_for_ext _ (cell_write g)).
  2:{ intros t out. unfold cell_write, g.
      destruct (loc !! t); simpl; [|reflexivity].
      destruct (xy !! t); simpl; [|reflexivity].
      destruct (loc_position_xy hw _ _); reflexivity. }
  apply parallel_for_cells_mapM.
  - apply schedule_Permutation, rt_conforming.
  - apply length_replicate.
Qed.

Lemma loc_position_thetaphi_multi_mapM (hw : Hardware) (loc : list Z)
    (theta phi : list R) (threads : Z) :
  loc_position_thetaphi_multi rt hw loc theta phi threads
  = mapM (λ f : nat,
            loc_f ← loc !! f; theta_f ← theta !! f; phi_f ← phi !! f;
            r ← loc_position_thetaphi hw loc_f theta_f phi_f;
            Some ((r.1.1, (r.1.2, r.2)) : placement))
         (seq 0 (length loc)).
Proof.
  unfold loc_position_thetaphi_multi. cbv zeta.
  set (g := λ f : nat,
         loc_f ← loc !! f; theta_f ← theta !! f; phi_f ← phi !! f;
         r ← loc_position_thetaphi hw loc_f theta_f phi_f;
         Some ((r.1.1, (r.1.2, r.2)) : placement)).
  rewrite (parallel_for_ext _ (cell_write g)).
  2:{ intros t out. unfold cell_write, g.
      destruct (loc !! t); simpl; [|reflexivity].
      destruct (theta !! t); simpl; [|reflexivity].
      destruct (phi !! t); simpl; [|reflexivity].
      destruct (loc_position_thetaphi hw _ _ _); reflexivity. }
  apply parallel_for_cells_mapM.
  - apply schedule_Permutation, rt_conforming.
  - apply length_replicate.
Qed.

End BatchPlacementFacts.

Section MapMFacts.

Lemma mapM_seq_lookup {B : Type} (g : nat → option B) (n : nat)
    (out : list B) :
  mapM g (seq 0 n) = Some out →
  length out = n ∧ ∀ i : nat, (i < n)%nat → g i = out !! i ∧ is_Some (out !! i).
Proof.
  intros H. apply mapM_Some in H.
  pose proof (Forall2_length _ _ _ H) as Hlen. rewrite length_seq in Hlen.
  split; [symmetry; exact Hlen|].
  intros i Hi.
  destruct (lookup_lt_is_Some_2 out i ltac:(lia)) as [v Hv].
  pose proof (Forall2_lookup_lr _ _ _ i i v H
                ltac:(apply lookup_seq; split; [reflexivity | exact Hi]) Hv)
    as Hg.
  rewrite Hv. simpl in Hg. split; [exact Hg | eauto].
Qed.

Lemma mapM_seq_None {B : Type} (g : nat → option B) (n i : nat) :
  (i < n)%nat → g i = None → mapM g (seq 0 n) = None.
Proof.
  intros Hi Hg.
  destruct (mapM g (seq 0 n)) as [out|] eqn:H; [|reflexivity].
  destruct (mapM_seq_lookup g n out H) as [_ Hcells].
  destruct (Hcells i Hi) as [Hgi [v Hv]]. congruence.
Qed.

End MapMFacts.

(** X19. The placements in bulk, given a target (a pair of angles) for every
    supplied location, are the single placements, one per supplied location
    and in its order: the call returns exactly when every supplied location
    is a location of the hardware, and what it returns does not depend on
    the number of threads or on the schedule. *)
Theorem loc_position_multi_elementwise :
  ∀ (rt : Omp.runtime) (hw : Hardware) (loc : list Z)
    (xy : list dpair) (theta phi : list R) (threads : Z),
    Omp.conforming rt →
    length xy = length loc →
    length theta = length loc →
    length phi = length loc →
    (∀ fpos : list placement,
       loc_position_xy_multi rt hw loc xy threads = Some fpos →
       length fpos = length loc ∧
       ∀ (i : nat) (lid : Z), loc !! i = Some lid →
         ∃ (p : dpair) (r : bool * shape * shape),
           xy !! i = Some p ∧ loc_position_xy hw lid p = Some r ∧
           fpos !! i = Some (r.1.1, (r.1.2, r.2))) ∧
    (∀ fpos : list placement,
       loc_position_thetaphi_multi rt hw loc theta phi threads = Some fpos →
       length fpos = length loc ∧
       ∀ (i : nat) (lid : Z), loc !! i = Some lid →
         ∃ (t p : R) (r : bool * shape * shape),
           theta !! i = Some t ∧ phi !! i = Some p ∧
           loc_position_thetaphi hw lid t p = Some r ∧
           fpos !! i = Some (r.1.1, (r.1.2, r.2))) ∧
    (is_Some (loc_position_xy_multi rt hw loc xy threads)
     ↔ ∀ lid : Z, lid ∈ loc → has_location hw lid) ∧
    (is_Some (loc_position_thetaphi_multi rt hw loc theta phi threads)
     ↔ ∀ lid : Z, lid ∈ loc → has_location hw lid) ∧
    (∀ (rt' : Omp.runtime) (threads' : Z),
       Omp.conforming rt' →
       loc_position_xy_multi rt' hw loc xy threads'
       = loc_position_xy_multi rt hw loc xy threads ∧
       loc_position_thetaphi_multi rt' hw loc theta phi threads'
       = loc_position_thetaphi_multi rt hw loc theta phi threads).
Proof.
  intros rt hw loc xy theta phi threads Hrt Hxy Htheta Hphi.
  assert (Hcell_xy : ∀ fpos : list placement,
            loc_position_xy_multi rt hw loc xy threads = Some fpos →
            length fpos = length loc ∧
            ∀ (i : nat) (lid : Z), loc !! i = Some lid →
              ∃ (p : dpair) (r : bool * shape * shape),
                xy !! i = Some p ∧ loc_position_xy hw lid p = Some r ∧
                fpos !! i = Some (r.1.1, (r.1.2, r.2))).
  { intros fpos Hrun. rewrite (loc_position_xy_multi_mapM rt Hrt) in Hrun.
    destruct (mapM_seq_lookup _ _ _ Hrun) as [Hlen Hcells].
    split; [exact Hlen|].
    intros i lid Hlid.
    destruct (Hcells i ltac:(eapply lookup_lt_Some; eassumption))
      as [Hg [v Hv]].
    rewrite Hv, Hlid in Hg. simpl in Hg.
    destruct (xy !! i) as [p|]; [|discriminate]. simpl in Hg.
    destruct (loc_position_xy hw lid p) as [r|] eqn:Hr; [|discriminate].
    simpl in Hg. injection Hg as <-. exists p, r. auto. }
  assert (Hcell_tp : ∀ fpos : list placement,
            loc_position_thetaphi_multi rt hw loc theta phi threads
            = Some fpos →
            length fpos = length loc ∧
            ∀ (i : nat) (lid : Z), loc !! i = Some lid →
              ∃ (t p : R) (r : bool * shape * shape),
                theta !! i = Some t ∧ phi !! i = Some p ∧
                loc_position_thetaphi hw lid t p = Some r ∧
                fpos !! i = Some (r.1.1, (r.1.2, r.2))).
  { intros fpos Hrun.
    rewrite (loc_position_thetaphi_multi_mapM rt Hrt) in Hrun.
    destruct (mapM_seq_lookup _ _ _ Hrun) as [Hlen Hcells].
    split; [exact Hlen|].
    intros i lid Hlid.
    destruct (Hcells i ltac:(eapply lookup_lt_Some; eassumption))
      as [Hg [v Hv]].
    rewrite Hv, Hlid in Hg. simpl in Hg.
    destruct (theta !! i) as [t|]; [|discriminate]. simpl in Hg.
    destruct (phi !! i) as [p|]; [|discriminate]. simpl in Hg.
    destruct (loc_position_thetaphi hw lid t p) as [r|] eqn:Hr;
      [|discriminate].
    simpl in Hg. injection Hg as <-. exists t, p, r. auto. }
  split; [exact Hcell_xy|]. split; [exact Hcell_tp|].
  split; [|split].
  - split.
    + intros [fpos Hrun] lid Hlid.
      apply list_elem_of_lookup in Hlid as [i Hi].
      destruct (Hcell_xy fpos Hrun) as [_ Hcells].
      destruct (Hcells i lid Hi) as (p & r & _ & Hr & _).
      eapply loc_position_xy_has_location; exact Hr.
    + intros Hknown. rewrite (loc_position_xy_multi_mapM rt Hrt).
      apply mapM_is_Some, Forall_forall. intros i Hi.
      apply elem_of_seq in Hi.
      destruct (lookup_lt_is_Some_2 loc i ltac:(lia)) as [lid Hlid].
      destruct (lookup_lt_is_Some_2 xy i ltac:(lia)) as [p Hp].
      destruct (loc_position_xy_Some hw lid p) as [r Hr].
      { apply Hknown. eapply list_elem_of_lookup_2; exact Hlid. }
      simpl. rewrite Hlid. simpl. rewrite Hp. simpl. rewrite Hr. simpl. eauto.
  - split.
    + intros [fpos Hrun] lid Hlid.
      apply list_elem_of_lookup in Hlid as [i Hi].
      destruct (Hcell_tp fpos Hrun) as [_ Hcells].
      destruct (Hcells i lid Hi) as (t & p & r & _ & _ & Hr & _).
      eapply loc_position_thetaphi_inv; exact Hr.
    + intros Hknown. rewrite (loc_position_thetaphi_multi_mapM rt Hrt).
      apply mapM_is_Some, Forall_forall. intros i Hi.
      apply elem_of_seq in Hi.
      destruct (lookup_lt_is_Some_2 loc i ltac:(lia)) as [lid Hlid].
      destruct (lookup_lt_is_Some_2 theta i ltac:(lia)) as [t Ht].
      destruct (lookup_lt_is_Some_2 phi i ltac:(lia)) as [p Hp].
      destruct (loc_position_thetaphi_Some hw lid t p) as [r Hr].
      { apply Hknown. eapply list_elem_of_lookup_2; exact Hlid. }
      simpl. rewrite Hlid. simpl. rewrite Ht. simpl. rewrite Hp. simpl.
      rewrite Hr. simpl. eauto.
  - intros rt' threads' Hrt'.
    rewrite !(loc_position_xy_multi_mapM rt Hrt),
            !(loc_position_xy_multi_mapM rt' Hrt'),
            !(loc_position_thetaphi_multi_mapM rt Hrt),
            !(loc_position_thetaphi_multi_mapM rt' Hrt').
    split; reflexivity.
Qed.

(** The two positioners of [hw_pair], each with a target and a pair of
    angles: both bulk placements return. *)
Lemma loc_position_multi_elementwise_witness :
  is_Some (loc_position_xy_multi Omp.sequential hw_pair [1%Z; 2%Z]
             [(3, 0); (100, 0)] 2) ∧
  is_Some (loc_position_thetaphi_multi Omp.sequential hw_pair [1%Z; 2%Z]
             [0; 0] [PI; PI] 2).
Proof.
  destruct (loc_position_multi_elementwise Omp.sequential hw_pair
              [1%Z; 2%Z] [(3, 0); (100, 0)] [0; 0] [PI; PI] 2
              sequential_conforming eq_refl eq_refl eq_refl)
    as (_ & _ & Hxy & Htp & _).
  assert (Hknown : ∀ lid : Z, lid ∈ [1%Z; 2%Z] → has_location hw_pair lid).
  { intros lid Hlid.
    apply elem_of_cons in Hlid as [->|Hlid];
      [exact hw_pair_has_location_1|].
    apply elem_of_cons in Hlid as [->|Hlid];
      [exact hw_pair_has_location_2|].
    apply elem_of_nil in Hlid. contradiction. }
  split; [apply Hxy | apply Htp]; exact Hknown.
Defined.

Section ScheduleFacts.

Variable intersect : shape → shape → bool.

(** A loop whose iterations commute gives the same result in every order
    of its iterations. *)
Lemma parallel_for_Permutation {S : Type} (body : nat → S → option S)
    (sched sched' : list nat) :
  (∀ (p q : nat) (s : S),
     (s' ← body p s; body q s') = (s' ← body q s; body p s')) →
  sched ≡ₚ sched' →
  ∀ s : S, Omp.parallel_for body sched s = Omp.parallel_for body sched' s.
Proof.
  intros Hcomm Hperm.
  induction Hperm as [|t l l' _ IH|t u l|l l' l'' _ IH1 _ IH2]; intros s.
  - reflexivity.
  - simpl. destruct (body t s); simpl; [apply IH | reflexivity].
  - simpl.
    pose proof (Hcomm u t s) as Hc.
    destruct (body u s) as [s1|]; destruct (body t s) as [s2|]; simpl in *.
    + destruct (body t s1) as [s3|]; destruct (body u s2) as [s4|];
        simpl; congruence.
    + destruct (body t s1); simpl; [discriminate | reflexivity].
    + destruct (body u s2); simpl; [discriminate | reflexivity].
    + reflexivity.
  - rewrite IH1. apply IH2.
Qed.

Lemma insert_true_commute (i j : nat) (l : list bool) :
  <[i := true]> (<[j := true]> l) = <[j := true]> (<[i := true]> l).
Proof.
  destruct (decide (i = j)) as [->|Hne]; [reflexivity|].
  apply list_insert_insert_ne. exact Hne.
Qed.

(** What one pair does to the result does not depend on the result: it
    throws, leaves it alone, or sets two entries to true. *)
Lemma check_pair_effect (fpos : list placement) (loc_indx : gmap Z nat)
    (checkpairs : list (Z * Z)) (p : nat) :
  (∀ r, check_pair intersect fpos loc_indx checkpairs p r = None) ∨
  (∀ r, check_pair intersect fpos loc_indx checkpairs p r = Some r) ∨
  (∃ i j : nat, ∀ r,
     check_pair intersect fpos loc_indx checkpairs p r
     = Some (<[j := true]> (<[i := true]> r))).
Proof.
  unfold check_pair.
  destruct (checkpairs !! p) as [[low high]|]; cbn [mbind option_bind fst snd];
    [|left; reflexivity].
  destruct (loc_indx !! low) as [ilow|]; cbn [mbind option_bind];
    [|left; reflexivity].
  destruct (fpos !! ilow) as [f1|]; cbn [mbind option_bind];
    [|left; reflexivity].
  destruct (loc_indx !! high) as [ihigh|]; cbn [mbind option_bind];
    [|left; reflexivity].
  destruct (fpos !! ihigh) as [f2|]; cbn [mbind option_bind];
    [|left; reflexivity].
  destruct (pair_hit intersect f1 f2).
  - right; right. exists ilow, ihigh. reflexivity.
  - right; left. reflexivity.
Qed.

(** The critical sections of two pairs commute: each only sets entries to
    true. *)
Lemma check_pair_commute (fpos : list placement) (loc_indx : gmap Z nat)
    (checkpairs : list (Z * Z)) (p q : nat) (result : list bool) :
  (r ← check_pair intersect fpos loc_indx checkpairs p result;
   check_pair intersect fpos loc_indx checkpairs q r)
  = (r ← check_pair intersect fpos loc_indx checkpairs q result;
     check_pair intersect fpos loc_indx checkpairs p r).
Proof.
  destruct (check_pair_effect fpos loc_indx checkpairs p)
    as [Hp | [Hp | (i & j & Hp)]];
    destruct (check_pair_effect fpos loc_indx checkpairs q)
      as [Hq | [Hq | (i' & j' & Hq)]];
    rewrite ?Hp, ?Hq; cbn [mbind option_bind]; rewrite ?Hp, ?Hq;
    try reflexivity.
  f_equal.
  rewrite (insert_true_commute i' j), (insert_true_commute i' i).
  rewrite (insert_true_commute j' j), (insert_true_commute j' i).
  reflexivity.
Qed.

(** The loop over the pairs gives the same vector for every runtime. *)
Lemma check_collisions_schedule (rt rt' : Omp.runtime) (hw : Hardware)
    (loc : list Z) (fpos : list placement) (threads threads' : Z) :
  Omp.conforming rt → Omp.conforming rt' →
  check_collisions intersect rt' hw loc fpos threads'
  = check_collisions intersect rt hw loc fpos threads.
Proof.
  intros Hrt Hrt'. unfold check_collisions. cbv zeta.
  destruct (build_checklookup (neighbors hw) loc 0 ∅ ∅) as [[li cl]|];
    [|reflexivity].
  cbn [mbind option_bind].
  apply parallel_for_Permutation.
  - intros p q s. apply check_pair_commute.
  - rewrite (schedule_Permutation rt Hrt), (schedule_Permutation rt' Hrt').
    reflexivity.
Qed.

End ScheduleFacts.

(** X20. The batch checks, given a target (a pair of angles) for every
    supplied location, give the same answer for every conforming OpenMP
    runtime and every number of threads: the placements fill separate
    cells, and the critical sections of the pair loop only ever set entries
    to true, so they commute. *)
Theorem check_collisions_thread_independent :
  ∀ (intersect : shape → shape → bool) (rt rt' : Omp.runtime)
    (hw : Hardware) (loc : list Z) (xy : list dpair) (theta phi : list R)
    (threads threads' : Z),
    Omp.conforming rt → Omp.conforming rt' →
    length xy = length loc →
    length theta = length loc →
    length phi = length loc →
    check_collisions_xy intersect rt' hw loc xy threads'
    = check_collisions_xy intersect rt hw loc xy threads ∧
    check_collisions_thetaphi intersect rt' hw loc theta phi threads'
    = check_collisions_thetaphi intersect rt hw loc theta phi threads.
Proof.
  intros intersect rt rt' hw loc xy theta phi threads threads' Hrt Hrt'
    _ _ _.
  unfold check_collisions_xy, check_collisions_thetaphi.
  rewrite (loc_position_xy_multi_mapM rt Hrt),
          (loc_position_xy_multi_mapM rt' Hrt'),
          (loc_position_thetaphi_multi_mapM rt Hrt),
          (loc_position_thetaphi_multi_mapM rt' Hrt').
  split.
  - destruct (mapM _ _) as [fpos|]; [|reflexivity]. cbn [mbind option_bind].
    apply check_collisions_schedule; assumption.
  - destruct (mapM _ _) as [fpos|]; [|reflexivity]. cbn [mbind option_bind].
    apply check_collisions_schedule; assumption.
Qed.

Section BatchCore.

Variable intersect : shape → shape → bool.
Variable rt : Omp.runtime.
Hypothesis rt_conforming : Omp.conforming rt.

(** The pair loop on placements that are there for every supplied
    location: entry [i] is set iff location [i] is in a pair of supplied
    neighbors, smaller id first, whose placements hit. *)
Lemma check_collisions_marks (hw : Hardware) (loc : list Z)
    (fpos : list placement) (threads : Z) :
  NoDup loc →
  length fpos = length loc →
  (∀ lid, lid ∈ loc → is_Some (neighbors hw !! lid)) →
  (∀ lid nb, lid ∈ loc → nb ∈ neighbors_at (neighbors hw) lid → nb ∈ loc) →
  ∃ result : list bool,
    check_collisions intersect rt hw loc fpos threads = Some result ∧
    length result = length loc ∧
    ∀ i : nat, (i < length loc)%nat →
      (result !! i = Some true
       ↔ ∃ (low high : Z) (ilow ihigh : nat) (flow fhigh : placement),
           (low <= high)%Z ∧
           (high ∈ neighbors_at (neighbors hw) low ∨
            low ∈ neighbors_at (neighbors hw) high) ∧
           (i = ilow ∨ i = ihigh) ∧
           loc !! ilow = Some low ∧ loc !! ihigh = Some high ∧
           fpos !! ilow = Some flow ∧ fpos !! ihigh = Some fhigh ∧
           pair_hit intersect flow fhigh = true) ∧
      (result !! i = Some true ∨ result !! i = Some false).
Proof.
  intros Hnd Hlf Hknown Hclosed.
  destruct (build_checklookup_spec (neighbors hw) loc 0%nat ∅ ∅)
    as (li & cl & Hbuild & _ & Hli & Hcl_nd & Hcl).
  { exact Hknown. }
  { intros k. unfold neighbors_at. rewrite lookup_empty. apply NoDup_nil_2. }
  assert (Hpairs : ∀ low high : Z,
             (low, high) ∈ checkpairs_of cl
             ↔ (low <= high)%Z ∧ low ∈ loc ∧ high ∈ loc ∧
               (high ∈ neighbors_at (neighbors hw) low ∨
                low ∈ neighbors_at (neighbors hw) high)).
  { intros low high. rewrite checkpairs_of_spec, Hcl. split.
    - intros [Hnil|(lid & nb & Hlid & Hnb & Hord)].
      { unfold neighbors_at in Hnil. rewrite lookup_empty in Hnil.
        apply elem_of_nil in Hnil. contradiction. }
      pose proof (Hclosed lid nb Hlid Hnb) as Hnb_in.
      pose proof (ordered_pair_le lid nb) as Hle. rewrite <- Hord in Hle.
      simpl in Hle. split; [exact Hle|].
      unfold ordered_pair in Hord.
      destruct (bool_decide (lid < nb)%Z); injection Hord as -> ->; auto.
    - intros (Hle & Hlow & Hhigh & [Hn|Hn]); right.
      + exists low, high. split; [exact Hlow|]. split; [exact Hn|].
        unfold ordered_pair.
        destruct (bool_decide_reflect (low < high)%Z); [reflexivity|].
        assert (low = high) as -> by lia. reflexivity.
      + exists high, low. split; [exact Hhigh|]. split; [exact Hn|].
        unfold ordered_pair.
        destruct (bool_decide_reflect (high < low)%Z); [lia | reflexivity]. }
  assert (Hindex : ∀ k, k ∈ loc →
             ∃ j : nat, li !! k = Some j ∧ loc !! j = Some k ∧
                        (j < length loc)%nat ∧ is_Some (fpos !! j)).
  { intros k Hk. destruct (Hli k Hk) as (j & Hj & Hlj).
    exists j. split; [exact Hj|]. split; [exact Hlj|].
    pose proof (lookup_lt_Some _ _ _ Hlj) as Hlt. split; [exact Hlt|].
    apply lookup_lt_is_Some. lia. }
  destruct (check_pairs_spec intersect fpos li (checkpairs_of cl)
              (Omp.schedule rt (length (checkpairs_of cl))
                 (Z.to_nat (Omp.run_threads threads
                              (Omp.omp_get_num_threads rt))))
              (replicate (length loc) false))
    as (result & Hrun & Hlr & Hmarks).
  { intros p Hp. rewrite (schedule_Permutation rt rt_conforming) in Hp.
    apply elem_of_seq in Hp.
    destruct (lookup_lt_is_Some_2 (checkpairs_of cl) p ltac:(lia))
      as [[low high] Hpr].
    pose proof (list_elem_of_lookup_2 _ _ _ Hpr) as Hin.
    apply Hpairs in Hin as (_ & Hlow & Hhigh & _).
    destruct (Hindex low Hlow) as (il & Hil & _ & Hilt & [f1 Hf1]).
    destruct (Hindex high Hhigh) as (ih & Hih & _ & Hiht & [f2 Hf2]).
    exists (low, high), il, f1, ih, f2. rewrite length_replicate.
    auto 10. }
  rewrite length_replicate in Hlr.
  exists result. split.
  { unfold check_collisions. cbv zeta. rewrite Hbuild. simpl. exact Hrun. }
  split; [exact Hlr|].
  intros i Hi. split.
  - rewrite Hmarks. split.
    + intros [Hrep|(p & pr & il & f1 & ih & f2 & Hp & Hpr & Hil & Hf1 & Hih
                    & Hf2 & Hhit & Hwho)].
      { apply lookup_replicate in Hrep as [Hrep _]. discriminate. }
      destruct pr as [low high]. simpl in Hil, Hih.
      pose proof (list_elem_of_lookup_2 _ _ _ Hpr) as Hin.
      pose proof (proj1 (Hpairs low high) Hin) as (Hle & Hlow & Hhigh & Hnb).
      destruct (Hindex low Hlow) as (il' & Hil' & Hlil & _).
      destruct (Hindex high Hhigh) as (ih' & Hih' & Hlih & _).
      assert (il' = il) as -> by congruence.
      assert (ih' = ih) as -> by congruence.
      exists low, high, il, ih, f1, f2. auto 10.
    + intros (low & high & il & ih & f1 & f2 & Hle & Hnb & Hwho & Hlil & Hlih
              & Hf1 & Hf2 & Hhit).
      right.
      assert (Hin : (low, high) ∈ checkpairs_of cl).
      { apply Hpairs. split; [exact Hle|].
        split; [eapply list_elem_of_lookup_2; exact Hlil|].
        split; [eapply list_elem_of_lookup_2; exact Hlih|]. exact Hnb. }
      apply list_elem_of_lookup in Hin as [p Hp].
      pose proof (list_elem_of_lookup_2 _ _ _ Hp) as Hin.
      pose proof (proj1 (Hpairs low high) Hin) as (_ & Hlow & Hhigh & _).
      destruct (Hindex low Hlow) as (il' & Hil' & Hlil' & _).
      destruct (Hindex high Hhigh) as (ih' & Hih' & Hlih' & _).
      assert (il' = il) as -> by (eapply NoDup_lookup; eassumption).
      assert (ih' = ih) as -> by (eapply NoDup_lookup; eassumption).
      exists p, (low, high), il, f1, ih, f2.
      split.
      { rewrite (schedule_Permutation rt rt_conforming). apply elem_of_seq.
        apply lookup_lt_Some in Hp. lia. }
      split; [exact Hp|]. simpl. auto 10.
  - destruct (lookup_lt_is_Some_2 result i) as [[|] Hb].
    + rewrite Hlr. exact Hi.
    + left; exact Hb.
    + right; exact Hb.
Qed.

(** The test of a pair on two placements is what [collide_xy] answers. *)
Lemma pair_hit_collide_xy (hw : Hardware) (loc1 loc2 : Z) (xy1 xy2 : dpair)
    (r1 r2 : bool * shape * shape) :
  loc_position_xy hw loc1 xy1 = Some r1 →
  loc_position_xy hw loc2 xy2 = Some r2 →
  collide_xy intersect hw loc1 xy1 loc2 xy2
  = Some (pair_hit intersect (r1.1.1, (r1.1.2, r1.2))
                             (r2.1.1, (r2.1.2, r2.2))).
Proof.
  intros P1 P2. destruct r1 as [[f1 t1] p1]. destruct r2 as [[f2 t2] p2].
  rewrite (collide_xy_placed intersect hw loc1 loc2 xy1 xy2 f1 f2 t1 p1 t2 p2
             (loc_position_xy_has_location _ _ _ _ P1)
             (loc_position_xy_has_location _ _ _ _ P2) P1 P2).
  unfold pair_hit, arms_intersect. cbn [fst snd].
  destruct f1, f2, (intersect p1 p2), (intersect t1 p2), (intersect t2 p1);
    reflexivity.
Qed.

Lemma pair_hit_collide_thetaphi (hw : Hardware) (loc1 loc2 : Z)
    (theta1 phi1 theta2 phi2 : R) (r1 r2 : bool * shape * shape) :
  loc_position_thetaphi hw loc1 theta1 phi1 = Some r1 →
  loc_position_thetaphi hw loc2 theta2 phi2 = Some r2 →
  collide_thetaphi intersect hw loc1 theta1 phi1 loc2 theta2 phi2
  = Some (pair_hit intersect (r1.1.1, (r1.1.2, r1.2))
                             (r2.1.1, (r2.1.2, r2.2))).
Proof.
  intros P1 P2. destruct r1 as [[f1 t1] p1]. destruct r2 as [[f2 t2] p2].
  rewrite (collide_thetaphi_placed intersect hw loc1 loc2 theta1 phi1
             theta2 phi2 f1 f2 t1 p1 t2 p2 P1 P2).
  unfold pair_hit, arms_intersect. cbn [fst snd].
  destruct f1, f2, (intersect p1 p2), (intersect t1 p2), (intersect t2 p1);
    reflexivity.
Qed.

End BatchCore.

(** X21. The batch check by position agrees with the pairwise check: for
    pairwise distinct supplied locations of the hardware, one target each,
    all neighbors supplied, entry [i] of [check_collisions_xy] is true iff
    [collide_xy] answers true for some pair of supplied neighbors, smaller
    id first, one of which is location [i]; every other entry is false. *)
Theorem check_collisions_xy_agrees_with_collide_xy :
  ∀ (intersect : shape → shape → bool) (rt : Omp.runtime) (hw : Hardware)
    (loc : list Z) (xy : list dpair) (threads : Z),
    Omp.conforming rt →
    NoDup loc →
    length xy = length loc →
    (∀ lid, lid ∈ loc →
       has_location hw lid ∧ is_Some (neighbors hw !! lid)) →
    (∀ lid nb, lid ∈ loc → nb ∈ neighbors_at (neighbors hw) lid →
               nb ∈ loc) →
    ∃ result : list bool,
      check_collisions_xy intersect rt hw loc xy threads = Some result ∧
      length result = length loc ∧
      ∀ i : nat, (i < length loc)%nat →
        (result !! i = Some true
         ↔ ∃ (low high : Z) (ilow ihigh : nat) (xlow xhigh : dpair),
             (low <= high)%Z ∧
             (high ∈ neighbors_at (neighbors hw) low ∨
              low ∈ neighbors_at (neighbors hw) high) ∧
             (i = ilow ∨ i = ihigh) ∧
             loc !! ilow = Some low ∧ loc !! ihigh = Some high ∧
             xy !! ilow = Some xlow ∧ xy !! ihigh = Some xhigh ∧
             collide_xy intersect hw low xlow high xhigh = Some true) ∧
        (result !! i = Some true ∨ result !! i = Some false).
Proof.
  intros intersect rt hw loc xy threads Hrt Hnd Hlen Hknown Hclosed.
  destruct (loc_position_xy_multi_spec rt Hrt hw loc xy threads Hlen)
    as (fpos & Hfpos & Hlf & Hplace).
  { intros lid Hlid. apply Hknown, Hlid. }
  destruct (check_collisions_marks intersect rt Hrt hw loc fpos threads
              Hnd Hlf) as (result & Hrun & Hlr & Hmarks).
  { intros lid Hlid. apply Hknown, Hlid. }
  { exact Hclosed. }
  exists result. split.
  { unfold check_collisions_xy. rewrite Hfpos. exact Hrun. }
  split; [exact Hlr|].
  intros i Hi. destruct (Hmarks i Hi) as [Hiff Hbool].
  split; [|exact Hbool].
  rewrite Hiff. split.
  - intros (low & high & il & ih & f1 & f2 & Hle & Hnb & Hwho & Hlil & Hlih
            & Hf1 & Hf2 & Hhit).
    destruct (lookup_lt_is_Some_2 xy il) as [xl Hxl].
    { rewrite Hlen. eapply lookup_lt_Some; exact Hlil. }
    destruct (lookup_lt_is_Some_2 xy ih) as [xh Hxh].
    { rewrite Hlen. eapply lookup_lt_Some; exact Hlih. }
    destruct (Hplace il low xl Hlil Hxl) as (r1 & Hr1 & Hc1).
    destruct (Hplace ih high xh Hlih Hxh) as (r2 & Hr2 & Hc2).
    exists low, high, il, ih, xl, xh.
    do 7 (split; [assumption|]).
    rewrite (pair_hit_collide_xy intersect hw low high xl xh r1 r2 Hr1 Hr2).
    f_equal. unfold placement in *. congruence.
  - intros (low & high & il & ih & xl & xh & Hle & Hnb & Hwho & Hlil & Hlih
            & Hxl & Hxh & Hhit).
    destruct (Hplace il low xl Hlil Hxl) as (r1 & Hr1 & Hc1).
    destruct (Hplace ih high xh Hlih Hxh) as (r2 & Hr2 & Hc2).
    exists low, high, il, ih, (r1.1.1, (r1.1.2, r1.2)),
      (r2.1.1, (r2.1.2, r2.2)).
    do 5 (split; [assumption|]). split; [exact Hc1|]. split; [exact Hc2|].
    rewrite (pair_hit_collide_xy intersect hw low high xl xh r1 r2 Hr1 Hr2)
      in Hhit.
    congruence.
Qed.

Section BatchAngles.

Variable rt : Omp.runtime.
Hypothesis rt_conforming : Omp.conforming rt.

(** The placements by angles of the supplied locations. *)
Lemma loc_position_thetaphi_multi_spec (hw : Hardware) (loc : list Z)
    (theta phi : list R) (threads : Z) :
  length theta = length loc → length phi = length loc →
  (∀ lid, lid ∈ loc → has_location hw lid) →
  ∃ fpos : list placement,
    loc_position_thetaphi_multi rt hw loc theta phi threads = Some fpos ∧
    length fpos = length loc ∧
    ∀ (i : nat) (lid : Z) (t p : R),
      loc !! i = Some lid → theta !! i = Some t → phi !! i = Some p →
      ∃ r : bool * shape * shape,
        loc_position_thetaphi hw lid t p = Some r ∧
        fpos !! i = Some (r.1.1, (r.1.2, r.2)).
Proof.
  intros Hlt Hlp Hhas.
  rewrite (loc_position_thetaphi_multi_mapM rt rt_conforming).
  match goal with
  | |- context [mapM ?g0 _] => set (g := g0)
  end.
  destruct (mapM g (seq 0 (length loc))) as [fpos|] eqn:Hrun.
  - destruct (mapM_seq_lookup g _ _ Hrun) as [Hlen Hcells].
    exists fpos. split; [reflexivity|]. split; [exact Hlen|].
    intros i lid t p Hlid Ht Hp.
    destruct (Hcells i ltac:(eapply lookup_lt_Some; eassumption))
      as [Hg [v Hv]].
    unfold g in Hg. rewrite Hv, Hlid in Hg. simpl in Hg.
    rewrite Ht in Hg. simpl in Hg. rewrite Hp in Hg. simpl in Hg.
    destruct (loc_position_thetaphi hw lid t p) as [r|] eqn:Hr;
      [|discriminate].
    simpl in Hg. injection Hg as <-. exists r. auto.
  - exfalso. apply mapM_None_member in Hrun as (i & Hi & Hnone).
    apply elem_of_seq in Hi.
    destruct (lookup_lt_is_Some_2 loc i ltac:(lia)) as [lid Hlid].
    destruct (lookup_lt_is_Some_2 theta i ltac:(lia)) as [t Ht].
    destruct (lookup_lt_is_Some_2 phi i ltac:(lia)) as [p Hp].
    destruct (loc_position_thetaphi_Some hw lid t p) as [r Hr].
    { apply Hhas. eapply list_elem_of_lookup_2; eassumption. }
    unfold g in Hnone. rewrite Hlid in Hnone. simpl in Hnone.
    rewrite Ht in Hnone. simpl in Hnone. rewrite Hp in Hnone.
    simpl in Hnone. rewrite Hr in Hnone. discriminate.
Qed.

End BatchAngles.

(** X22. The batch check by angles: for pairwise distinct supplied locations
    of the hardware, one pair of angles each, all neighbors supplied,
    [check_collisions_thetaphi] returns a vector of the length of the
    input whose entry [i] is true iff [collide_thetaphi] answers true for
    some pair of supplied neighbors, smaller id first, one of which is
    location [i]; every other entry is false. *)
Theorem check_collisions_thetaphi_agrees_with_collide_thetaphi :
  ∀ (intersect : shape → shape → bool) (rt : Omp.runtime) (hw : Hardware)
    (loc : list Z) (theta phi : list R) (threads : Z),
    Omp.conforming rt →
    NoDup loc →
    length theta = length loc → length phi = length loc →
    (∀ lid, lid ∈ loc →
       has_location hw lid ∧ is_Some (neighbors hw !! lid)) →
    (∀ lid nb, lid ∈ loc → nb ∈ neighbors_at (neighbors hw) lid →
               nb ∈ loc) →
    ∃ result : list bool,
      check_collisions_thetaphi intersect rt hw loc theta phi threads
      = Some result ∧
      length result = length loc ∧
      ∀ i : nat, (i < length loc)%nat →
        (result !! i = Some true
         ↔ ∃ (low high : Z) (ilow ihigh : nat) (tlow plow thigh phigh : R),
             (low <= high)%Z ∧
             (high ∈ neighbors_at (neighbors hw) low ∨
              low ∈ neighbors_at (neighbors hw) high) ∧
             (i = ilow ∨ i = ihigh) ∧
             loc !! ilow = Some low ∧ loc !! ihigh = Some high ∧
             theta !! ilow = Some tlow ∧ phi !! ilow = Some plow ∧
             theta !! ihigh = Some thigh ∧ phi !! ihigh = Some phigh ∧
             collide_thetaphi intersect hw low tlow plow high thigh phigh
             = Some true) ∧
        (result !! i = Some true ∨ result !! i = Some false).
Proof.
  intros intersect rt hw loc theta phi threads Hrt Hnd Hlt Hlp Hknown Hclosed.
  destruct (loc_position_thetaphi_multi_spec rt Hrt hw loc theta phi threads
              Hlt Hlp) as (fpos & Hfpos & Hlf & Hplace).
  { intros lid Hlid. apply Hknown, Hlid. }
  destruct (check_collisions_marks intersect rt Hrt hw loc fpos threads
              Hnd Hlf) as (result & Hrun & Hlr & Hmarks).
  { intros lid Hlid. apply Hknown, Hlid. }
  { exact Hclosed. }
  exists result. split.
  { unfold check_collisions_thetaphi. rewrite Hfpos. exact Hrun. }
  split; [exact Hlr|].
  intros i Hi. destruct (Hmarks i Hi) as [Hiff Hbool].
  split; [|exact Hbool].
  rewrite Hiff. split.
  - intros (low & high & il & ih & f1 & f2 & Hle & Hnb & Hwho & Hlil & Hlih
            & Hf1 & Hf2 & Hhit).
    destruct (lookup_lt_is_Some_2 theta il) as [tl Htl].
    { rewrite Hlt. eapply lookup_lt_Some; exact Hlil. }
    destruct (lookup_lt_is_Some_2 phi il) as [pl Hpl].
    { rewrite Hlp. eapply lookup_lt_Some; exact Hlil. }
    destruct (lookup_lt_is_Some_2 theta ih) as [th Hth].
    { rewrite Hlt. eapply lookup_lt_Some; exact Hlih. }
    destruct (lookup_lt_is_Some_2 phi ih) as [ph Hph].
    { rewrite Hlp. eapply lookup_lt_Some; exact Hlih. }
    destruct (Hplace il low tl pl Hlil Htl Hpl) as (r1 & Hr1 & Hc1).
    destruct (Hplace ih high th ph Hlih Hth Hph) as (r2 & Hr2 & Hc2).
    exists low, high, il, ih, tl, pl, th, ph.
    do 9 (split; [assumption|]).
    rewrite (pair_hit_collide_thetaphi intersect hw low high tl pl th ph
               r1 r2 Hr1 Hr2).
    f_equal. unfold placement in *. congruence.
  - intros (low & high & il & ih & tl & pl & th & ph & Hle & Hnb & Hwho
            & Hlil & Hlih & Htl & Hpl & Hth & Hph & Hhit).
    destruct (Hplace il low tl pl Hlil Htl Hpl) as (r1 & Hr1 & Hc1).
    destruct (Hplace ih high th ph Hlih Hth Hph) as (r2 & Hr2 & Hc2).
    exists low, high, il, ih, (r1.1.1, (r1.1.2, r1.2)),
      (r2.1.1, (r2.1.2, r2.2)).
    do 5 (split; [assumption|]). split; [exact Hc1|]. split; [exact Hc2|].
    rewrite (pair_hit_collide_thetaphi intersect hw low high tl pl th ph
               r1 r2 Hr1 Hr2) in Hhit.
    congruence.
Qed.

Lemma check_collisions_thetaphi_agrees_with_collide_thetaphi_witness :
  ∃ result : list bool,
    check_collisions_thetaphi circles_overlap Omp.sequential hw_pair
      [1%Z; 2%Z] [0; PI] [0; 0] 2 = Some result ∧
    length result = 2%nat.
Proof.
  destruct (check_collisions_thetaphi_agrees_with_collide_thetaphi
              circles_overlap Omp.sequential hw_pair
              [1%Z; 2%Z] [0; PI] [0; 0] 2 sequential_conforming)
    as (result & Hrun & Hlen & _).
  - apply NoDup_cons. split.
    + intros H. apply list_elem_of_singleton in H. discriminate.
    + apply NoDup_singleton.
  - reflexivity.
  - reflexivity.
  - exact hw_pair_known.
  - exact hw_pair_closed.
  - exists result. split; [exact Hrun | exact Hlen].
Defined.

Lemma check_collisions_xy_agrees_with_collide_xy_witness :
  ∃ result : list bool,
    check_collisions_xy circles_overlap Omp.sequential hw_pair
      [1%Z; 2%Z] [(3, 0); (3, 0)] 2 = Some result ∧
    length result = 2%nat.
Proof.
  destruct (check_collisions_xy_agrees_with_collide_xy
              circles_overlap Omp.sequential hw_pair
              [1%Z; 2%Z] [(3, 0); (3, 0)] 2 sequential_conforming)
    as (result & Hrun & Hlen & _).
  - apply NoDup_cons. split.
    + intros H. apply list_elem_of_singleton in H. discriminate.
    + apply NoDup_singleton.
  - reflexivity.
  - exact hw_pair_known.
  - exact hw_pair_closed.
  - exists result. split; [exact Hrun | exact Hlen].
Defined.

Lemma reversed_runtime_conforming : Omp.conforming reversed_runtime.
Proof.
  split; [simpl; lia|]. intros n k Hk. split; simpl.
  - rewrite reverse_Permutation. reflexivity.
  - intros b Hb. apply sublist_concat_member.
    apply elem_of_reverse. exact Hb.
Qed.

(** Scenario S3 on four threads whose blocks take effect in reverse order,
    against the run without OpenMP. *)
Lemma check_collisions_thread_independent_witness :
  check_collisions_xy circles_overlap reversed_runtime hw_pair
    [1%Z; 2%Z] [(3, 0); (3, 0)] 4
  = check_collisions_xy circles_overlap Omp.sequential hw_pair
      [1%Z; 2%Z] [(3, 0); (3, 0)] 1.
Proof.
  exact (proj1 (check_collisions_thread_independent circles_overlap
                  Omp.sequential reversed_runtime hw_pair [1%Z; 2%Z]
                  [(3, 0); (3, 0)] [0; 0] [0; 0] 1 4
                  sequential_conforming reversed_runtime_conforming
                  eq_refl eq_refl eq_refl)).
Defined.

(** ** More on the tile set *)

(** X23. [Tiles] stores an index for the ids of the input and for nothing
    else: every entry of [order] points at a position of the input that
    holds its key, and an id that is not in the input has no entry. The
    other members are the arguments as given. *)
Theorem Tiles_order_only_input_ids :
  ∀ (Hw : Type) (hw : Hw) (ids : list Z) (ras decs : list R) (obs : list Z),
    let T := Tiles.new hw ids ras decs obs in
    (∀ (tid : Z) (i : nat),
       Tiles.order T !! tid = Some i →
       ids !! i = Some tid ∧ (i < length ids)%nat) ∧
    (∀ tid : Z, Tiles.order T !! tid = None ↔ tid ∉ ids) ∧
    Tiles.hw_ T = hw ∧ Tiles.ra T = ras ∧ Tiles.dec T = decs ∧
    Tiles.obscond T = obs.
Proof.
  intros Hw hw ids ras decs obs T. unfold T, Tiles.new. simpl.
  split; [|split; [|auto]].
  - intros tid i Hi.
    destruct (order_loop_lookup ids 0%nat ∅ tid)
      as [[_ Hlk] | (j & Hlk & Hj & _)].
    + rewrite Hlk, lookup_empty in Hi. discriminate.
    + rewrite Hlk in Hi. injection Hi as <-. simpl.
      split; [exact Hj | eapply lookup_lt_Some; exact Hj].
  - intros tid.
    destruct (order_loop_lookup ids 0%nat ∅ tid)
      as [[Hnin Hlk] | (j & Hlk & Hj & _)].
    + rewrite Hlk, lookup_empty. tauto.
    + rewrite Hlk. split; [discriminate|].
      intros Hnin. exfalso. apply Hnin.
      eapply list_elem_of_lookup_2; exact Hj.
Qed.

(** ** More on the constructor *)

Section ConstructorTables.

Lemma fold_rows_scalars (rows : list HardwareRow) (hw : Hardware) :
  let hw' := fold_left Hardware_row rows hw in
  npetal hw' = npetal hw ∧ timestr_ hw' = timestr_ hw.
Proof.
  induction rows as [|r rows IH] using rev_ind; simpl; [auto|].
  rewrite fold_rows_snoc. simpl. exact IH.
Qed.

(** The members of a constructed hardware in terms of the state [st] that
    the main loop leaves. *)
Lemma Hardware_new_members (a : HardwareArgs) (hw : Hardware) :
  Hardware_new a = Some hw →
  ∃ (rows : list HardwareRow) (excl : gmap Z shape * gmap Z shape),
    mapM (read_row a) (seq 0 (length (arg_location a))) = Some rows ∧
    let st := fold_left Hardware_row rows
                (Hardware_cleared a (maxpetal_of (arg_petal a) + 1)) in
    rotate_excl_all (loc_petal st) (stable_sort (arg_location a))
                    (loc_gfa_excl st, loc_petal_excl st) = Some excl ∧
    nloc hw = length (arg_location a) ∧
    npetal hw = Z.to_nat (maxpetal_of (arg_petal a) + 1) ∧
    nfiber_petal hw = 500%Z ∧ focalplane_radius_deg hw = 1.65 ∧
    neighbor_radius_mm hw = 14.05 ∧ patrol_buffer_mm hw = 0.2 ∧
    timestr_ hw = arg_timestr a ∧
    locations hw = stable_sort (arg_location a) ∧
    petal_locations hw
    = sort_petal_locations (Z.to_nat (maxpetal_of (arg_petal a) + 1))
                           (petal_locations st) ∧
    loc_petal hw = loc_petal st ∧
    loc_device_type hw = loc_device_type st ∧
    loc_theta_excl hw = loc_theta_excl st ∧
    loc_phi_excl hw = loc_phi_excl st ∧
    loc_gfa_excl hw = excl.1 ∧ loc_petal_excl hw = excl.2.
Proof.
  unfold Hardware_new. intros H.
  destruct (Int32.add (maxpetal_of (arg_petal a)) 1) as [n|] eqn:Hn;
    simpl in H; [|discriminate].
  apply Int32_add_Some in Hn as [-> _].
  destruct (mapM (read_row a) (seq 0 (length (arg_location a))))
    as [rows|] eqn:Hrows; simpl in H; [|discriminate].
  set (st0 := Hardware_cleared a (maxpetal_of (arg_petal a) + 1)) in *.
  pose proof (fold_rows_locations rows st0) as Hlocs.
  rewrite (read_rows_locations a rows Hrows) in Hlocs. simpl in Hlocs.
  rewrite Hlocs in H.
  destruct (fold_rows_scalars rows st0) as [Hnp Hts].
  simpl in Hnp, Hts. rewrite Hnp in H.
  destruct (rotate_excl_all _ _ _) as [excl|] eqn:Hexcl; simpl in H;
    [|discriminate].
  exists rows, excl. split; [reflexivity|]. split; [exact Hexcl|].
  injection H as <-. simpl. rewrite Hts.
  repeat (split; [reflexivity|]). reflexivity.
Qed.

End ConstructorTables.

(** X24. What the constructor leaves in the scalar members and in
    [locations], for petal indices that are [int32_t] values of at most
    [INT32_MAX - 7]: the hard-coded constants, the time string as given,
    [nloc] the number of rows, [npetal] one more than the largest petal
    index or 1 when none is positive (so at least 1, at most [INT32_MAX],
    and above every petal index of the input), and [locations] the ids of
    the input in ascending order, with their repetitions. *)
Theorem Hardware_new_locations_sorted :
  ∀ (a : HardwareArgs) (hw : Hardware),
    Hardware_new a = Some hw →
    petals_in_range a →
    Sorted Z.le (locations hw) ∧
    locations hw ≡ₚ arg_location a ∧
    nloc hw = length (locations hw) ∧
    Z.of_nat (npetal hw) = (maxpetal_of (arg_petal a) + 1)%Z ∧
    (1 ≤ Z.of_nat (npetal hw) ≤ Int32.max - 6)%Z ∧
    (∀ p : Z, p ∈ arg_petal a → (p < Z.of_nat (npetal hw))%Z) ∧
    nfiber_petal hw = 500%Z ∧ focalplane_radius_deg hw = 1.65 ∧
    neighbor_radius_mm hw = 14.05 ∧ patrol_buffer_mm hw = 0.2 ∧
    time hw = arg_timestr a.
Proof.
  intros a hw Hnew Hrange.
  destruct (Hardware_new_members a hw Hnew)
    as (rows & excl & _ & _ & Hnloc & Hnp & Hnf & Hfr & Hnr & Hpb & Hts
        & Hlocs & _).
  destruct (maxpetal_of_bounds (arg_petal a) 0%Z) as (Hge & Hall & Hwho).
  fold (maxpetal_of (arg_petal a)) in Hge, Hall, Hwho.
  assert (Hmax : (maxpetal_of (arg_petal a) ≤ Int32.max - 7)%Z).
  { destruct Hwho as [->|Hin]; [unfold Int32.max; lia|].
    unfold petals_in_range in Hrange. rewrite Forall_forall in Hrange.
    apply (Hrange _ Hin). }
  split.
  { rewrite Hlocs. unfold stable_sort. apply Sorted_merge_sort.
    intros x y. lia. }
  split.
  { rewrite Hlocs. unfold stable_sort. apply merge_sort_Permutation. }
  split.
  { rewrite Hnloc, Hlocs. unfold stable_sort.
    rewrite merge_sort_Permutation. reflexivity. }
  split; [rewrite Hnp; lia|].
  split; [rewrite Hnp; lia|].
  split.
  { intros p Hp. rewrite Hnp. specialize (Hall p Hp). lia. }
  unfold time. auto 10.
Qed.

Lemma Hardware_new_locations_sorted_witness :
  ∃ hw : Hardware,
    Hardware_new args_pair = Some hw ∧ Sorted Z.le (locations hw) ∧
    nloc hw = length (locations hw).
Proof.
  destruct (Hardware_new_Some args_pair args_pair_aligned
              args_pair_petals) as [hw Hhw].
  exists hw. split; [exact Hhw|].
  destruct (Hardware_new_locations_sorted args_pair hw Hhw args_pair_petals)
    as (Hs & _ & Hn & _).
  split; [exact Hs | exact Hn].
Defined.

Section DeviceFacts.

Lemma device_locations_loop_spec (types : gmap Z string) (type : string)
    (locs : list Z) :
  ∀ ret : list Z,
    (∀ fid, fid ∈ locs → is_Some (types !! fid)) →
    device_locations_loop types type locs ret
    = Some (ret ++ filter (λ fid, types !! fid = Some type) locs).
Proof.
  induction locs as [|fid locs IH]; intros ret Hdom; simpl.
  - by rewrite app_nil_r.
  - destruct (Hdom fid) as [ty Hty]; [apply list_elem_of_here|].
    rewrite Hty. simpl. rewrite IH.
    2:{ intros k Hk. apply Hdom. by apply list_elem_of_further. }
    f_equal. rewrite filter_cons.
    destruct (bool_decide_reflect (type = ty)) as [->|Hne].
    + rewrite decide_True by (rewrite Hty; reflexivity).
      by rewrite <- app_assoc.
    + rewrite decide_False; [reflexivity|].
      rewrite Hty. intros Heq. injection Heq as ->. contradiction.
Qed.

Lemma device_locations_loop_None (types : gmap Z string) (type : string)
    (locs : list Z) (fid : Z) :
  fid ∈ locs → types !! fid = None →
  ∀ ret : list Z, device_locations_loop types type locs ret = None.
Proof.
  intros Hin Hnone. induction locs as [|k locs IH]; intros ret; simpl.
  - apply elem_of_nil in Hin. contradiction.
  - apply elem_of_cons in Hin as [->|Hin].
    + rewrite Hnone. reflexivity.
    + destruct (types !! k); simpl; [apply IH, Hin | reflexivity].
Qed.

Lemma fold_rows_device_type (rows : list HardwareRow) (hw : Hardware) (k : Z) :
  k ∈ row_location <$> rows →
  is_Some (loc_device_type (fold_left Hardware_row rows hw) !! k).
Proof.
  induction rows as [|r rows IH] using rev_ind; intros Hk.
  - apply elem_of_nil in Hk. contradiction.
  - rewrite fold_rows_snoc. rewrite fmap_app in Hk. simpl in Hk.
    unfold Hardware_row. simpl.
    destruct (decide (row_location r = k)) as [->|Hne].
    + rewrite lookup_insert_eq. eauto.
    + rewrite lookup_insert_ne by exact Hne.
      apply elem_of_app in Hk as [Hk|Hk]; [exact (IH Hk)|].
      apply list_elem_of_singleton in Hk. congruence.
Qed.

Lemma StronglySorted_filter_le (P : Z → Prop) `{∀ x, Decision (P x)}
    (l : list Z) :
  StronglySorted Z.le l → StronglySorted Z.le (filter P l).
Proof.
  induction 1 as [|x l Hl IH Hx]; [constructor|].
  rewrite filter_cons. destruct (decide (P x)); [|exact IH].
  constructor; [exact IH|].
  apply Forall_forall. intros y Hy. apply list_elem_of_filter in Hy as [_ Hy].
  rewrite Forall_forall in Hx. apply Hx, Hy.
Qed.

End DeviceFacts.

(** X25. [device_locations] returns the entries of [locations], in their
    order, whose device type is the string asked for; it throws when an
    entry of [locations] has no device type, which does not happen on a
    constructed hardware, where the result is in ascending order. *)
Theorem device_locations_filters_by_type :
  ∀ (hw : Hardware) (type : string),
    ((∀ fid, fid ∈ locations hw → is_Some (loc_device_type hw !! fid)) →
     device_locations hw type
     = Some (filter (λ fid, loc_device_type hw !! fid = Some type)
                    (locations hw))) ∧
    ((∃ fid, fid ∈ locations hw ∧ loc_device_type hw !! fid = None) →
     device_locations hw type = None) ∧
    (∀ a : HardwareArgs,
       Hardware_new a = Some hw →
       ∃ ret : list Z,
         device_locations hw type = Some ret ∧ Sorted Z.le ret ∧
         ∀ fid, fid ∈ ret
                ↔ fid ∈ arg_location a ∧
                  loc_device_type hw !! fid = Some type).
Proof.
  intros hw type. unfold device_locations.
  split; [|split].
  - intros Hdom. rewrite device_locations_loop_spec by exact Hdom.
    reflexivity.
  - intros (fid & Hin & Hnone).
    eapply device_locations_loop_None; eassumption.
  - intros a Hnew.
    destruct (Hardware_new_members a hw Hnew)
      as (rows & excl & Hrows & _ & _ & _ & _ & _ & _ & _ & _ & Hlocs & _
          & _ & Hdt & _).
    rewrite device_locations_loop_spec.
    2:{ intros fid Hfid. rewrite Hdt, Hlocs in *.
        unfold stable_sort in Hfid. rewrite merge_sort_Permutation in Hfid.
        rewrite <- (read_rows_locations a rows Hrows) in Hfid.
        apply fold_rows_device_type. exact Hfid. }
    eexists. split; [reflexivity|]. simpl. split.
    + apply StronglySorted_Sorted, StronglySorted_filter_le.
      apply Sorted_StronglySorted; [intros x y z; lia|].
      rewrite Hlocs. unfold stable_sort. apply Sorted_merge_sort.
      intros x y. lia.
    + intros fid. rewrite list_elem_of_filter, Hlocs. unfold stable_sort.
      rewrite merge_sort_Permutation. tauto.
Qed.

Section PetalFacts.

(** Where the remaining fields of a row come from. *)
Lemma read_row_more_fields (a : HardwareArgs) (i : nat) (r : HardwareRow) :
  read_row a i = Some r →
  arg_petal a !! i = Some (row_petal r) ∧
  arg_excl_theta a !! i = Some (row_excl_theta r) ∧
  arg_excl_phi a !! i = Some (row_excl_phi r) ∧
  arg_excl_gfa a !! i = Some (row_excl_gfa r) ∧
  arg_excl_petal a !! i = Some (row_excl_petal r).
Proof.
  unfold read_row. intros H.
  repeat match type of H with
  | context [ ?l !! i ] =>
      destruct (l !! i) eqn:?; simpl in H; [|discriminate]
  end.
  injection H as <-. simpl. auto 10.
Qed.

Lemma read_rows_zip (a : HardwareArgs) (rows : list HardwareRow) :
  mapM (read_row a) (seq 0 (length (arg_location a))) = Some rows →
  (λ r, (row_location r, row_petal r)) <$> rows
  = zip (arg_location a) (arg_petal a).
Proof.
  intros H. destruct (read_rows_lookup a rows H) as [Hlen Hrows].
  apply list_eq. intros i. rewrite list_lookup_fmap.
  rewrite lookup_zip_with.
  destruct (rows !! i) as [r|] eqn:Hr; simpl.
  - pose proof (Hrows i r Hr) as Hrow.
    destruct (read_row_fields a i r Hrow) as (-> & _).
    destruct (read_row_more_fields a i r Hrow) as (-> & _).
    reflexivity.
  - apply lookup_ge_None in Hr.
    rewrite (lookup_ge_None_2 (arg_location a) i) by lia. reflexivity.
Qed.

(** The main loop appends to [petal_locations[p]] the ids of the rows of
    petal [p], in their order. *)
Lemma fold_rows_petal_locations (rows : list HardwareRow) (hw : Hardware)
    (p : Z) :
  neighbors_at (petal_locations (fold_left Hardware_row rows hw)) p
  = neighbors_at (petal_locations hw) p
    ++ (filter (λ lp : Z * Z, lp.2 = p)
               ((λ r, (row_location r, row_petal r)) <$> rows)).*1.
Proof.
  induction rows as [|r rows IH] using rev_ind; simpl.
  - by rewrite app_nil_r.
  - rewrite fold_rows_snoc, fmap_app, filter_app, fmap_app, app_assoc, <- IH.
    unfold Hardware_row at 1. cbn [petal_locations].
    unfold neighbors_at at 1. rewrite lookup_push_back.
    rewrite fmap_cons, fmap_nil, filter_cons, filter_nil. cbn [snd].
    destruct (decide (row_petal r = p)) as [Heq|Hne].
    + simpl. rewrite Heq. reflexivity.
    + simpl. unfold neighbors_at. by rewrite app_nil_r.
Qed.

Lemma fold_rows_petal_locations_None (rows : list HardwareRow) (hw : Hardware)
    (p : Z) :
  petal_locations hw !! p = None →
  (filter (λ lp : Z * Z, lp.2 = p)
          ((λ r, (row_location r, row_petal r)) <$> rows)) = [] →
  petal_locations (fold_left Hardware_row rows hw) !! p = None.
Proof.
  induction rows as [|r rows IH] using rev_ind; intros Hnone Hfil; simpl.
  - exact Hnone.
  - rewrite fold_rows_snoc. rewrite fmap_app, filter_app in Hfil.
    apply app_eq_nil in Hfil as [Hfil Hlast].
    simpl in Hlast. rewrite filter_cons, filter_nil in Hlast.
    cbn [snd] in Hlast.
    destruct (decide (row_petal r = p)) as [Heq|Hne]; [discriminate|].
    unfold Hardware_row. cbn [petal_locations].
    rewrite lookup_push_back, decide_False by exact Hne.
    apply IH; assumption.
Qed.

Lemma fold_rows_petal_locations_Some (rows : list HardwareRow) (hw : Hardware)
    (p : Z) :
  (filter (λ lp : Z * Z, lp.2 = p)
          ((λ r, (row_location r, row_petal r)) <$> rows)) ≠ [] →
  is_Some (petal_locations (fold_left Hardware_row rows hw) !! p).
Proof.
  induction rows as [|r rows IH] using rev_ind; intros Hfil; simpl.
  - contradiction.
  - rewrite fold_rows_snoc. unfold Hardware_row. cbn [petal_locations].
    rewrite lookup_push_back.
    destruct (decide (row_petal r = p)) as [Heq|Hne]; [eauto|].
    apply IH. intros Hnil. apply Hfil.
    rewrite fmap_app, filter_app, Hnil. simpl.
    rewrite filter_cons, filter_nil. cbn [snd].
    rewrite decide_False by exact Hne. reflexivity.
Qed.

(** The cleared table has an empty vector for each petal below [npetal]. *)
Lemma cleared_petal_locations (n : nat) (k : Z) :
  fold_left (λ (m : gmap Z (list Z)) (i : nat), <[Z.of_nat i := []]> m)
            (seq 0 n) ∅ !! k
  = if decide (0 <= k < Z.of_nat n)%Z then Some [] else None.
Proof.
  induction n as [|n IH].
  - simpl. rewrite lookup_empty. rewrite decide_False by lia. reflexivity.
  - rewrite seq_S, fold_left_app. simpl.
    destruct (decide (Z.of_nat n = k)) as [<-|Hne].
    + rewrite lookup_insert_eq. rewrite decide_True by lia. reflexivity.
    + rewrite lookup_insert_ne by exact Hne. rewrite IH.
      destruct (decide (0 <= k < Z.of_nat n)%Z);
        [rewrite decide_True by lia | rewrite decide_False by lia];
        reflexivity.
Qed.

(** The sorting loop sorts the vectors of the petals below [npetal] and
    leaves the other entries alone. *)
Lemma sort_petal_locations_lookup (n : nat) (m : gmap Z (list Z)) (k : Z) :
  sort_petal_locations n m !! k
  = if decide (0 <= k < Z.of_nat n)%Z
    then Some (stable_sort (neighbors_at m k)) else m !! k.
Proof.
  unfold sort_petal_locations. induction n as [|n IH].
  - simpl. rewrite decide_False by lia. reflexivity.
  - rewrite seq_S, fold_left_app. simpl.
    destruct (decide (Z.of_nat n = k)) as [<-|Hne].
    + rewrite lookup_insert_eq. rewrite decide_True by lia.
      rewrite IH. rewrite decide_False by lia. reflexivity.
    + rewrite lookup_insert_ne by exact Hne. rewrite IH.
      destruct (decide (0 <= k < Z.of_nat n)%Z);
        [rewrite decide_True by lia | rewrite decide_False by lia];
        reflexivity.
Qed.

End PetalFacts.

(** X26. [petal_locations] after construction, for petal indices that are
    [int32_t] values of at most [INT32_MAX - 7]: for every petal index
    below [npetal] the ids of the rows of that petal in ascending order (an
    empty vector when the petal has no row); a petal index that is negative
    is not sorted and keeps its ids in the order of the input; no other key
    has an entry, [npetal] being above every petal index. *)
Theorem Hardware_new_petal_locations :
  ∀ (a : HardwareArgs) (hw : Hardware) (p : Z),
    Hardware_new a = Some hw →
    petals_in_range a →
    ((0 <= p < Z.of_nat (npetal hw))%Z →
     petal_locations hw !! p = Some (stable_sort (ids_of_petal a p))) ∧
    ((p < 0)%Z →
     petal_locations hw !! p
     = if decide (ids_of_petal a p = []) then None
       else Some (ids_of_petal a p)) ∧
    ((Z.of_nat (npetal hw) <= p)%Z →
     petal_locations hw !! p = None ∧ ids_of_petal a p = []).
Proof.
  intros a hw p Hnew _.
  destruct (Hardware_new_members a hw Hnew)
    as (rows & excl & Hrows & _ & _ & Hnp & _ & _ & _ & _ & _ & _ & Hpl & _).
  set (st0 := Hardware_cleared a (maxpetal_of (arg_petal a) + 1)) in *.
  pose proof (fold_rows_petal_locations rows st0 p) as Hfold.
  rewrite (read_rows_zip a rows Hrows) in Hfold.
  fold (ids_of_petal a p) in Hfold.
  assert (Hclr : petal_locations st0 !! p
                 = if decide (0 <= p < Z.of_nat (npetal hw))%Z
                   then Some [] else None).
  { unfold st0, Hardware_cleared. cbn [petal_locations].
    rewrite cleared_petal_locations, Hnp. reflexivity. }
  assert (Hclr' : neighbors_at (petal_locations st0) p = []).
  { unfold neighbors_at. rewrite Hclr. destruct (decide _); reflexivity. }
  rewrite Hclr' in Hfold. simpl in Hfold.
  rewrite Hpl, <- Hnp, sort_petal_locations_lookup.
  assert (Hother : ¬ (0 <= p < Z.of_nat (npetal hw))%Z →
            petal_locations (fold_left Hardware_row rows st0) !! p
            = if decide (ids_of_petal a p = []) then None
              else Some (ids_of_petal a p)).
  { intros Hout. rewrite decide_False in Hclr by exact Hout.
    destruct (decide (ids_of_petal a p = [])) as [Hnil|Hsome].
    - apply fold_rows_petal_locations_None; [exact Hclr|].
      rewrite (read_rows_zip a rows Hrows).
      unfold ids_of_petal in Hnil. apply fmap_nil_inv in Hnil. exact Hnil.
    - destruct (fold_rows_petal_locations_Some rows st0 p) as [l Hl].
      + rewrite (read_rows_zip a rows Hrows). intros Hnil. apply Hsome.
        unfold ids_of_petal. rewrite Hnil. reflexivity.
      + unfold neighbors_at in Hfold. rewrite Hl in Hfold. simpl in Hfold.
        rewrite Hl, Hfold. reflexivity. }
  split; [|split].
  - intros Hin. rewrite decide_True by exact Hin. rewrite Hfold. reflexivity.
  - intros Hneg. rewrite decide_False by lia. apply Hother. lia.
  - intros Hbig. rewrite decide_False by lia.
    assert (Hnil : ids_of_petal a p = []).
    { destruct (ids_of_petal a p) as [|lid l] eqn:Hids; [reflexivity|].
      exfalso.
      assert (Hlid : lid ∈ ids_of_petal a p)
        by (rewrite Hids; apply list_elem_of_here).
      unfold ids_of_petal in Hlid.
      apply list_elem_of_fmap in Hlid as ([lid' q] & _ & Hin).
      apply list_elem_of_filter in Hin as [Hq Hin]. simpl in Hq. subst q.
      apply list_elem_of_lookup in Hin as [i Hi].
      rewrite lookup_zip_with in Hi.
      destruct (arg_location a !! i); simpl in Hi; [|discriminate].
      destruct (arg_petal a !! i) as [q|] eqn:Hq; simpl in Hi;
        [|discriminate].
      injection Hi as _ ->.
      destruct (maxpetal_of_bounds (arg_petal a) 0%Z) as (Hge & Hall & _).
      fold (maxpetal_of (arg_petal a)) in Hge, Hall.
      specialize (Hall p (list_elem_of_lookup_2 _ _ _ Hq)).
      rewrite Hnp in Hbig. lia. }
    split; [|exact Hnil].
    rewrite Hother by lia. rewrite decide_True by exact Hnil. reflexivity.
Qed.

(** Two rows of petal 0, given with the larger id first, and one of the
    negative petal -1. *)
Lemma Hardware_new_petal_locations_witness :
  ∃ hw : Hardware,
    Hardware_new (sample_args [8%Z; 3%Z; 5%Z] [0%Z; 0%Z; (-1)%Z]
                              [0; 20; 40] [0; 0; 0] 3 (-180) 180) = Some hw ∧
    petal_locations hw !! 0%Z = Some [3%Z; 8%Z] ∧
    petal_locations hw !! (-1)%Z = Some [5%Z].
Proof.
  set (a := sample_args [8%Z; 3%Z; 5%Z] [0%Z; 0%Z; (-1)%Z]
                        [0; 20; 40] [0; 0; 0] 3 (-180) 180).
  assert (Hal : args_aligned a).
  { unfold args_aligned. simpl. repeat split; reflexivity. }
  assert (Hpt : petals_in_range a).
  { unfold petals_in_range, Int32.min, Int32.max. simpl.
    repeat constructor; lia. }
  destruct (Hardware_new_Some a Hal Hpt) as [hw Hhw].
  exists hw. split; [exact Hhw|].
  assert (Hnp : npetal hw = 1%nat).
  { destruct (Hardware_new_members a hw Hhw)
      as (? & ? & _ & _ & _ & Hnp & _). rewrite Hnp. reflexivity. }
  split.
  - rewrite (proj1 (Hardware_new_petal_locations a hw 0 Hhw Hpt)) by
      (rewrite Hnp; lia).
    reflexivity.
  - rewrite (proj1 (proj2 (Hardware_new_petal_locations a hw (-1) Hhw Hpt)))
      by lia.
    reflexivity.
Defined.

Section ExclusionFacts.

(** Every id keeps the petal and the four polygons of the last row that
    names it. *)
Lemma fold_rows_last_excl (rows : list HardwareRow) (hw : Hardware)
    (i : nat) (r : HardwareRow) :
  rows !! i = Some r →
  (∀ (j : nat) (r' : HardwareRow),
     rows !! j = Some r' → row_location r' = row_location r → (j ≤ i)%nat) →
  let hw' := fold_left Hardware_row rows hw in
  loc_petal hw' !! row_location r = Some (row_petal r) ∧
  loc_theta_excl hw' !! row_location r = Some (row_excl_theta r) ∧
  loc_phi_excl hw' !! row_location r = Some (row_excl_phi r) ∧
  loc_gfa_excl hw' !! row_location r = Some (row_excl_gfa r) ∧
  loc_petal_excl hw' !! row_location r = Some (row_excl_petal r).
Proof.
  revert i r. induction rows as [|r' rows IH] using rev_ind;
    intros i r Hi Hlast; [discriminate|].
  rewrite fold_rows_snoc. unfold Hardware_row. simpl.
  destruct (decide (i < length rows)%nat) as [Hlt|Hge].
  - rewrite lookup_app_l in Hi by exact Hlt.
    assert (row_location r' ≠ row_location r) as Hne.
    { intros Heq. specialize (Hlast (length rows) r').
      rewrite lookup_app_r, Nat.sub_diag in Hlast by lia.
      specialize (Hlast eq_refl Heq). lia. }
    rewrite !lookup_insert_ne by exact Hne.
    apply (IH i r Hi). intros j r'' Hj Heq.
    apply (Hlast j r''); [|exact Heq].
    rewrite lookup_app_l; [exact Hj|].
    eapply lookup_lt_Some; eassumption.
  - rewrite lookup_app_r in Hi by lia.
    destruct (i - length rows)%nat; simpl in Hi; [|discriminate].
    injection Hi as ->. rewrite !lookup_insert_eq. auto.
Qed.

(** The last loop turns the two polygons of an id once for each time the
    id occurs in the list it runs over. *)
Lemma rotate_excl_all_lookup (petals : gmap Z Z) (locs : list Z) :
  ∀ (excl excl' : gmap Z shape * gmap Z shape) (k : Z),
    rotate_excl_all petals locs excl = Some excl' →
    let turn :=
      Nat.iter (length (filter (λ x, x = k) locs))
               (rotation_origin (petal_rotation (default 0%Z (petals !! k)))) in
    excl'.1 !! k = turn <$> excl.1 !! k ∧
    excl'.2 !! k = turn <$> excl.2 !! k.
Proof.
  induction locs as [|lid locs IH]; intros excl excl' k Hrun; simpl in Hrun.
  - injection Hrun as <-. simpl.
    destruct (excl.1 !! k), (excl.2 !! k); auto.
  - unfold rotate_excl in Hrun. cbv zeta in Hrun.
    destruct (Int32.add 7 (default 0%Z (petals !! lid))) as [petal_7|]
      eqn:Hsum; simpl in Hrun; [|discriminate].
    apply Int32_add_Some in Hsum as [-> _].
    destruct (excl.1 !! lid) as [gfa|] eqn:Hgfa; simpl in Hrun;
      [|discriminate].
    destruct (excl.2 !! lid) as [ptl|] eqn:Hptl; simpl in Hrun;
      [|discriminate].
    destruct (IH _ excl' k Hrun) as [H1 H2]. cbn [fst snd] in H1, H2.
    rewrite filter_cons.
    destruct (decide (lid = k)) as [->|Hne].
    + rewrite lookup_insert_eq in H1, H2. rewrite Hgfa, Hptl.
      cbn [length]. simpl in H1, H2 |- *.
      rewrite H1, H2.
      fold (petal_rotation (default 0%Z (petals !! k))).
      rewrite !Nat.iter_swap. auto.
    + rewrite lookup_insert_ne in H1, H2 by exact Hne. auto.
Qed.

End ExclusionFacts.

(** X27. The polygons of a constructed hardware.  For the last row that
    names an id, the theta and phi polygons are stored as given, and the
    GFA and petal polygons are stored turned about the origin by the petal
    angle, once for each time the id occurs in the input: once when the
    ids are distinct, again for every repetition. *)
Theorem Hardware_new_rotates_exclusions :
  ∀ (a : HardwareArgs) (hw : Hardware) (i : nat) (lid pt : Z)
    (excl_theta excl_phi excl_gfa excl_petal : shape),
    Hardware_new a = Some hw →
    arg_location a !! i = Some lid →
    (∀ j : nat, arg_location a !! j = Some lid → (j ≤ i)%nat) →
    arg_petal a !! i = Some pt →
    arg_excl_theta a !! i = Some excl_theta →
    arg_excl_phi a !! i = Some excl_phi →
    arg_excl_gfa a !! i = Some excl_gfa →
    arg_excl_petal a !! i = Some excl_petal →
    let times := length (filter (λ x, x = lid) (arg_location a)) in
    let turn := Nat.iter times (rotation_origin (petal_rotation pt)) in
    loc_petal hw !! lid = Some pt ∧
    loc_theta_excl hw !! lid = Some excl_theta ∧
    loc_phi_excl hw !! lid = Some excl_phi ∧
    loc_gfa_excl hw !! lid = Some (turn excl_gfa) ∧
    loc_petal_excl hw !! lid = Some (turn excl_petal) ∧
    (1 ≤ times)%nat ∧
    (NoDup (arg_location a) → times = 1%nat).
Proof.
  intros a hw i lid pt excl_theta excl_phi excl_gfa excl_petal
         Hnew Hi Hlast Hpt Het Hep Heg Hepl times turn.
  destruct (Hardware_new_members a hw Hnew)
    as (rows & excl & Hrows & Hexcl & _ & _ & _ & _ & _ & _ & _ & _ & _
        & Hlp & _ & Hte & Hpe & Hge & Hple).
  destruct (read_rows_lookup a rows Hrows) as [Hlen Hread].
  destruct (lookup_lt_is_Some_2 rows i) as [r Hr].
  { rewrite Hlen. eapply lookup_lt_Some; exact Hi. }
  pose proof (Hread i r Hr) as Hrow.
  destruct (read_row_fields a i r Hrow) as (Hloc & _).
  destruct (read_row_more_fields a i r Hrow)
    as (Hp' & Het' & Hep' & Heg' & Hepl').
  assert (row_location r = lid) as Hlid by congruence.
  assert (row_petal r = pt) as Hpt' by congruence.
  assert (row_excl_theta r = excl_theta) as Het'' by congruence.
  assert (row_excl_phi r = excl_phi) as Hep'' by congruence.
  assert (row_excl_gfa r = excl_gfa) as Heg'' by congruence.
  assert (row_excl_petal r = excl_petal) as Hepl'' by congruence.
  destruct (fold_rows_last_excl rows
              (Hardware_cleared a (maxpetal_of (arg_petal a) + 1)) i r Hr)
    as (Hst_p & Hst_t & Hst_ph & Hst_g & Hst_pl).
  { intros j r' Hj Heq. apply Hlast.
    destruct (read_row_fields a j r' (Hread j r' Hj)) as (Hloc' & _).
    congruence. }
  cbv zeta in Hst_p, Hst_t, Hst_ph, Hst_g, Hst_pl.
  rewrite Hlid in Hst_p, Hst_t, Hst_ph, Hst_g, Hst_pl.
  destruct (rotate_excl_all_lookup _ _ _ _ lid Hexcl) as [Hg Hpl].
  cbn [fst snd] in Hg, Hpl.
  rewrite Hst_p, Hst_g in Hg. rewrite Hst_p, Hst_pl in Hpl.
  assert (Htimes : length (filter (λ x, x = lid)
                             (stable_sort (arg_location a))) = times).
  { unfold times, stable_sort. rewrite merge_sort_Permutation. reflexivity. }
  rewrite Htimes in Hg, Hpl. cbn [default] in Hg, Hpl.
  assert (Hin : lid ∈ filter (λ x, x = lid) (arg_location a)).
  { apply list_elem_of_filter. split; [reflexivity|].
    eapply list_elem_of_lookup_2; exact Hi. }
  rewrite Hlp, Hte, Hpe, Hge, Hple, Hst_p, Hst_t, Hst_ph, Hg, Hpl.
  subst turn. rewrite Hpt', Het'', Hep'', Heg'', Hepl''. simpl.
  do 5 (split; [reflexivity|]). split.
  - unfold times. destruct (filter _ _); [|simpl; lia].
    apply elem_of_nil in Hin. contradiction.
  - intros Hnd. unfold times.
    assert (Hnd' : NoDup (filter (λ x, x = lid) (arg_location a)))
      by (apply NoDup_filter, Hnd).
    destruct (filter (λ x, x = lid) (arg_location a)) as [|x [|y l]] eqn:Hf.
    + apply elem_of_nil in Hin. contradiction.
    + reflexivity.
    + exfalso.
      assert (Hx : x ∈ filter (λ x, x = lid) (arg_location a))
        by (rewrite Hf; apply list_elem_of_here).
      assert (Hy : y ∈ filter (λ x, x = lid) (arg_location a))
        by (rewrite Hf; apply list_elem_of_further, list_elem_of_here).
      apply list_elem_of_filter in Hx as [-> _].
      apply list_elem_of_filter in Hy as [-> _].
      apply NoDup_cons in Hnd' as [Hnot _]. apply Hnot, list_elem_of_here.
Qed.

(** The id 5 given twice ([args_duplicate]): its GFA polygon is turned
    twice. *)
Lemma Hardware_new_rotates_exclusions_witness :
  ∃ hw : Hardware,
    Hardware_new args_duplicate = Some hw ∧
    loc_gfa_excl hw !! 5%Z
    = Some (rotation_origin (petal_rotation 0)
              (rotation_origin (petal_rotation 0) unit_square)).
Proof.
  destruct (Hardware_new_Some args_duplicate args_duplicate_aligned
              args_duplicate_petals)
    as [hw Hhw].
  exists hw. split; [exact Hhw|].
  refine (proj1 (proj2 (proj2 (proj2
            (Hardware_new_rotates_exclusions args_duplicate hw 1%nat 5%Z 0%Z
               unit_square unit_square unit_square unit_square
               Hhw eq_refl _ eq_refl eq_refl eq_refl eq_refl eq_refl))))).
  intros [|[|j]] Hj; [lia | lia | discriminate].
Defined.

Section PetalAngle.

Lemma fmod_multiple (n : Z) :
  (0 <= n)%Z → Libm.fmod (IZR n * 36) 360 = IZR (36 * (n mod 10)).
Proof.
  intros Hn. unfold Libm.fmod, Libm.trunc.
  pose proof (Z.div_mod n 10 ltac:(lia)) as Hdm.
  pose proof (Z.mod_pos_bound n 10 ltac:(lia)) as Hm.
  assert (Hq0 : (0 <= n / 10)%Z) by (apply Z.div_pos; lia).
  assert (HR : IZR n = 10 * IZR (n / 10) + IZR (n mod 10)).
  { rewrite Hdm at 1. rewrite plus_IZR, mult_IZR. reflexivity. }
  assert (Hm0 : 0 <= IZR (n mod 10)) by (apply IZR_le; lia).
  assert (Hm9 : IZR (n mod 10) <= 9) by (apply IZR_le; lia).
  assert (Hq : 0 <= IZR (n / 10)) by (apply IZR_le; lia).
  assert (Hx : IZR n * 36 / 360 = IZR (n / 10) + IZR (n mod 10) / 10)
    by (rewrite HR; field).
  rewrite Hx.
  destruct (Rle_dec 0 (IZR (n / 10) + IZR (n mod 10) / 10)) as [_|Hneg];
    [|exfalso; apply Hneg; lra].
  rewrite <- (Int_part_spec _ (n / 10)) by lra.
  rewrite mult_IZR, HR. ring.
Qed.

End PetalAngle.

(** X28. The petal angle of the constructor is a multiple of 36 degrees: for
    a petal index from -7 to [INT32_MAX - 7], for which [7 + pt] is an
    [int32_t] that is not negative, it is [36 * ((7 + pt) mod 10)] degrees,
    so petal 3 is not turned at all. *)
Theorem petal_rotation_multiple_of_36 :
  ∀ pt : Z,
    (-7 <= pt <= Int32.max - 7)%Z →
    petal_rotation pt
    = (cos (IZR (36 * ((7 + pt) mod 10)) * PI / 180),
       sin (IZR (36 * ((7 + pt) mod 10)) * PI / 180)) ∧
    (∀ (petals : gmap Z Z) (lid : Z) (excl : gmap Z shape * gmap Z shape)
       (gfa ptl : shape),
       petals !! lid = Some pt →
       excl.1 !! lid = Some gfa → excl.2 !! lid = Some ptl →
       rotate_excl petals lid excl
       = Some (<[lid := rotation_origin (petal_rotation pt) gfa]> excl.1,
               <[lid := rotation_origin (petal_rotation pt) ptl]> excl.2)) ∧
    (((7 + pt) mod 10 = 0)%Z → petal_rotation pt = (1, 0)).
Proof.
  intros pt Hpt.
  assert (Hrot : petal_rotation pt
                 = (cos (IZR (36 * ((7 + pt) mod 10)) * PI / 180),
                    sin (IZR (36 * ((7 + pt) mod 10)) * PI / 180))).
  { unfold petal_rotation. cbv zeta.
    rewrite fmod_multiple by lia. reflexivity. }
  split; [exact Hrot|]. split.
  - intros petals lid excl gfa ptl Hp Hg Hl.
    unfold rotate_excl. cbv zeta. rewrite Hp.
    change (default 0%Z (Some pt)) with pt.
    rewrite Int32_add_in_range by (unfold Int32.min, Int32.max in *; lia).
    simpl. rewrite Hg. simpl. rewrite Hl. reflexivity.
  - intros Hmod. rewrite Hrot, Hmod.
    assert (Hzero : IZR (36 * 0) * PI / 180 = 0).
    { replace (36 * 0)%Z with 0%Z by reflexivity. unfold Rdiv. ring. }
    rewrite Hzero, cos_0, sin_0. reflexivity.
Qed.

Lemma petal_rotation_multiple_of_36_witness :
  petal_rotation 3 = (1, 0).
Proof.
  refine (proj2 (proj2 (petal_rotation_multiple_of_36 3 _)) _).
  - unfold Int32.max. lia.
  - reflexivity.
Defined.
